(** * Tiny Realms: world synchronisation core

    A shallow embedding of the client-side presence code
    ([EntityLayer.update], [EntityLayer.updatePresence], [PresenceManager]),
    of the combat-settings inputs of the map editor and of the combat
    resolver, together with the properties stated about them.

    JavaScript numbers are modelled as exact rationals ([Q]); the two
    clocks ([performance.now()], [Date.now()]) are explicit arguments. *)

From Stdlib Require Import QArith Qround Qminmax Lqa ZArith Lia.
From stdpp Require Import gmap strings list pretty.

Local Open Scope Q_scope.

(** ** Numbers *)

Module Num.

(** [a < b] on numbers, as a boolean. *)
Definition ltb (a b : Q) : bool := negb (Qle_bool b a).
(** [a > b]. *)
Definition gtb (a b : Q) : bool := ltb b a.
(** [a >= b]. *)
Definition geb (a b : Q) : bool := Qle_bool b a.
(** [a === b] on numbers. *)
Definition eqb (a b : Q) : bool := Qeq_bool a b.

(** [Math.max] and [Math.min] on finite numbers. *)
Definition max (a b : Q) : Q := if Qle_bool a b then b else a.
Definition min (a b : Q) : Q := if Qle_bool a b then a else b.

(** [Math.max(0, Math.min(1, v))]. *)
Definition clamp01 (v : Q) : Q := max 0 (min 1 v).

End Num.

(** ** Data model of [EntityLayer] (src/engine/ObjectLayer.ts) *)

(** [interface RemoteSnapshot]: a position snapshot received from the server,
    stamped with [performance.now()] at receipt. *)
Module RemoteSnapshot.
Record t : Type := mk {
  x : Q;
  y : Q;
  vx : Q;
  vy : Q;
  direction : string;
  animation : string;
  time : Q
}.
End RemoteSnapshot.

(** [PresenceData]: one row of the presence feed as handed to
    [updatePresence]. *)
Module PresenceData.
Record t : Type := mk {
  profileId : string;
  name : string;
  spriteUrl : string;
  x : Q;
  y : Q;
  vx : Q;
  vy : Q;
  direction : string;
  animation : string;
  lastSeen : Q
}.
End PresenceData.

(** The part of a PixiJS [AnimatedSprite] the code touches: which animation
    row its textures come from, and whether it is playing. *)
Module AnimatedSprite.
Record t : Type := mk {
  textures : string;
  playing : bool
}.
Definition play (s : t) : t := mk (textures s) true.
Definition gotoAndStop (s : t) : t := mk (textures s) false.
End AnimatedSprite.

(** A [Spritesheet]: animation key to its number of frames. *)
Abbreviation Spritesheet := (gmap string nat).

(** An entry of [EntityLayer.remotePlayers]. *)
Module Remote.
Record t : Type := mk {
  containerX : Q;
  containerY : Q;
  sprite : option AnimatedSprite.t;
  spritesheet : option Spritesheet;
  spriteUrl : string;
  label : string;
  snapshots : list RemoteSnapshot.t;
  renderX : Q;
  renderY : Q;
  direction : string;
  animation : string;
  directionHoldFrames : nat
}.
End Remote.

Module EntityLayer.

Definition INTERP_DELAY_MS : Q := 300.
Definition INTERP_MAX_SNAPSHOTS : nat := 6.
Definition REMOTE_SNAP_DISTANCE_PX : Q := 96.

(** [DIR_ANIM[dir as Direction] ?? "row0"]. *)
Definition DIR_ANIM (dir : string) : string :=
  if String.eqb dir "down" then "row0"
  else if String.eqb dir "up" then "row1"
  else if String.eqb dir "right" then "row2"
  else if String.eqb dir "left" then "row3"
  else "row0".

(** *** Interpolation target *)

(** Outcome of the target computation of one remote player. [Undefined]
    stands for the [TypeError] of reading a field of [snaps[i]] out of
    range; the lemmas below show it is never produced. *)
Inductive Interp : Type :=
| NoSnapshots
| Undefined
| Target (targetX targetY : Q) (interpDir interpAnim : string).

(** [let i = snaps.length - 1; while (i > 0 && snaps[i].time > renderTime) i--;]
    started from [i]. [None] is the out-of-range read. *)
Fixpoint findBracket (snaps : list RemoteSnapshot.t) (renderTime : Q) (i : nat)
  : option nat :=
  match i with
  | O => Some O
  | S i' =>
      match snaps !! i with
      | None => None
      | Some s =>
          if Num.gtb (RemoteSnapshot.time s) renderTime
          then findBracket snaps renderTime i'
          else Some i
      end
  end.

(** The [else] branch of [a === b || a.time === b.time]: lerp between [a]
    and [b]. *)
Definition lerpTarget (a b : RemoteSnapshot.t) (renderTime : Q) : Interp :=
  let t := Num.clamp01 ((renderTime - RemoteSnapshot.time a)
                        / (RemoteSnapshot.time b - RemoteSnapshot.time a)) in
  Target (RemoteSnapshot.x a + (RemoteSnapshot.x b - RemoteSnapshot.x a) * t)
         (RemoteSnapshot.y a + (RemoteSnapshot.y b - RemoteSnapshot.y a) * t)
         (if Num.ltb t (1 # 2) then RemoteSnapshot.direction a
          else RemoteSnapshot.direction b)
         (if Num.ltb t (1 # 2) then RemoteSnapshot.animation a
          else RemoteSnapshot.animation b).

Definition holdTarget (a : RemoteSnapshot.t) : Interp :=
  Target (RemoteSnapshot.x a) (RemoteSnapshot.y a)
         (RemoteSnapshot.direction a) (RemoteSnapshot.animation a).

(** The [if (snaps.length >= 2) ... else if (snaps.length === 1) ... else]
    block of [update]. Snapshots are distinct objects, so [a === b] holds
    exactly when both are read at the same index. *)
Definition interpolate (snaps : list RemoteSnapshot.t) (renderTime : Q) : Interp :=
  if (2 <=? length snaps)%nat then
    match findBracket snaps renderTime (length snaps - 1) with
    | None => Undefined
    | Some i =>
        let j := Nat.min (i + 1) (length snaps - 1) in
        match snaps !! i, snaps !! j with
        | Some a, Some b =>
            if (i =? j)%nat
               || Num.eqb (RemoteSnapshot.time a) (RemoteSnapshot.time b)
            then holdTarget a
            else lerpTarget a b renderTime
        | _, _ => Undefined
        end
    end
  else if (length snaps =? 1)%nat then
    match snaps !! 0%nat with
    | Some s => holdTarget s
    | None => Undefined
    end
  else NoSnapshots.

(** *** Applying a target to a remote player *)

(** [applyRemoteDirection(remote, dir)]: returns the new [sprite]. *)
Definition applyRemoteDirection (sprite : option AnimatedSprite.t)
    (spritesheet : option Spritesheet) (animation : string) (dir : string)
  : option AnimatedSprite.t :=
  match sprite, spritesheet with
  | Some sp, Some sheet =>
      let animKey := DIR_ANIM dir in
      match sheet !! animKey with
      | Some frames =>
          if (0 <? frames)%nat then
            let sp' := AnimatedSprite.mk animKey (AnimatedSprite.playing sp) in
            if String.eqb animation "walk"
            then Some (AnimatedSprite.play sp')
            else Some (AnimatedSprite.gotoAndStop sp')
          else sprite
      | None => sprite
      end
  | _, _ => sprite
  end.

(** The snap-or-move block: both arms of the source's conditional are kept. *)
Definition snapOrMove (renderX renderY targetX targetY : Q) : Q * Q :=
  let cdx := targetX - renderX in
  let cdy := targetY - renderY in
  if Num.gtb (cdx * cdx + cdy * cdy)
             (REMOTE_SNAP_DISTANCE_PX * REMOTE_SNAP_DISTANCE_PX)
  then (targetX, targetY)
  else (targetX, targetY).

(** The direction debounce: returns the new [sprite], [direction] and
    [directionHoldFrames]. *)
Definition debounceDirection (r : Remote.t) (interpDir : string)
  : option AnimatedSprite.t * string * nat :=
  if negb (String.eqb interpDir (Remote.direction r)) then
    let hold := S (Remote.directionHoldFrames r) in
    if (2 <=? hold)%nat then
      (applyRemoteDirection (Remote.sprite r) (Remote.spritesheet r)
                            (Remote.animation r) interpDir,
       interpDir, O)
    else (Remote.sprite r, Remote.direction r, hold)
  else (Remote.sprite r, Remote.direction r, O).

(** The walk/idle toggle: returns the new [sprite] and [animation]. *)
Definition smoothAnimation (sprite : option AnimatedSprite.t)
    (animation interpAnim : string) : option AnimatedSprite.t * string :=
  if negb (String.eqb interpAnim animation) then
    (match sprite with
     | Some sp =>
         if String.eqb interpAnim "walk" && negb (AnimatedSprite.playing sp)
         then Some (AnimatedSprite.play sp)
         else if String.eqb interpAnim "idle" && AnimatedSprite.playing sp
         then Some (AnimatedSprite.gotoAndStop sp)
         else Some sp
     | None => None
     end, interpAnim)
  else (sprite, animation).

(** Everything after the target computation, for one remote player. *)
Definition applyTarget (r : Remote.t) (targetX targetY : Q)
    (interpDir interpAnim : string) : Remote.t :=
  let '(rx, ry) := snapOrMove (Remote.renderX r) (Remote.renderY r)
                              targetX targetY in
  let '(sprite1, dir1, hold1) := debounceDirection r interpDir in
  let '(sprite2, anim2) := smoothAnimation sprite1 (Remote.animation r) interpAnim in
  Remote.mk rx ry sprite2 (Remote.spritesheet r) (Remote.spriteUrl r)
            (Remote.label r) (Remote.snapshots r) rx ry dir1 anim2 hold1.

(** The body of [for (const [, remote] of this.remotePlayers)] in [update].
    [None] is the exception of an out-of-range read. *)
Definition updateRemote (renderTime : Q) (r : Remote.t) : option Remote.t :=
  match interpolate (Remote.snapshots r) renderTime with
  | NoSnapshots => Some r
  | Undefined => None
  | Target tx ty d a => Some (applyTarget r tx ty d a)
  end.

(** The remote-player part of [update], with [now = performance.now()]. *)
Definition update (now : Q) (remotePlayers : gmap string Remote.t)
  : gmap string (option Remote.t) :=
  updateRemote (now - INTERP_DELAY_MS) <$> remotePlayers.

(** *** The same update without the snap-distance conditional *)

(** [applyTarget] with the [if (cdx * cdx + cdy * cdy > ...)] statement
    replaced by the two assignments [remote.renderX = targetX;
    remote.renderY = targetY]. *)
Definition applyTargetDirect (r : Remote.t) (targetX targetY : Q)
    (interpDir interpAnim : string) : Remote.t :=
  let '(sprite1, dir1, hold1) := debounceDirection r interpDir in
  let '(sprite2, anim2) := smoothAnimation sprite1 (Remote.animation r) interpAnim in
  Remote.mk targetX targetY sprite2 (Remote.spritesheet r) (Remote.spriteUrl r)
            (Remote.label r) (Remote.snapshots r) targetX targetY
            dir1 anim2 hold1.

Definition updateRemoteDirect (renderTime : Q) (r : Remote.t) : option Remote.t :=
  match interpolate (Remote.snapshots r) renderTime with
  | NoSnapshots => Some r
  | Undefined => None
  | Target tx ty d a => Some (applyTargetDirect r tx ty d a)
  end.

Definition updateDirect (now : Q) (remotePlayers : gmap string Remote.t)
  : gmap string (option Remote.t) :=
  updateRemoteDirect (now - INTERP_DELAY_MS) <$> remotePlayers.

(** *** The presence feed *)

(** [while (remote.snapshots.length > INTERP_MAX_SNAPSHOTS) remote.snapshots.shift();] *)
Fixpoint trimSnapshots (snaps : list RemoteSnapshot.t) : list RemoteSnapshot.t :=
  match snaps with
  | [] => []
  | _ :: rest =>
      if (INTERP_MAX_SNAPSHOTS <? length snaps)%nat
      then trimSnapshots rest
      else snaps
  end.

(** The object literal of the [if (!remote)] branch. *)
Definition newRemote (p : PresenceData.t) : Remote.t :=
  Remote.mk (PresenceData.x p) (PresenceData.y p) None None
            (PresenceData.spriteUrl p)
            (if String.eqb (PresenceData.name p) "" then "Player"
             else PresenceData.name p)
            []
            (PresenceData.x p) (PresenceData.y p)
            (PresenceData.direction p) (PresenceData.animation p) O.

Definition snapshotOf (p : PresenceData.t) (now : Q) : RemoteSnapshot.t :=
  RemoteSnapshot.mk (PresenceData.x p) (PresenceData.y p)
                    (PresenceData.vx p) (PresenceData.vy p)
                    (PresenceData.direction p) (PresenceData.animation p) now.

(** [remote.snapshots.push(...)], the trim loop and the label update. *)
Definition pushSnapshot (r : Remote.t) (p : PresenceData.t) (now : Q) : Remote.t :=
  Remote.mk (Remote.containerX r) (Remote.containerY r)
            (Remote.sprite r) (Remote.spritesheet r) (Remote.spriteUrl r)
            (if String.eqb (PresenceData.name p) "" then "Player"
             else PresenceData.name p)
            (trimSnapshots (Remote.snapshots r ++ [snapshotOf p now]))
            (Remote.renderX r) (Remote.renderY r)
            (Remote.direction r) (Remote.animation r)
            (Remote.directionHoldFrames r).

(** One iteration of [for (const p of presenceList)]: the state is the map
    [remotePlayers] and the set [activeIds]. *)
Definition presenceStep (localProfileId : string) (now : Q)
    (st : gmap string Remote.t * gset string) (p : PresenceData.t)
  : gmap string Remote.t * gset string :=
  let '(remotePlayers, activeIds) := st in
  if String.eqb (PresenceData.profileId p) localProfileId then st
  else
    let remote :=
      match remotePlayers !! PresenceData.profileId p with
      | Some r => r
      | None => newRemote p
      end in
    (<[PresenceData.profileId p := pushSnapshot remote p now]> remotePlayers,
     {[PresenceData.profileId p]} ∪ activeIds).

(** [updatePresence(presenceList, localProfileId)] with
    [now = performance.now()]: the first loop, then the removal loop over
    [remotePlayers]. *)
Definition updatePresence (presenceList : list PresenceData.t)
    (localProfileId : string) (now : Q) (remotePlayers : gmap string Remote.t)
  : gmap string Remote.t :=
  let '(remotePlayers', activeIds) :=
    foldl (presenceStep localProfileId now) (remotePlayers, ∅) presenceList in
  filter (fun kv => kv.1 ∈ activeIds) remotePlayers'.

(** [loadRemotePlayerSprite(profileId, spriteUrl)] once [loadSpriteSheet]
    has resolved with [sheet], for a player that is still tracked. A failed
    load only logs a warning and changes nothing. *)
Definition loadRemotePlayerSprite (sheet : Spritesheet) (r : Remote.t) : Remote.t :=
  match sheet !! "row0"%string with
  | Some downFrames =>
      if (0 <? downFrames)%nat then
        let playing := String.eqb (Remote.animation r) "walk" in
        let animKey := DIR_ANIM (Remote.direction r) in
        let textures :=
          match sheet !! animKey with
          | Some frames => if (0 <? frames)%nat then animKey else "row0"%string
          | None => "row0"%string
          end in
        Remote.mk (Remote.containerX r) (Remote.containerY r)
                  (Some (AnimatedSprite.mk textures playing)) (Some sheet)
                  (Remote.spriteUrl r) (Remote.label r) (Remote.snapshots r)
                  (Remote.renderX r) (Remote.renderY r)
                  (Remote.direction r) (Remote.animation r)
                  (Remote.directionHoldFrames r)
      else r
  | None => r
  end.

End EntityLayer.

(** ** [PresenceManager] (src/engine/ObjectLayer.ts, second module) *)

(** The fields of [ProfileData] the manager reads. *)
Module ProfileData.
Record t : Type := mk {
  _id : string;
  name : string;
  spriteUrl : string
}.
End ProfileData.

(** What [hooks.getPlayerPosition()] returns. *)
Module PlayerPosition.
Record t : Type := mk {
  x : Q;
  y : Q;
  vx : Q;
  vy : Q;
  direction : string
}.
End PlayerPosition.

(** The Convex mutations the client issues. *)
Inductive Mutation : Type :=
| presence_update (profileId mapName : string) (x y vx vy : Q)
                  (direction animation spriteUrl name : string)
| presence_remove (profileId : string)
| profiles_savePosition (id mapName : string) (x y : Q) (direction : string).

(** Observable effects of the manager, in program order. *)
Inductive Effect : Type :=
| ConsoleLog (msg : string)
| ConsoleWarn (msg err : string)
| Mutate (m : Mutation)
| UnhandledRejection (err : string)
| SetInterval (id : nat) (ms : Q)
| ClearInterval (id : nat)
| OnUpdate (id : nat) (mapName : string)
| Unsubscribe (id : nat)
| AddEventListener (ev : string) (id : nat)
| RemoveEventListener (ev : string) (id : nat).

(** A settled promise. *)
Inductive Promise : Type :=
| Fulfilled
| Rejected (err : string).

(** What the surroundings supply when a piece of manager code runs: the
    values of the hooks, of [isGuest()], of [Date.now()], and how the store
    answers a mutation ([None]: accepted, [Some err]: the promise rejects). *)
Module Env.
Record t : Type := mk {
  isGuest : bool;
  getCurrentMapName : string;
  getPlayerPosition : PlayerPosition.t;
  isPlayerMoving : bool;
  now : Q;
  network : Mutation -> option string
}.
End Env.

(** The constants of src/config/multiplayer-config.ts, which is not among
    the sources: they are parameters of the development. *)
Module MultiplayerConfig.
Record t : Type := mk {
  PRESENCE_INTERVAL_MS : Q;
  PRESENCE_MOVE_THRESHOLD_PX : Q;
  PRESENCE_STATIONARY_HEARTBEAT_MS : Q;
  SAVE_POSITION_INTERVAL_MS : Q
}.
End MultiplayerConfig.

Module PresenceManager.

(** The private fields of the class. Timer, subscription and listener
    handles are numbers handed out by the browser. *)
Record t : Type := mk {
  profile : ProfileData.t;
  presenceTimer : option nat;
  saveTimer : option nat;
  presenceUnsub : option nat;
  lastPresenceX : Q;
  lastPresenceY : Q;
  lastPresenceSentAt : Q;
  unloadHandler : option nat
}.

(** [new PresenceManager(profile, isGuest, hooks)]. *)
Definition create (p : ProfileData.t) : t :=
  mk p None None None 0 0 0 None.

(** What interval callbacks and listeners the browser currently holds. *)
Inductive Callback : Type :=
| PublishTick
| SaveTick.

Module Browser.
Record t : Type := mk {
  nextId : nat;
  intervals : list (nat * Callback);
  listeners : list (string * nat);
  subscriptions : list nat
}.
Definition empty : t := mk 0 [] [] [].
End Browser.

(** [convex.mutation(m)]. *)
Definition mutation (env : Env.t) (m : Mutation) : Promise * list Effect :=
  (match Env.network env m with
   | None => Fulfilled
   | Some err => Rejected err
   end, [Mutate m]).

(** [promise.catch(handler)] for a handler that returns normally. *)
Definition catch (pe : Promise * list Effect) (handler : string -> list Effect)
  : Promise * list Effect :=
  match pe.1 with
  | Fulfilled => (Fulfilled, pe.2)
  | Rejected err => (Fulfilled, pe.2 ++ handler err)
  end.

(** An expression statement whose promise nobody keeps. *)
Definition discard (pe : Promise * list Effect) : list Effect :=
  match pe.1 with
  | Fulfilled => pe.2
  | Rejected err => pe.2 ++ [UnhandledRejection err]
  end.

Section WithConfig.

Variable cfg : MultiplayerConfig.t.

(** [publishPresence(convex, profileId, force)]. *)
Definition publishPresence (env : Env.t) (force : bool) (m : t)
  : t * list Effect :=
  let pos := Env.getPlayerPosition env in
  let dx := PlayerPosition.x pos - lastPresenceX m in
  let dy := PlayerPosition.y pos - lastPresenceY m in
  let moved :=
    Num.geb (dx * dx + dy * dy)
            (MultiplayerConfig.PRESENCE_MOVE_THRESHOLD_PX cfg
             * MultiplayerConfig.PRESENCE_MOVE_THRESHOLD_PX cfg) in
  let now := Env.now env in
  let heartbeatDue :=
    Num.geb (now - lastPresenceSentAt m)
            (MultiplayerConfig.PRESENCE_STATIONARY_HEARTBEAT_MS cfg) in
  if negb force && negb moved && negb heartbeatDue then (m, [])
  else
    (mk (profile m) (presenceTimer m) (saveTimer m) (presenceUnsub m)
        (PlayerPosition.x pos) (PlayerPosition.y pos) now (unloadHandler m),
     discard
       (catch
          (mutation env
             (presence_update
                (ProfileData._id (profile m))
                (Env.getCurrentMapName env)
                (PlayerPosition.x pos) (PlayerPosition.y pos)
                (PlayerPosition.vx pos) (PlayerPosition.vy pos)
                (PlayerPosition.direction pos)
                (if Env.isPlayerMoving env then "walk" else "idle")
                (ProfileData.spriteUrl (profile m))
                (ProfileData.name (profile m))))
          (fun err => [ConsoleWarn "Presence update failed:" err]))).

(** The callback of the save timer. *)
Definition savePosition (env : Env.t) (m : t) : list Effect :=
  let pos := Env.getPlayerPosition env in
  discard
    (catch
       (mutation env
          (profiles_savePosition
             (ProfileData._id (profile m))
             (Env.getCurrentMapName env)
             (PlayerPosition.x pos) (PlayerPosition.y pos)
             (PlayerPosition.direction pos)))
       (fun err => [ConsoleWarn "Position save failed:" err])).

(** The [unloadHandler] closure, and the removal at the end of [stop]. *)
Definition removePresence (env : Env.t) (m : t) : list Effect :=
  discard
    (catch (mutation env (presence_remove (ProfileData._id (profile m))))
           (fun _ => [])).

(** [start()]. *)
Definition start (env : Env.t) (st : t * Browser.t)
  : (t * Browser.t) * list Effect :=
  let '(m, b) := st in
  let log :=
    [ConsoleLog
       ("[Presence] Starting for profile " ++ ProfileData.name (profile m)
        ++ " (" ++ ProfileData._id (profile m) ++ ") on map "
        ++ Env.getCurrentMapName env
        ++ (if Env.isGuest env then " [GUEST - read-only]" else ""))%string] in
  (* if (!this.isGuest()) { publishPresence(..., true); setInterval(...) } *)
  let '(m1, b1, e1) :=
    if negb (Env.isGuest env) then
      let '(m', e) := publishPresence env true m in
      let id := Browser.nextId b in
      (mk (profile m') (Some id) (saveTimer m') (presenceUnsub m')
          (lastPresenceX m') (lastPresenceY m') (lastPresenceSentAt m')
          (unloadHandler m'),
       Browser.mk (S id) (Browser.intervals b ++ [(id, PublishTick)])
                  (Browser.listeners b) (Browser.subscriptions b),
       e ++ [SetInterval id (MultiplayerConfig.PRESENCE_INTERVAL_MS cfg)])
    else (m, b, []) in
  (* this.presenceUnsub = convex.onUpdate(api.presence.listByMap, ...) *)
  let sub := Browser.nextId b1 in
  let m2 :=
    mk (profile m1) (presenceTimer m1) (saveTimer m1) (Some sub)
       (lastPresenceX m1) (lastPresenceY m1) (lastPresenceSentAt m1)
       (unloadHandler m1) in
  let b2 :=
    Browser.mk (S sub) (Browser.intervals b1) (Browser.listeners b1)
               (Browser.subscriptions b1 ++ [sub]) in
  let e2 := [OnUpdate sub (Env.getCurrentMapName env)] in
  (* if (!this.isGuest()) { saveTimer; unloadHandler; addEventListener x2 } *)
  let '(m3, b3, e3) :=
    if negb (Env.isGuest env) then
      let tid := Browser.nextId b2 in
      let hid := S tid in
      (mk (profile m2) (presenceTimer m2) (Some tid) (presenceUnsub m2)
          (lastPresenceX m2) (lastPresenceY m2) (lastPresenceSentAt m2)
          (Some hid),
       Browser.mk (S hid) (Browser.intervals b2 ++ [(tid, SaveTick)])
                  (Browser.listeners b2
                   ++ [("beforeunload"%string, hid); ("pagehide"%string, hid)])
                  (Browser.subscriptions b2),
       [SetInterval tid (MultiplayerConfig.SAVE_POSITION_INTERVAL_MS cfg);
        AddEventListener "beforeunload" hid;
        AddEventListener "pagehide" hid])
    else (m2, b2, []) in
  ((m3, b3), log ++ e1 ++ e2 ++ e3).

Definition removeInterval (id : nat) (l : list (nat * Callback))
  : list (nat * Callback) :=
  filter (fun kc => kc.1 ≠ id) l.

Definition removeListener (id : nat) (l : list (string * nat))
  : list (string * nat) :=
  filter (fun eh => eh.2 ≠ id) l.

(** [stop()]. *)
Definition stop (env : Env.t) (st : t * Browser.t)
  : (t * Browser.t) * list Effect :=
  let '(m, b) := st in
  let '(b1, e1) :=
    match presenceTimer m with
    | Some id =>
        (Browser.mk (Browser.nextId b) (removeInterval id (Browser.intervals b))
                    (Browser.listeners b) (Browser.subscriptions b),
         [ClearInterval id])
    | None => (b, [])
    end in
  let '(b2, e2) :=
    match saveTimer m with
    | Some id =>
        (Browser.mk (Browser.nextId b1) (removeInterval id (Browser.intervals b1))
                    (Browser.listeners b1) (Browser.subscriptions b1),
         [ClearInterval id])
    | None => (b1, [])
    end in
  let '(b3, e3) :=
    match presenceUnsub m with
    | Some id =>
        (Browser.mk (Browser.nextId b2) (Browser.intervals b2)
                    (Browser.listeners b2)
                    (filter (fun s => s ≠ id) (Browser.subscriptions b2)),
         [Unsubscribe id])
    | None => (b2, [])
    end in
  let '(b4, e4) :=
    match unloadHandler m with
    | Some id =>
        (Browser.mk (Browser.nextId b3) (Browser.intervals b3)
                    (removeListener id (Browser.listeners b3))
                    (Browser.subscriptions b3),
         [RemoveEventListener "beforeunload" id;
          RemoveEventListener "pagehide" id])
    | None => (b3, [])
    end in
  let m' :=
    mk (profile m) None None None
       (lastPresenceX m) (lastPresenceY m) (lastPresenceSentAt m) None in
  let e5 := if negb (Env.isGuest env) then removePresence env m' else [] in
  ((m', b4), e1 ++ e2 ++ e3 ++ e4 ++ e5).

(** *** The manager driven by its surroundings *)

(** What can happen to a manager: the game calls [start] or [stop], the
    browser fires an interval, or raises a window event. *)
Inductive Event : Type :=
| CallStart
| CallStop
| FireInterval (id : nat)
| FireWindowEvent (ev : string).

(** An interval fires only while the browser holds it. *)
Definition fireInterval (env : Env.t) (id : nat) (st : t * Browser.t)
  : (t * Browser.t) * list Effect :=
  let '(m, b) := st in
  match List.find (fun kc => (kc.1 =? id)%nat) (Browser.intervals b) with
  | Some (_, PublishTick) =>
      let '(m', e) := publishPresence env false m in ((m', b), e)
  | Some (_, SaveTick) => (st, savePosition env m)
  | None => (st, [])
  end.

(** Every listener registered for [ev] runs the unload closure. *)
Definition fireWindowEvent (env : Env.t) (ev : string) (st : t * Browser.t)
  : (t * Browser.t) * list Effect :=
  let '(m, b) := st in
  (st,
   concat (List.map (fun eh => if String.eqb eh.1 ev
                               then removePresence env m else [])
                    (Browser.listeners b))).

Definition step (env : Env.t) (ev : Event) (st : t * Browser.t)
  : (t * Browser.t) * list Effect :=
  match ev with
  | CallStart => start env st
  | CallStop => stop env st
  | FireInterval id => fireInterval env id st
  | FireWindowEvent w => fireWindowEvent env w st
  end.

(** A run: each event comes with the surroundings it happens in. *)
Fixpoint run (evs : list (Env.t * Event)) (st : t * Browser.t)
  : (t * Browser.t) * list Effect :=
  match evs with
  | [] => (st, [])
  | (env, ev) :: rest =>
      let '(st1, e1) := step env ev st in
      let '(st2, e2) := run rest st1 in
      (st2, e1 ++ e2)
  end.

End WithConfig.

(** The mutations among a list of effects. *)
Definition mutationsOf (es : list Effect) : list Mutation :=
  omap (fun e => match e with Mutate m => Some m | _ => None end) es.

Definition isPresenceWrite (m : Mutation) : bool :=
  match m with
  | presence_update _ _ _ _ _ _ _ _ _ _ => true
  | presence_remove _ => true
  | profiles_savePosition _ _ _ _ _ => false
  end.

(** The same surroundings with another store behaviour. *)
Definition withNetwork (net : Mutation -> option string) (env : Env.t) : Env.t :=
  Env.mk (Env.isGuest env) (Env.getCurrentMapName env)
         (Env.getPlayerPosition env) (Env.isPlayerMoving env) (Env.now env) net.

(** The same events with a store that accepts every mutation. *)
Definition allAccepted (evs : list (Env.t * Event)) : list (Env.t * Event) :=
  List.map (fun ee => (withNetwork (fun _ => None) ee.1, ee.2)) evs.

Definition isUnhandled (e : Effect) : bool :=
  match e with
  | UnhandledRejection _ => true
  | _ => false
  end.

(** The [presence.update] call of a publish in the surroundings [env]. *)
Definition updateCall (env : Env.t) (m : t) : Mutation :=
  let pos := Env.getPlayerPosition env in
  presence_update (ProfileData._id (profile m)) (Env.getCurrentMapName env)
                  (PlayerPosition.x pos) (PlayerPosition.y pos)
                  (PlayerPosition.vx pos) (PlayerPosition.vy pos)
                  (PlayerPosition.direction pos)
                  (if Env.isPlayerMoving env then "walk" else "idle")
                  (ProfileData.spriteUrl (profile m))
                  (ProfileData.name (profile m)).

(** Squared distance between the player and the last published position. *)
Definition movedSq (env : Env.t) (m : t) : Q :=
  let dx := PlayerPosition.x (Env.getPlayerPosition env) - lastPresenceX m in
  let dy := PlayerPosition.y (Env.getPlayerPosition env) - lastPresenceY m in
  dx * dx + dy * dy.

End PresenceManager.

(** ** Notions used in the statements about [PresenceManager] *)

Module PresenceSpec.

Import PresenceManager.

(** Interval handles the browser handed out are below its next handle. *)
Definition freshIds (b : Browser.t) : Prop :=
  forall id c, (id, c) ∈ Browser.intervals b -> (id < Browser.nextId b)%nat.

(** The gate of [publishPresence]: moved at least the threshold, or the
    heartbeat interval has elapsed. *)
Definition publishDue (cfg : MultiplayerConfig.t) (env : Env.t)
    (m : PresenceManager.t) : Prop :=
  MultiplayerConfig.PRESENCE_MOVE_THRESHOLD_PX cfg
  * MultiplayerConfig.PRESENCE_MOVE_THRESHOLD_PX cfg <= movedSq env m
  \/ MultiplayerConfig.PRESENCE_STATIONARY_HEARTBEAT_MS cfg
     <= Env.now env - lastPresenceSentAt m.

(** The gate with a strict movement test: the squared distance exceeds the
    squared threshold, or the heartbeat interval has elapsed. *)
Definition publishDueStrict (cfg : MultiplayerConfig.t) (env : Env.t)
    (m : PresenceManager.t) : Prop :=
  MultiplayerConfig.PRESENCE_MOVE_THRESHOLD_PX cfg
  * MultiplayerConfig.PRESENCE_MOVE_THRESHOLD_PX cfg < movedSq env m
  \/ MultiplayerConfig.PRESENCE_STATIONARY_HEARTBEAT_MS cfg
     <= Env.now env - lastPresenceSentAt m.

(** The gate read to the letter: the squared distance exceeds the
    threshold itself, or the heartbeat interval has elapsed. *)
Definition publishDueLiteral (cfg : MultiplayerConfig.t) (env : Env.t)
    (m : PresenceManager.t) : Prop :=
  MultiplayerConfig.PRESENCE_MOVE_THRESHOLD_PX cfg < movedSq env m
  \/ MultiplayerConfig.PRESENCE_STATIONARY_HEARTBEAT_MS cfg
     <= Env.now env - lastPresenceSentAt m.

(** Every event of a run happens in a guest session. *)
Definition guestOnly (evs : list (Env.t * Event)) : Prop :=
  Forall (fun ee => Env.isGuest ee.1 = true) evs.

(** A guest's manager holds no timer and no unload handler, and the
    browser holds none for it. *)
Definition readOnly (st : PresenceManager.t * Browser.t) : Prop :=
  presenceTimer st.1 = None
  /\ saveTimer st.1 = None
  /\ unloadHandler st.1 = None
  /\ Browser.intervals st.2 = []
  /\ Browser.listeners st.2 = [].

(** Two effect lists that issue the same mutations, the first without any
    unhandled rejection. *)
Definition settles (es es0 : list Effect) : Prop :=
  mutationsOf es = mutationsOf es0 /\ filter isUnhandled es = [].

End PresenceSpec.

(** ** A session used to exercise the manager *)

Module Session.

(** A poll every second, a threshold of 1 px, a heartbeat of 5 s. *)
Definition cfg : MultiplayerConfig.t := MultiplayerConfig.mk 1000 1 5000 30000.

Definition profile : ProfileData.t :=
  ProfileData.mk "p1" "Ann" "/assets/villager.json".

Definition accept : Mutation -> option string := fun _ => None.
Definition offline : Mutation -> option string := fun _ => Some "offline"%string.

(** A member standing at (64, 64). *)
Definition joining : Env.t :=
  Env.mk false "town" (PlayerPosition.mk 64 64 0 0 "down") false 10000 accept.

(** The manager after a publish at (64, 64) at time 10000. *)
Definition published : PresenceManager.t :=
  PresenceManager.mk profile None None None 64 64 10000 None.

(** One second later, exactly 1 px to the right. *)
Definition atThreshold : Env.t :=
  Env.mk false "town" (PlayerPosition.mk 65 64 120 0 "right") true 11000 accept.

(** One second later, half a pixel to the right. *)
Definition belowThreshold : Env.t :=
  Env.mk false "town" (PlayerPosition.mk (129 # 2) 64 120 0 "right") true 11000
         accept.

(** The same player as a guest. *)
Definition guest : Env.t :=
  Env.mk true "town" (PlayerPosition.mk 64 64 0 0 "down") false 10000 accept.

(** A guest session: start, stray timer and window events, stop. *)
Definition guestRun : list (Env.t * PresenceManager.Event) :=
  [(guest, PresenceManager.CallStart);
   (guest, PresenceManager.FireInterval 0);
   (guest, PresenceManager.FireWindowEvent "pagehide");
   (guest, PresenceManager.CallStop)].

End Session.

(** ** Combat settings inputs of the map editor (src/editor/MapEditorPanel.ts) *)

(** A JavaScript number as [Number(input.value)] can return it. *)
Inductive JsNumber : Type :=
| Finite (q : Q)
| NaN
| PosInfinity
| NegInfinity.

Module MapEditorPanel.

(** [Number.isFinite(n)]. *)
Definition isFinite (n : JsNumber) : bool :=
  match n with
  | Finite _ => true
  | _ => false
  end.

(** [Math.round] on a finite number: the nearest integer, halves upwards. *)
Definition round (q : Q) : Q := inject_Z (Qfloor (q + (1 # 2))).

(** [mapData.combatSettings]: every field is optional. *)
Module CombatSettings.
Record t : Type := mk {
  attackRangePx : option Q;
  playerAttackCooldownMs : option Q;
  npcHitCooldownMs : option Q;
  damageVariancePct : option Q
}.
(** The literal [{}]. *)
Definition empty : t := mk None None None None.
End CombatSettings.

(** The fields of the map data record these handlers see. *)
Module MapData.
Record t : Type := mk {
  musicUrl : option string;
  combatEnabled : bool;
  combatSettings : option CombatSettings.t
}.
End MapData.

(** The bounds imported from src/config/combat-config.ts, which is not
    among the sources: they are parameters of the development. *)
Module CombatConfig.
Record t : Type := mk {
  COMBAT_ATTACK_RANGE_MIN_PX : Q;
  COMBAT_ATTACK_RANGE_MAX_PX : Q;
  COMBAT_PLAYER_ATTACK_COOLDOWN_MIN_MS : Q;
  COMBAT_PLAYER_ATTACK_COOLDOWN_MAX_MS : Q;
  COMBAT_NPC_HIT_COOLDOWN_MIN_MS : Q;
  COMBAT_NPC_HIT_COOLDOWN_MAX_MS : Q;
  COMBAT_DAMAGE_VARIANCE_MIN_PCT : Q;
  COMBAT_DAMAGE_VARIANCE_MAX_PCT : Q
}.
End CombatConfig.

(** [mapData.combatSettings = mapData.combatSettings ?? {}]. *)
Definition settingsOrEmpty (md : MapData.t) : CombatSettings.t :=
  match MapData.combatSettings md with
  | Some cs => cs
  | None => CombatSettings.empty
  end.

Definition withSettings (md : MapData.t) (cs : CombatSettings.t) : MapData.t :=
  MapData.mk (MapData.musicUrl md) (MapData.combatEnabled md) (Some cs).

Section WithConfig.

Variable cfg : CombatConfig.t.

(** The [input] listener of [combatRangeInput]; [n] is
    [Number(combatRangeInput.value)], [mapData] is
    [this.game?.mapRenderer.getMapData()]. *)
Definition onCombatRangeInput (n : JsNumber) (mapData : option MapData.t)
  : option MapData.t :=
  match mapData with
  | None => mapData
  | Some md =>
      match n with
      | Finite q =>
          let cs := settingsOrEmpty md in
          Some (withSettings md
            (CombatSettings.mk
               (Some (Num.max (CombatConfig.COMBAT_ATTACK_RANGE_MIN_PX cfg)
                        (Num.min (CombatConfig.COMBAT_ATTACK_RANGE_MAX_PX cfg)
                                 (round q))))
               (CombatSettings.playerAttackCooldownMs cs)
               (CombatSettings.npcHitCooldownMs cs)
               (CombatSettings.damageVariancePct cs)))
      | _ => mapData
      end
  end.

(** The [input] listener of [combatCooldownInput]. *)
Definition onCombatCooldownInput (n : JsNumber) (mapData : option MapData.t)
  : option MapData.t :=
  match mapData with
  | None => mapData
  | Some md =>
      match n with
      | Finite q =>
          let cs := settingsOrEmpty md in
          Some (withSettings md
            (CombatSettings.mk
               (CombatSettings.attackRangePx cs)
               (Some (Num.max (CombatConfig.COMBAT_PLAYER_ATTACK_COOLDOWN_MIN_MS cfg)
                        (Num.min (CombatConfig.COMBAT_PLAYER_ATTACK_COOLDOWN_MAX_MS cfg)
                                 (round q))))
               (CombatSettings.npcHitCooldownMs cs)
               (CombatSettings.damageVariancePct cs)))
      | _ => mapData
      end
  end.

(** The [input] listener of [combatNpcHitCdInput]. *)
Definition onCombatNpcHitCdInput (n : JsNumber) (mapData : option MapData.t)
  : option MapData.t :=
  match mapData with
  | None => mapData
  | Some md =>
      match n with
      | Finite q =>
          let cs := settingsOrEmpty md in
          Some (withSettings md
            (CombatSettings.mk
               (CombatSettings.attackRangePx cs)
               (CombatSettings.playerAttackCooldownMs cs)
               (Some (Num.max (CombatConfig.COMBAT_NPC_HIT_COOLDOWN_MIN_MS cfg)
                        (Num.min (CombatConfig.COMBAT_NPC_HIT_COOLDOWN_MAX_MS cfg)
                                 (round q))))
               (CombatSettings.damageVariancePct cs)))
      | _ => mapData
      end
  end.

(** The [input] listener of [combatVarianceInput]. *)
Definition onCombatVarianceInput (n : JsNumber) (mapData : option MapData.t)
  : option MapData.t :=
  match mapData with
  | None => mapData
  | Some md =>
      match n with
      | Finite q =>
          let cs := settingsOrEmpty md in
          Some (withSettings md
            (CombatSettings.mk
               (CombatSettings.attackRangePx cs)
               (CombatSettings.playerAttackCooldownMs cs)
               (CombatSettings.npcHitCooldownMs cs)
               (Some (Num.max (CombatConfig.COMBAT_DAMAGE_VARIANCE_MIN_PCT cfg)
                        (Num.min (CombatConfig.COMBAT_DAMAGE_VARIANCE_MAX_PCT cfg)
                                 (round q))))))
      | _ => mapData
      end
  end.

End WithConfig.

(** The four settings, to speak about the inputs uniformly. *)
Inductive Setting : Type :=
| AttackRangePx
| PlayerAttackCooldownMs
| NpcHitCooldownMs
| DamageVariancePct.

Definition handler (cfg : CombatConfig.t) (s : Setting)
  : JsNumber -> option MapData.t -> option MapData.t :=
  match s with
  | AttackRangePx => onCombatRangeInput cfg
  | PlayerAttackCooldownMs => onCombatCooldownInput cfg
  | NpcHitCooldownMs => onCombatNpcHitCdInput cfg
  | DamageVariancePct => onCombatVarianceInput cfg
  end.

Definition lowerBound (cfg : CombatConfig.t) (s : Setting) : Q :=
  match s with
  | AttackRangePx => CombatConfig.COMBAT_ATTACK_RANGE_MIN_PX cfg
  | PlayerAttackCooldownMs => CombatConfig.COMBAT_PLAYER_ATTACK_COOLDOWN_MIN_MS cfg
  | NpcHitCooldownMs => CombatConfig.COMBAT_NPC_HIT_COOLDOWN_MIN_MS cfg
  | DamageVariancePct => CombatConfig.COMBAT_DAMAGE_VARIANCE_MIN_PCT cfg
  end.

Definition upperBound (cfg : CombatConfig.t) (s : Setting) : Q :=
  match s with
  | AttackRangePx => CombatConfig.COMBAT_ATTACK_RANGE_MAX_PX cfg
  | PlayerAttackCooldownMs => CombatConfig.COMBAT_PLAYER_ATTACK_COOLDOWN_MAX_MS cfg
  | NpcHitCooldownMs => CombatConfig.COMBAT_NPC_HIT_COOLDOWN_MAX_MS cfg
  | DamageVariancePct => CombatConfig.COMBAT_DAMAGE_VARIANCE_MAX_PCT cfg
  end.

(** Reading a setting back from the map data. *)
Definition stored (s : Setting) (mapData : option MapData.t) : option Q :=
  match mapData with
  | None => None
  | Some md =>
      match MapData.combatSettings md with
      | None => None
      | Some cs =>
          match s with
          | AttackRangePx => CombatSettings.attackRangePx cs
          | PlayerAttackCooldownMs => CombatSettings.playerAttackCooldownMs cs
          | NpcHitCooldownMs => CombatSettings.npcHitCooldownMs cs
          | DamageVariancePct => CombatSettings.damageVariancePct cs
          end
      end
  end.

End MapEditorPanel.

(** ** Combat Resolver

    The resolver (convex/mechanics/combat.ts) is not among the sources. Its
    data and its attack flow are taken from the design document, sections 3
    and 4.4. *)

Module Combat.

(** Modelled from the spec: the per-map [CombatSettings] of section 3, with
    the [combatEnabled] flag of the map (the resolver and the schema are not
    among the sources). *)
Module Settings.
Record t : Type := mk {
  combatEnabled : bool;
  attackRangePx : Q;
  playerAttackCooldownMs : Q;
  npcHitCooldownMs : Q;
  damageVariancePct : Q
}.
End Settings.

(** Modelled from the spec: the combat fields of an [NpcState] row of
    section 3, its position, and whether it is a hostile-tagged, linked NPC
    (the schema is not among the sources). *)
Module NpcState.
Record t : Type := mk {
  hostile : bool;
  x : Q;
  y : Q;
  currentHp : Q;
  maxHp : Q;
  lastHitAt : option Q;
  defeatedAt : option Q;
  respawnAt : option Q
}.
End NpcState.

(** What a resolution touches: the target's row, the attacker's
    experience, the loot entities spawned so far and the kills counted
    towards kill objectives. *)
Module Store.
Record t : Type := mk {
  npc : NpcState.t;
  playerXp : Q;
  lootSpawned : nat;
  killsCounted : nat
}.
End Store.

(** One attack request against the target: where the player stands, when
    the store resolves it, and the random draw in [-1, 1] of the variance. *)
Module Request.
Record t : Type := mk {
  px : Q;
  py : Q;
  now : Q;
  roll : Q
}.
End Request.

(** Modelled from the spec: the structured outcome
    [{ success, reason?, damage?, defeated?, xpGained?, loot? }] of
    [combat.attackNearestHostile] (section 6; the resolver is not among the
    sources). *)
Module Outcome.
Record t : Type := mk {
  success : bool;
  reason : option string;
  damage : option Q;
  defeated : option bool;
  xpGained : option Q;
  loot : option bool
}.
Definition rejected (why : string) : t :=
  mk false (Some why) None None None None.
End Outcome.

(** Tuning of the resolver that the settings do not carry. *)
Module Tuning.
Record t : Type := mk {
  baseDamage : Q;
  respawnDelayMs : Q;
  xpReward : Q;
  dropsLoot : bool
}.
End Tuning.

(** Modelled from the spec: the hit-cooldown test of the attack flow of the
    Combat Resolver (convex/mechanics/combat.ts is not among the sources).
    The request is rejected when the target's [lastHitAt] is within
    [npcHitCooldownMs] of the resolution time. *)
Definition cooldownActive (s : Settings.t) (n : NpcState.t) (now : Q) : bool :=
  match NpcState.lastHitAt n with
  | Some t => Num.ltb (now - t) (Settings.npcHitCooldownMs s)
  | None => false
  end.

(** Modelled from the spec: the range test of the attack flow (the resolver
    is not among the sources): a hostile-tagged, linked NPC within
    [attackRangePx] of the player. Distances are compared squared. *)
Definition inRange (s : Settings.t) (n : NpcState.t) (r : Request.t) : bool :=
  let dx := NpcState.x n - Request.px r in
  let dy := NpcState.y n - Request.py r in
  NpcState.hostile n
  && Qle_bool (dx * dx + dy * dy)
              (Settings.attackRangePx s * Settings.attackRangePx s).

(** Modelled from the spec: the damage of a hit (the resolver is not among
    the sources): a base value randomized by plus or minus
    [damageVariancePct] percent. *)
Definition rollDamage (tn : Tuning.t) (s : Settings.t) (r : Request.t) : Q :=
  Tuning.baseDamage tn
  * (1 + Settings.damageVariancePct s / 100 * Request.roll r).

(** Modelled from the spec: [combat.attackNearestHostile] resolved against a
    fixed target, following the attack flow of section 4.4 (the resolver,
    convex/mechanics/combat.ts, is not among the sources). Reject if the
    map's [combatEnabled] is false; reject if the target is not a hostile
    in range; reject if it is already defeated; reject if its [lastHitAt]
    is within [npcHitCooldownMs]; otherwise compute the damage, patch HP and
    [lastHitAt] together, and on HP at or below zero set
    [defeatedAt]/[respawnAt], grant XP, optionally spawn loot and count
    the kill, all in the same resolution. *)
Definition attack (tn : Tuning.t) (s : Settings.t) (r : Request.t)
    (st : Store.t) : Outcome.t * Store.t :=
  let n := Store.npc st in
  if negb (Settings.combatEnabled s) then
    (Outcome.rejected "combat disabled", st)
  else if negb (inRange s n r) then
    (Outcome.rejected "out of range", st)
  else if match NpcState.defeatedAt n with Some _ => true | None => false end then
    (Outcome.rejected "target already defeated", st)
  else if cooldownActive s n (Request.now r) then
    (Outcome.rejected "cooldown active", st)
  else
    let dmg := rollDamage tn s r in
    let hp := NpcState.currentHp n - dmg in
    if Qle_bool hp 0 then
      (Outcome.mk true None (Some dmg) (Some true)
                  (Some (Tuning.xpReward tn)) (Some (Tuning.dropsLoot tn)),
       Store.mk
         (NpcState.mk (NpcState.hostile n) (NpcState.x n) (NpcState.y n)
                      hp (NpcState.maxHp n)
                      (Some (Request.now r)) (Some (Request.now r))
                      (Some (Request.now r + Tuning.respawnDelayMs tn)))
         (Store.playerXp st + Tuning.xpReward tn)
         (if Tuning.dropsLoot tn then S (Store.lootSpawned st)
          else Store.lootSpawned st)
         (S (Store.killsCounted st)))
    else
      (Outcome.mk true None (Some dmg) (Some false) None None,
       Store.mk
         (NpcState.mk (NpcState.hostile n) (NpcState.x n) (NpcState.y n)
                      hp (NpcState.maxHp n)
                      (Some (Request.now r)) (NpcState.defeatedAt n)
                      (NpcState.respawnAt n))
         (Store.playerXp st)
         (Store.lootSpawned st)
         (Store.killsCounted st)).

(** A request delivered several times: every delivery is resolved in turn
    against the store the previous one left. The result lists, per
    delivery, the store before, the outcome and the store after. *)
Fixpoint resolveAll (tn : Tuning.t) (s : Settings.t) (rs : list Request.t)
    (st : Store.t) : list (Store.t * Outcome.t * Store.t) :=
  match rs with
  | [] => []
  | r :: rest =>
      let '(o, st') := attack tn s r st in
      (st, o, st') :: resolveAll tn s rest st'
  end.

(** A resolution deducted HP when the target's HP differs afterwards. *)
Definition hpDeducted (e : Store.t * Outcome.t * Store.t) : bool :=
  negb (Qeq_bool (NpcState.currentHp (Store.npc e.1.1))
                 (NpcState.currentHp (Store.npc e.2))).

(** A resolution granted a reward when it reports XP or loot, or when the
    ledger, the loot count or the kill count differs afterwards. *)
Definition rewardGranted (e : Store.t * Outcome.t * Store.t) : bool :=
  match Outcome.xpGained e.1.2 with Some _ => true | None => false end
  || match Outcome.loot e.1.2 with Some _ => true | None => false end
  || negb (Qeq_bool (Store.playerXp e.1.1) (Store.playerXp e.2))
  || negb (Nat.eqb (Store.lootSpawned e.1.1) (Store.lootSpawned e.2))
  || negb (Nat.eqb (Store.killsCounted e.1.1) (Store.killsCounted e.2)).

Definition count {A} (f : A -> bool) (l : list A) : nat :=
  length (List.filter f l).

End Combat.

(** ** Notions used in the statements about [EntityLayer] *)

Module EntitySpec.

Import EntityLayer.

Implicit Types (snaps : list RemoteSnapshot.t) (r : Remote.t)
  (a b s : RemoteSnapshot.t) (m : gmap string Remote.t) (A : gset string).

(** The ids the first loop marks active. *)
Definition feedIds (localProfileId : string) (presenceList : list PresenceData.t)
  : gset string :=
  list_to_set
    (filter (fun id => id ≠ localProfileId)
            (PresenceData.profileId <$> presenceList)).

(** The loop invariant of the first loop: every active id is tracked, with
    a trimmed buffer. *)
Definition activeTrimmed m A : Prop :=
  forall id, id ∈ A ->
    exists r, m !! id = Some r
      /\ (length (Remote.snapshots r) <= INTERP_MAX_SNAPSHOTS)%nat.

(** A point on the straight segment from [a] to [b]. *)
Definition onSegment a b (px py : Q) : Prop :=
  exists t, 0 <= t <= 1
    /\ px == RemoteSnapshot.x a + (RemoteSnapshot.x b - RemoteSnapshot.x a) * t
    /\ py == RemoteSnapshot.y a + (RemoteSnapshot.y b - RemoteSnapshot.y a) * t.

(** Receipt times in buffer order. *)
Definition timeOrdered snaps : Prop :=
  forall i j a b, (i <= j)%nat -> snaps !! i = Some a -> snaps !! j = Some b ->
    RemoteSnapshot.time a <= RemoteSnapshot.time b.

(** Every buffer of the map is in receipt order and was received by [now]. *)
Definition receivedBy (now : Q) m : Prop :=
  forall id r, m !! id = Some r ->
    timeOrdered (Remote.snapshots r)
    /\ forall s, s ∈ Remote.snapshots r -> RemoteSnapshot.time s <= now.

(** The states of [remotePlayers] a running layer can be in, with the
    latest clock reading: the map starts empty; feeds are delivered, frames
    are drawn, both reading a clock that never runs backwards; and sprite
    sheets finish loading. *)
Inductive reachable (localProfileId : string)
  : Q -> gmap string Remote.t -> Prop :=
| reach_new t :
    reachable localProfileId t ∅
| reach_feed t m presenceList now :
    reachable localProfileId t m ->
    t <= now ->
    reachable localProfileId now
              (updatePresence presenceList localProfileId now m)
| reach_frame t m now m' :
    reachable localProfileId t m ->
    t <= now ->
    update now m = Some <$> m' ->
    reachable localProfileId now m'
| reach_sprite t m id r sheet :
    reachable localProfileId t m ->
    m !! id = Some r ->
    reachable localProfileId t (<[id := loadRemotePlayerSprite sheet r]> m).

(** Velocities erased from a buffer. *)
Definition zeroVelocity s : RemoteSnapshot.t :=
  RemoteSnapshot.mk (RemoteSnapshot.x s) (RemoteSnapshot.y s) 0 0
                    (RemoteSnapshot.direction s) (RemoteSnapshot.animation s)
                    (RemoteSnapshot.time s).

(** The direction of a computed target. *)
Definition interpDirOf (t : Interp) : option string :=
  match t with
  | Target _ _ d _ => Some d
  | _ => None
  end.

(** Successive frames: [update] called at the given values of
    [performance.now()], for one remote player. *)
Fixpoint updateFrames (nows : list Q) r : option Remote.t :=
  match nows with
  | [] => Some r
  | now :: rest =>
      match updateRemote (now - INTERP_DELAY_MS) r with
      | Some r' => updateFrames rest r'
      | None => None
      end
  end.

(** What the sprite of a remote player shows. *)
Definition facing r : option string :=
  AnimatedSprite.textures <$> Remote.sprite r.

End EntitySpec.

(** ** A remote player who turns twice in quick succession *)

Module Turning.

Import EntityLayer.

Definition sheet : Spritesheet :=
  <["row0" := 3%nat]> (<["row1" := 3%nat]> (<["row2" := 3%nat]>
    (<["row3" := 3%nat]> ∅))).

(** A row of the feed about the player. *)
Definition row (x y : Q) (dir : string) : PresenceData.t :=
  PresenceData.mk "p2" "Ann" "/assets/villager.json" x y 0 0 dir "walk" 0.

(** The local player's own row. *)
Definition me : PresenceData.t :=
  PresenceData.mk "me" "Bob" "/assets/villager.json" 10 10 0 0 "down" "idle" 0.

(** Three feeds 16 ms apart: the player faces down, then left, then up. *)
Definition fed : gmap string Remote.t :=
  updatePresence [me; row 62 62 "up"] "me" 1032
    (updatePresence [me; row 62 64 "left"] "me" 1016
       (updatePresence [me; row 64 64 "down"] "me" 1000 ∅)).

End Turning.

(** ** A remote player who glances up for one feed while walking left *)

Module Glance.

Import EntityLayer.

(** The player appears facing down. *)
Definition appeared : gmap string Remote.t :=
  updatePresence [Turning.me; Turning.row 64 64 "down"] "me" 1000 ∅.

(** Its sprite sheet finishes loading. *)
Definition loaded : gmap string Remote.t :=
  match appeared !! "p2"%string with
  | Some r => <["p2"%string := loadRemotePlayerSprite Turning.sheet r]> appeared
  | None => appeared
  end.

(** Three more feeds 16 ms apart: left, up, left again. *)
Definition fed : gmap string Remote.t :=
  updatePresence [Turning.me; Turning.row 58 64 "left"] "me" 1048
    (updatePresence [Turning.me; Turning.row 60 64 "up"] "me" 1032
       (updatePresence [Turning.me; Turning.row 62 64 "left"] "me" 1016
          loaded)).

(** Five frames 16 ms apart, rendered at 1004, 1020, 1036, 1052, 1068. *)
Definition frames : list Q := [1304; 1320; 1336; 1352; 1368].

End Glance.

(** ** Notions used in the statements about the editor and the resolver *)

Module EditorSpec.

(** A number with an integral value. *)
Definition isInteger (q : Q) : Prop := exists z : Z, q == inject_Z z.

(** Bounds as a map could be configured with: whole pixels, milliseconds
    and percent. *)
Definition bounds : MapEditorPanel.CombatConfig.t :=
  MapEditorPanel.CombatConfig.mk 16 256 100 5000 0 2000 0 100.

Definition someMap : MapEditorPanel.MapData.t :=
  MapEditorPanel.MapData.mk None true None.

End EditorSpec.

Module CombatSpec.

Import Combat.

(** A delivery that changed nothing and granted nothing. *)
Definition quiet (e : Store.t * Outcome.t * Store.t) : Prop :=
  Outcome.success e.1.2 = false
  /\ e.2 = e.1.1
  /\ Outcome.xpGained e.1.2 = None
  /\ Outcome.loot e.1.2 = None.

Definition succeeded (e : Store.t * Outcome.t * Store.t) : bool :=
  Outcome.success e.1.2.

(** The basic-attack scenario: combat enabled, range 64 px, hit cooldown
    of 400 ms, variance 20 percent; an NPC at (100, 100) with 30/30 HP. *)
Definition settings : Settings.t := Settings.mk true 64 350 400 20.
Definition tuning : Tuning.t := Tuning.mk 6 15000 10 true.
Definition npc : NpcState.t := NpcState.mk true 100 100 30 30 None None None.
Definition store : Store.t := Store.mk npc 0 0 0.

(** One request from (110, 100), delivered three times within 200 ms. *)
Definition deliveries : list Request.t :=
  [Request.mk 110 100 5000 (1 # 2);
   Request.mk 110 100 5080 (1 # 2);
   Request.mk 110 100 5200 (1 # 2)].

End CombatSpec.

(** ** Further notions about [PresenceManager] *)

Module PresenceHandles.

Import PresenceManager.

(** Every handle the browser holds was handed out before its next one. *)
Definition handlesBelow (b : Browser.t) : Prop :=
  (forall id c, (id, c) ∈ Browser.intervals b -> (id < Browser.nextId b)%nat)
  /\ (forall ev id, (ev, id) ∈ Browser.listeners b -> (id < Browser.nextId b)%nat)
  /\ (forall id, id ∈ Browser.subscriptions b -> (id < Browser.nextId b)%nat).

(** A manager that holds no timer and no unload handler: fresh, or stopped. *)
Definition idle (m : PresenceManager.t) : Prop :=
  presenceTimer m = None /\ saveTimer m = None /\ unloadHandler m = None.

(** The [presence.remove] calls among a list of effects. *)
Definition removalsOf (es : list Effect) : list string :=
  omap (fun e => match e with
                 | Mutate (presence_remove id) => Some id
                 | _ => None
                 end) es.

End PresenceHandles.

(** ** Layer management of the map editor (src/editor/MapEditorPanel.ts) *)

Module EditorLayers.

Inductive LayerType : Type :=
| bg
| obj
| overlay.

Definition typeName (t : LayerType) : string :=
  match t with
  | bg => "bg"
  | obj => "obj"
  | overlay => "overlay"
  end.

Definition typeEqb (a b : LayerType) : bool :=
  match a, b with
  | bg, bg | obj, obj | overlay, overlay => true
  | _, _ => false
  end.

(** An entry of [mapData.layers]. *)
Module Layer.
Record t : Type := mk {
  name : string;
  type : LayerType;
  tiles : list Z;
  visible : bool;
  tilesetUrl : option string
}.
End Layer.

(** What the layer operations read and write: [mapData.layers],
    [mapData.width], [mapData.height] and the editor's [activeLayer]. *)
Record t : Type := mk {
  layers : list Layer.t;
  width : Z;
  height : Z;
  activeLayer : Z
}.

(** [makeLayerName(type, layers)]: the type followed by the number of
    layers of that type. *)
Definition makeLayerName (type : LayerType) (ls : list Layer.t) : string :=
  (typeName type
   ++ pretty (length (List.filter (fun l => typeEqb (Layer.type l) type) ls)))%string.

(** The part of [syncTilesetToMapLayer] that concerns [activeLayer]: with
    at least one layer, an index out of range is clamped into range. *)
Definition syncActiveLayer (st : t) : t :=
  let len := Z.of_nat (length (layers st)) in
  if (len =? 0)%Z then st
  else if (activeLayer st <? 0)%Z || (len <=? activeLayer st)%Z then
    mk (layers st) (width st) (height st)
       (Z.max 0 (Z.min (activeLayer st) (len - 1)))
  else st.

(** [new Array(n).fill(-1)]; a negative length is a [RangeError]. *)
Definition filledArray (n : Z) : option (list Z) :=
  if (n <? 0)%Z then None else Some (replicate (Z.to_nat n) (-1)%Z).

(** [addLayer(type)] with map data present. [None] is the exception. *)
Definition addLayer (type : LayerType) (st : t) : option t :=
  let layerName := makeLayerName type (layers st) in
  match filledArray (width st * height st) with
  | None => None
  | Some tiles =>
      let ls := layers st ++ [Layer.mk layerName type tiles true None] in
      Some (syncActiveLayer
              (mk ls (width st) (height st) (Z.of_nat (length ls) - 1)))
  end.

(** [array.splice(start, 1)]: where the removal happens (a negative start
    counts from the end), the removed element if any, and what is left. *)
Definition spliceStart {A} (start : Z) (l : list A) : nat :=
  let len := Z.of_nat (length l) in
  Z.to_nat (if (start <? 0)%Z then Z.max (len + start) 0 else Z.min start len).

Definition spliceOne {A} (start : Z) (l : list A) : option A * list A :=
  (l !! spliceStart start l, delete (spliceStart start l) l).

(** [array.splice(start, 0, x)] for a start within [0, length]. *)
Definition spliceIn {A} (start : Z) (x : A) (l : list A) : list A :=
  take (spliceStart start l) l ++ x :: drop (spliceStart start l) l.

(** [removeActiveLayer()] with map data present. The status message reads
    [removed.name]: when nothing was removed that read throws ([None]). *)
Definition removeActiveLayer (st : t) : option t :=
  if (Z.of_nat (length (layers st)) <=? 1)%Z then Some st
  else
    let '(removed, ls) := spliceOne (activeLayer st) (layers st) in
    let st' :=
      syncActiveLayer
        (mk ls (width st) (height st)
            (Z.max 0 (Z.min (activeLayer st) (Z.of_nat (length ls) - 1)))) in
    match removed with
    | Some _ => Some st'
    | None => None
    end.

(** The argument of [moveActiveLayer]: [-1] or [1]. *)
Inductive Delta : Type :=
| towardsFront
| towardsBack.

Definition deltaZ (d : Delta) : Z :=
  match d with
  | towardsFront => (-1)%Z
  | towardsBack => 1%Z
  end.

(** [moveActiveLayer(delta)] with map data present. *)
Definition moveActiveLayer (d : Delta) (st : t) : option t :=
  let from := activeLayer st in
  let to := (from + deltaZ d)%Z in
  if (to <? 0)%Z || (Z.of_nat (length (layers st)) <=? to)%Z then Some st
  else
    let '(moved, ls) := spliceOne from (layers st) in
    match moved with
    | Some l =>
        Some (syncActiveLayer
                (mk (spliceIn to l ls) (width st) (height st) to))
    | None => None
    end.

(** The state the editor keeps between operations: at least one layer,
    and an active layer that exists. *)
Definition wellFormed (st : t) : Prop :=
  (0 <= activeLayer st < Z.of_nat (length (layers st)))%Z.

Definition opposite (d : Delta) : Delta :=
  match d with
  | towardsFront => towardsBack
  | towardsBack => towardsFront
  end.

(** A 2 by 2 map with a background and an object layer, the second one
    active. *)
Definition twoLayers : t :=
  mk
    [Layer.mk "bg0" bg [0; 1; 2; 3]%Z true None;
     Layer.mk "obj0" obj [-1; -1; 5; -1]%Z true None]
    2 2 1.

End EditorLayers.

(** ** What the map settings panel shows *)

Module MapSettingsUI.

Import MapEditorPanel.

(** The default values imported from src/config/combat-config.ts, which is
    not among the sources: they are parameters of the development. *)
Module CombatDefaults.
Record t : Type := mk {
  COMBAT_ATTACK_RANGE_PX : Q;
  COMBAT_PLAYER_ATTACK_COOLDOWN_MS : Q;
  COMBAT_NPC_HIT_COOLDOWN_MS : Q;
  COMBAT_DAMAGE_VARIANCE_PCT : Q
}.
End CombatDefaults.

Definition defaultOf (d : CombatDefaults.t) (s : Setting) : Q :=
  match s with
  | AttackRangePx => CombatDefaults.COMBAT_ATTACK_RANGE_PX d
  | PlayerAttackCooldownMs => CombatDefaults.COMBAT_PLAYER_ATTACK_COOLDOWN_MS d
  | NpcHitCooldownMs => CombatDefaults.COMBAT_NPC_HIT_COOLDOWN_MS d
  | DamageVariancePct => CombatDefaults.COMBAT_DAMAGE_VARIANCE_PCT d
  end.

(** The number [syncMapSettingsUI] writes into the input of a setting:
    [mapData.combatSettings?.<setting> ?? <default>]. *)
Definition shown (d : CombatDefaults.t) (s : Setting) (md : MapData.t) : Q :=
  match stored s (Some md) with
  | Some v => v
  | None => defaultOf d s
  end.

End MapSettingsUI.

(** ** Tile selection and painting of the map editor
       (src/editor/MapEditorPanel.ts) *)

Module TilePicker.

(** [interface TilesetInfo]. *)
Module Tileset.
Record t : Type := mk {
  name : string;
  url : string;
  tileWidth : Q;
  tileHeight : Q;
  imageWidth : Q;
  imageHeight : Q
}.
End Tileset.

Definition DISPLAY_TILE_SIZE : Q := 32.

(** [Math.floor(a / b)]. For [b = 0] JavaScript yields an infinity or NaN,
    which this model does not represent: divisors are non-zero in the
    statements. *)
Definition floorDiv (a b : Q) : Z := Qfloor (a / b).

(** [Math.floor(ts.imageWidth / ts.tileWidth)] and the same for rows. *)
Definition tsCols (ts : Tileset.t) : Z :=
  floorDiv (Tileset.imageWidth ts) (Tileset.tileWidth ts).
Definition tsRows (ts : Tileset.t) : Z :=
  floorDiv (Tileset.imageHeight ts) (Tileset.tileHeight ts).

(** [selectedRegion]. *)
Module Region.
Record t : Type := mk {
  col : Z;
  row : Z;
  w : Z;
  h : Z
}.
End Region.

(** The selection state of the editor. [irregularTiles] is a [Set] of keys
    [col,row]: a duplicate-free list of pairs in insertion order. *)
Record t : Type := mk {
  activeTileset : Tileset.t;
  selectedTile : Z;
  selectedRegion : Region.t;
  tsDragStart : option (Z * Z);
  irregularTiles : list (Z * Z);
  isIrregularSelection : bool
}.

Definition pairEqb (a b : Z * Z) : bool := (a.1 =? b.1)%Z && (a.2 =? b.2)%Z.

(** [set.has(key)], [set.add(key)], [set.delete(key)]. *)
Definition setHas (k : Z * Z) (s : list (Z * Z)) : bool := existsb (pairEqb k) s.
Definition setAdd (k : Z * Z) (s : list (Z * Z)) : list (Z * Z) :=
  if setHas k s then s else s ++ [k].
Definition setDelete (k : Z * Z) (s : list (Z * Z)) : list (Z * Z) :=
  List.filter (fun x => negb (pairEqb k x)) s.

(** [tileCanvasToGrid(e)], with [x = e.clientX - rect.left] and
    [y = e.clientY - rect.top]. *)
Definition tileCanvasToGrid (ts : Tileset.t) (x y : Q) : Z * Z :=
  (Z.max 0 (Z.min (tsCols ts - 1) (floorDiv x DISPLAY_TILE_SIZE)),
   Z.max 0 (Z.min (tsRows ts - 1) (floorDiv y DISPLAY_TILE_SIZE))).

(** [applyTileSelection(c1, r1, c2, r2)]. *)
Definition applyTileSelection (c1 r1 c2 r2 : Z) (st : t) : t :=
  let cols := tsCols (activeTileset st) in
  let minC := Z.min c1 c2 in
  let minR := Z.min r1 r2 in
  let maxC := Z.max c1 c2 in
  let maxR := Z.max r1 r2 in
  mk (activeTileset st)
     (minR * cols + minC)
     (Region.mk minC minR (maxC - minC + 1) (maxR - minR + 1))
     (tsDragStart st) (irregularTiles st) (isIrregularSelection st).

(** [onTileCanvasDown(e)]. *)
Definition onTileCanvasDown (x y : Q) (shiftKey : bool) (st : t) : t :=
  let cr := tileCanvasToGrid (activeTileset st) x y in
  if shiftKey then
    mk (activeTileset st) (selectedTile st) (selectedRegion st) (Some cr)
       (if setHas cr (irregularTiles st)
        then setDelete cr (irregularTiles st)
        else setAdd cr (irregularTiles st))
       true
  else
    applyTileSelection cr.1 cr.2 cr.1 cr.2
      (mk (activeTileset st) (selectedTile st) (selectedRegion st) (Some cr)
          [] false).

(** The two nested loops of [onTileCanvasMove]: every cell of the dragged
    rectangle is added, row by row. *)
Definition addRectangle (minC maxC minR maxR : Z) (s : list (Z * Z))
  : list (Z * Z) :=
  foldl (fun acc r =>
           foldl (fun acc' c => setAdd (c, r) acc') acc
                 (seqZ minC (maxC - minC + 1)))
        s (seqZ minR (maxR - minR + 1)).

(** [onTileCanvasMove(e)]. *)
Definition onTileCanvasMove (x y : Q) (shiftKey : bool) (st : t) : t :=
  match tsDragStart st with
  | None => st
  | Some start =>
      let cr := tileCanvasToGrid (activeTileset st) x y in
      if shiftKey && isIrregularSelection st then
        mk (activeTileset st) (selectedTile st) (selectedRegion st)
           (tsDragStart st)
           (addRectangle (Z.min start.1 cr.1) (Z.max start.1 cr.1)
                         (Z.min start.2 cr.2) (Z.max start.2 cr.2)
                         (irregularTiles st))
           (isIrregularSelection st)
      else if negb (isIrregularSelection st) then
        applyTileSelection start.1 start.2 cr.1 cr.2 st
      else st
  end.

(** [onTileCanvasUp()]. *)
Definition onTileCanvasUp (st : t) : t :=
  mk (activeTileset st) (selectedTile st) (selectedRegion st) None
     (irregularTiles st) (isIrregularSelection st).

(** [Math.min(...xs)] of a non-empty list (the caller excludes the empty
    one, for which JavaScript gives [Infinity]). *)
Definition minOf (xs : list Z) : Z :=
  match xs with
  | [] => 0%Z
  | x :: rest => foldl Z.min x rest
  end.

(** An entry [{ dx, dy, tileIdx }]. *)
Module Stamp.
Record t : Type := mk {
  dx : Z;
  dy : Z;
  tileIdx : Z
}.
End Stamp.

(** [getIrregularSelectionTiles()]. *)
Definition getIrregularSelectionTiles (st : t) : list Stamp.t :=
  match irregularTiles st with
  | [] => []
  | positions =>
      let cols := tsCols (activeTileset st) in
      let minCol := minOf (List.map fst positions) in
      let minRow := minOf (List.map snd positions) in
      List.map (fun p => Stamp.mk (p.1 - minCol) (p.2 - minRow)
                                  (p.2 * cols + p.1))
               positions
  end.

End TilePicker.

Module MapPaint.

Import TilePicker.

(** [type EditorTool]. *)
Inductive EditorTool : Type :=
| paint | erase | collision | collision_erase
| object | object_erase | npc | npc_erase | map
| portal | portal_erase | label | label_erase | item | item_erase.

(** The fields of the map data [paintTileAt] reads and writes. An entry of
    [collisionMask] that was never written is a hole ([None]). *)
Module MapData.
Record t : Type := mk {
  width : Z;
  height : Z;
  tileWidth : Q;
  tileHeight : Q;
  layerCount : nat;
  collisionMask : list (option bool)
}.
End MapData.

(** A call [game.mapRenderer.setTile(layer, x, y, tileIdx)]. *)
Module SetTile.
Record t : Type := mk {
  layer : Z;
  x : Z;
  y : Z;
  tileIdx : Z
}.
End SetTile.

(** [array[idx] = v] for a non-negative index: beyond the end the array is
    extended, leaving holes. *)
Definition assign {A} (idx : nat) (v : A) (l : list (option A)) : list (option A) :=
  if (idx <? length l)%nat then <[idx := Some v]> l
  else l ++ replicate (idx - length l) None ++ [Some v].

Definition inMap (md : MapData.t) (mx my : Z) : bool :=
  (0 <=? mx)%Z && (0 <=? my)%Z && (mx <? MapData.width md)%Z
  && (my <? MapData.height md)%Z.

(** The stamp of the rectangular region: the loops over [dy] and [dx]. *)
Definition stampRegion (md : MapData.t) (activeLayer tileX tileY tsCols : Z)
    (r : Region.t) : list SetTile.t :=
  dy ← seqZ 0 (Region.h r);
  dx ← seqZ 0 (Region.w r);
  if inMap md (tileX + dx) (tileY + dy)
  then [SetTile.mk activeLayer (tileX + dx) (tileY + dy)
                   ((Region.row r + dy) * tsCols + (Region.col r + dx))]
  else [].

(** The stamp of the irregular selection. *)
Definition stampIrregular (md : MapData.t) (activeLayer tileX tileY : Z)
    (tiles : list Stamp.t) : list SetTile.t :=
  t ← tiles;
  if inMap md (tileX + Stamp.dx t) (tileY + Stamp.dy t)
  then [SetTile.mk activeLayer (tileX + Stamp.dx t) (tileY + Stamp.dy t)
                   (Stamp.tileIdx t)]
  else [].

(** [paintTileAt(worldX, worldY, game)] with map data present: the new
    collision mask and the [setTile] calls, in order. *)
Definition paintTileAt (tool : EditorTool) (activeLayer : Z) (sel : TilePicker.t)
    (md : MapData.t) (worldX worldY : Q)
  : list (option bool) * list SetTile.t :=
  let unchanged := (MapData.collisionMask md, []) in
  if (activeLayer <? 0)%Z || (Z.of_nat (MapData.layerCount md) <=? activeLayer)%Z
  then unchanged
  else
    let tileX := floorDiv worldX (MapData.tileWidth md) in
    let tileY := floorDiv worldY (MapData.tileHeight md) in
    if (tileX <? 0)%Z || (tileY <? 0)%Z || (MapData.width md <=? tileX)%Z
       || (MapData.height md <=? tileY)%Z
    then unchanged
    else
      match tool with
      | paint =>
          if isIrregularSelection sel
             && (0 <? length (irregularTiles sel))%nat
          then (MapData.collisionMask md,
                stampIrregular md activeLayer tileX tileY
                               (getIrregularSelectionTiles sel))
          else (MapData.collisionMask md,
                stampRegion md activeLayer tileX tileY
                            (tsCols (activeTileset sel)) (selectedRegion sel))
      | erase =>
          (MapData.collisionMask md,
           [SetTile.mk activeLayer tileX tileY (-1)])
      | collision =>
          (assign (Z.to_nat (tileY * MapData.width md + tileX)) true
                  (MapData.collisionMask md), [])
      | collision_erase =>
          (assign (Z.to_nat (tileY * MapData.width md + tileX)) false
                  (MapData.collisionMask md), [])
      | _ => unchanged
      end.

End MapPaint.

(** The tileset picker as a machine: mouse events on the tileset canvas,
    starting from the editor's field initialisers. *)
Module TileSpec.

Import TilePicker.

(** The field initialisers of [MapEditorPanel] for the picker. *)
Definition initial (ts : Tileset.t) : t :=
  mk ts 0 (Region.mk 0 0 1 1) None [] false.

Inductive Event : Type :=
| Down (x y : Q) (shiftKey : bool)
| Move (x y : Q) (shiftKey : bool)
| Up.

Definition handle (e : Event) (st : t) : t :=
  match e with
  | Down x y s => onTileCanvasDown x y s st
  | Move x y s => onTileCanvasMove x y s st
  | Up => onTileCanvasUp st
  end.

Definition run (es : list Event) (st : t) : t :=
  foldl (fun s e => handle e s) st es.

(** The tileset image holds at least one tile. *)
Definition nonEmpty (ts : Tileset.t) : Prop :=
  (1 <= tsCols ts)%Z /\ (1 <= tsRows ts)%Z.

Definition inGrid (ts : Tileset.t) (p : Z * Z) : Prop :=
  (0 <= p.1 < tsCols ts)%Z /\ (0 <= p.2 < tsRows ts)%Z.

Definition regionInGrid (ts : Tileset.t) (r : Region.t) : Prop :=
  (0 <= Region.col r)%Z /\ (1 <= Region.w r)%Z
  /\ (Region.col r + Region.w r <= tsCols ts)%Z
  /\ (0 <= Region.row r)%Z /\ (1 <= Region.h r)%Z
  /\ (Region.row r + Region.h r <= tsRows ts)%Z.

Definition covers (r : Region.t) (p : Z * Z) : Prop :=
  (Region.col r <= p.1 < Region.col r + Region.w r)%Z
  /\ (Region.row r <= p.2 < Region.row r + Region.h r)%Z.

(** An index of a tile of the tileset image, row by row. *)
Definition validTile (ts : Tileset.t) (i : Z) : Prop :=
  (0 <= i < tsCols ts * tsRows ts)%Z.

Definition dragInGrid (ts : Tileset.t) (d : option (Z * Z)) : Prop :=
  match d with
  | None => True
  | Some p => inGrid ts p
  end.

Record sound (st : t) : Prop := mkSound {
  sound_region : regionInGrid (activeTileset st) (selectedRegion st);
  sound_tile : selectedTile st
               = (Region.row (selectedRegion st) * tsCols (activeTileset st)
                  + Region.col (selectedRegion st))%Z;
  sound_drag : dragInGrid (activeTileset st) (tsDragStart st);
  sound_cells : Forall (inGrid (activeTileset st)) (irregularTiles st);
  sound_nodup : NoDup (irregularTiles st)
}.

(** The map cell a [setTile] call writes. *)
Definition target (c : MapPaint.SetTile.t) : Z * Z :=
  (MapPaint.SetTile.x c, MapPaint.SetTile.y c).

End TileSpec.

(** A tileset image of eight by four tiles and a small map, for the
    instances below. *)
Module TileSample.

Definition sheet : TilePicker.Tileset.t :=
  TilePicker.Tileset.mk "sheet" "/assets/sheet.png" 16 16 128 64.

Definition board : MapPaint.MapData.t :=
  MapPaint.MapData.mk 4 3 16 16 2 [].

(** A press at the third cell of the second row and a drag to the first
    cell of the first row. *)
Definition dragged : list TileSpec.Event :=
  [TileSpec.Down 70 40 false; TileSpec.Move 5 5 false; TileSpec.Up].

(** Three shift-clicks on three cells. *)
Definition picked : list TileSpec.Event :=
  [TileSpec.Down 70 40 true; TileSpec.Up; TileSpec.Down 5 5 true;
   TileSpec.Up; TileSpec.Down 100 100 true; TileSpec.Up].

End TileSample.

(** ** Placed objects of the map editor (src/editor/MapEditorPanel.ts) *)

Module EditorObjects.

(** [Math.abs] on a finite number. *)
Definition abs (a : Q) : Q := if Qle_bool 0 a then a else - a.

(** [a <= b] on numbers. *)
Definition leb (a b : Q) : bool := Qle_bool a b.

(** [interface PlacedObject], without the optional fields the erase tool
    does not read. *)
Module PlacedObject.
Record t : Type := mk {
  id : string;
  spriteDefName : string;
  x : Q;
  y : Q;
  layer : Z
}.
End PlacedObject.

(** [interface SpriteDef]: the fields read by the erase tool. *)
Module SpriteDef.
Record t : Type := mk {
  name : string;
  category : string;
  frameWidth : Q;
  frameHeight : Q;
  scale : Q
}.
End SpriteDef.

(** [new Map(this.spriteDefs.map(d => [d.name, d]))]: of two definitions
    with one name the later one is kept. *)
Definition defByName (defs : list SpriteDef.t) : gmap string SpriteDef.t :=
  foldl (fun m d => <[SpriteDef.name d := d]> m) ∅ defs.

Section AtClick.

Variable defs : list SpriteDef.t.
Variables worldX worldY : Q.

(** The closure [hitTest]. *)
Definition hitTest (objX objY : Q) (spriteDefName : string) : bool :=
  let def := defByName defs !! spriteDefName in
  let hitAbove := match def with
                  | Some d => SpriteDef.frameHeight d * SpriteDef.scale d
                  | None => 384
                  end in
  let hitSide := match def with
                 | Some d => (SpriteDef.frameWidth d * SpriteDef.scale d) / 2
                 | None => 192
                 end in
  let hitBelow := 16 in
  let dx := abs (objX - worldX) in
  let dy := objY - worldY in
  leb dx hitSide && Num.geb dy (- hitBelow) && leb dy hitAbove.

(** The closure [hitScore]. *)
Definition hitScore (objX objY : Q) : Q :=
  abs (objX - worldX) + abs (objY - worldY).

(** The closure [isNpcDef]. *)
Definition isNpcDef (spriteDefName : string) : bool :=
  match defByName defs !! spriteDefName with
  | Some d => String.eqb (SpriteDef.category d) "npc"
  | None => false
  end.

(** ["object" | "npc"]. *)
Inductive Mode : Type := ObjectMode | NpcMode.

Definition modeOf (tool : MapPaint.EditorTool) : Mode :=
  match tool with
  | MapPaint.npc_erase => NpcMode
  | _ => ObjectMode
  end.

(** The three [continue] tests of the loop. *)
Definition skipped (mode : Mode) (obj : PlacedObject.t) : bool :=
  let isNpc := isNpcDef (PlacedObject.spriteDefName obj) in
  match mode with
  | ObjectMode => isNpc
  | NpcMode => negb isNpc
  end
  || negb (hitTest (PlacedObject.x obj) (PlacedObject.y obj)
                   (PlacedObject.spriteDefName obj)).

(** [s < bestScore], where [bestScore] starts as [Infinity] ([None]). *)
Definition below (s : Q) (bestScore : option Q) : bool :=
  match bestScore with
  | None => true
  | Some b => Num.ltb s b
  end.

(** The loop over [placedObjects] from index [i] on; [bestIdx = -1] is
    [None]. *)
Fixpoint scan (mode : Mode) (i : nat) (objs : list PlacedObject.t)
    (bestIdx : option nat) (bestScore : option Q) : option nat :=
  match objs with
  | [] => bestIdx
  | obj :: rest =>
      if skipped mode obj then scan mode (S i) rest bestIdx bestScore
      else
        let s := hitScore (PlacedObject.x obj) (PlacedObject.y obj) in
        if below s bestScore
        then scan mode (S i) rest (Some i) (Some s)
        else scan mode (S i) rest bestIdx bestScore
  end.

(** [removeObjectAt(worldX, worldY)]: the new [placedObjects] and the
    removed object, whose id is passed on to
    [objectLayer.removePlacedObject]. The removal of the nearest runtime NPC
    in npc mode acts on the entity layer and is not part of this model. *)
Definition removeObjectAt (tool : MapPaint.EditorTool)
    (placedObjects : list PlacedObject.t)
  : list PlacedObject.t * option PlacedObject.t :=
  match scan (modeOf tool) 0 placedObjects None None with
  | None => (placedObjects, None)
  | Some bestIdx => (delete bestIdx placedObjects, placedObjects !! bestIdx)
  end.

(** An object the erase tool may remove at this click. *)
Definition candidate (tool : MapPaint.EditorTool) (obj : PlacedObject.t) : bool :=
  negb (skipped (modeOf tool) obj).

Definition scoreOf (obj : PlacedObject.t) : Q :=
  hitScore (PlacedObject.x obj) (PlacedObject.y obj).

(** What the loop knows after the objects [l]: [best] is the first
    candidate of least score among them. *)
Definition scanned (tool : MapPaint.EditorTool) (l : list PlacedObject.t)
    (best : option nat) (bestScore : option Q) : Prop :=
  match best with
  | None => bestScore = None /\ Forall (fun o => candidate tool o = false) l
  | Some b =>
      exists o, l !! b = Some o /\ bestScore = Some (scoreOf o)
        /\ candidate tool o = true
        /\ forall j o', l !! j = Some o' -> candidate tool o' = true ->
             scoreOf o <= scoreOf o'
             /\ ((j < b)%nat -> scoreOf o < scoreOf o')
  end.

End AtClick.

(** [placeObject(worldX, worldY)] with a selected sprite definition; [id]
    is the result of [crypto.randomUUID()]. *)
Definition placeObject (id : string) (selectedSpriteDef : option SpriteDef.t)
    (activeLayer : Z) (worldX worldY : Q) (placedObjects : list PlacedObject.t)
  : list PlacedObject.t :=
  match selectedSpriteDef with
  | None => placedObjects
  | Some d =>
      placedObjects
      ++ [PlacedObject.mk id (SpriteDef.name d) (MapEditorPanel.round worldX)
                          (MapEditorPanel.round worldY) activeLayer]
  end.

End EditorObjects.

Module ObjectSample.

Import EditorObjects.

Definition defs : list SpriteDef.t :=
  [SpriteDef.mk "barrel" "prop" 16 16 2;
   SpriteDef.mk "guard" "npc" 16 32 1].

Definition placed : list PlacedObject.t :=
  [PlacedObject.mk "a" "barrel" 100 100 2;
   PlacedObject.mk "b" "guard" 104 100 2;
   PlacedObject.mk "c" "barrel" 96 104 2;
   PlacedObject.mk "d" "barrel" 104 96 2].

End ObjectSample.

(** ** Labels and portals of the map editor (src/editor/MapEditorPanel.ts) *)

Module Zones.

(** An entry of [mapData.labels]; [width] and [height] may be absent in
    stored maps. *)
Module Label.
Record t : Type := mk {
  name : string;
  x : Z;
  y : Z;
  width : option Z;
  height : option Z
}.
End Label.

(** An entry of [mapData.portals]. *)
Module Portal.
Record t : Type := mk {
  name : string;
  x : Z;
  y : Z;
  width : Z;
  height : Z;
  targetMap : string;
  targetSpawn : string;
  direction : option string;
  transition : string
}.
End Portal.

(** [portalDraft]. *)
Module PortalDraft.
Record t : Type := mk {
  name : string;
  targetMap : string;
  targetSpawn : string;
  direction : string;
  transition : string
}.
End PortalDraft.

(** The fields of the map data the label and portal tools use. *)
Module MapData.
Record t : Type := mk {
  tileWidth : Q;
  tileHeight : Q;
  labels : option (list Label.t);
  portals : option (list Portal.t)
}.
Definition withLabels (ls : list Label.t) (m : t) : t :=
  mk (tileWidth m) (tileHeight m) (Some ls) (portals m).
Definition withPortals (ps : list Portal.t) (m : t) : t :=
  mk (tileWidth m) (tileHeight m) (labels m) (Some ps).
End MapData.

(** The editor fields of the two tools. *)
Record t : Type := mk {
  portalDraft : PortalDraft.t;
  portalPlacing : bool;
  portalStart : option (Z * Z);
  labelDraftName : string;
  labelStart : option (Z * Z)
}.

(** A string used as a condition: the empty string is falsy. *)
Definition truthy (s : string) : bool := negb (String.eqb s "").

(** [array.findIndex(pred)]; [-1] is [None]. *)
Fixpoint findIndex {A} (pred : A -> bool) (l : list A) : option nat :=
  match l with
  | [] => None
  | a :: rest => if pred a then Some 0%nat else S <$> findIndex pred rest
  end.

(** [handleLabelClick(tileX, tileY)]; [md] is
    [this.game?.mapRenderer.getMapData()]. *)
Definition handleLabelClick (tileX tileY : Z) (st : t) (md : option MapData.t)
  : t * option MapData.t :=
  if negb (truthy (labelDraftName st)) then (st, md)
  else
    match labelStart st with
    | None =>
        (mk (portalDraft st) (portalPlacing st) (portalStart st)
            (labelDraftName st) (Some (tileX, tileY)), md)
    | Some start =>
        let x := Z.min start.1 tileX in
        let y := Z.min start.2 tileY in
        let w := (Z.abs (tileX - start.1) + 1)%Z in
        let h := (Z.abs (tileY - start.2) + 1)%Z in
        let newLabel := Label.mk (labelDraftName st) x y (Some w) (Some h) in
        let md' :=
          match md with
          | None => None
          | Some m =>
              let ls := default [] (MapData.labels m) in
              Some (MapData.withLabels
                      (match findIndex
                               (fun l => String.eqb (Label.name l)
                                                    (labelDraftName st)) ls with
                       | Some existingIdx => <[existingIdx := newLabel]> ls
                       | None => ls ++ [newLabel]
                       end) m)
          end in
        (mk (portalDraft st) (portalPlacing st) (portalStart st)
            (labelDraftName st) None, md')
    end.

(** The test of [removeLabelAt]'s [findIndex]. *)
Definition labelContains (tileX tileY : Z) (l : Label.t) : bool :=
  let lw := default 1%Z (Label.width l) in
  let lh := default 1%Z (Label.height l) in
  (Label.x l <=? tileX)%Z && (tileX <? Label.x l + lw)%Z
  && (Label.y l <=? tileY)%Z && (tileY <? Label.y l + lh)%Z.

(** [removeLabelAt(worldX, worldY)]. *)
Definition removeLabelAt (worldX worldY : Q) (md : option MapData.t)
  : option MapData.t :=
  match md with
  | None => None
  | Some m =>
      match MapData.labels m with
      | None => md
      | Some ls =>
          let tileX := TilePicker.floorDiv worldX (MapData.tileWidth m) in
          let tileY := TilePicker.floorDiv worldY (MapData.tileHeight m) in
          match findIndex (labelContains tileX tileY) ls with
          | None => md
          | Some idx => Some (MapData.withLabels (delete idx ls) m)
          end
      end
  end.

(** [handlePortalClick(tileX, tileY)]. *)
Definition handlePortalClick (tileX tileY : Z) (st : t) (md : option MapData.t)
  : t * option MapData.t :=
  let d := portalDraft st in
  if negb (truthy (PortalDraft.name d)) || negb (truthy (PortalDraft.targetMap d))
  then (st, md)
  else
    match portalStart st with
    | None =>
        (mk d true (Some (tileX, tileY)) (labelDraftName st) (labelStart st), md)
    | Some start =>
        let x := Z.min start.1 tileX in
        let y := Z.min start.2 tileY in
        let w := (Z.abs (tileX - start.1) + 1)%Z in
        let h := (Z.abs (tileY - start.2) + 1)%Z in
        let portal :=
          Portal.mk (PortalDraft.name d) x y w h (PortalDraft.targetMap d)
                    (PortalDraft.targetSpawn d)
                    (if truthy (PortalDraft.direction d)
                     then Some (PortalDraft.direction d) else None)
                    (if truthy (PortalDraft.transition d)
                     then PortalDraft.transition d else "fade") in
        let md' :=
          match md with
          | None => None
          | Some m =>
              Some (MapData.withPortals
                      (default [] (MapData.portals m) ++ [portal]) m)
          end in
        (mk d false None (labelDraftName st) (labelStart st), md')
    end.

(** The test of [removePortalAt]'s [findIndex]: the click position in
    fractional tiles against the zone. *)
Definition portalContains (tileX tileY : Q) (p : Portal.t) : bool :=
  Num.geb tileX (inject_Z (Portal.x p))
  && Num.ltb tileX (inject_Z (Portal.x p) + inject_Z (Portal.width p))
  && Num.geb tileY (inject_Z (Portal.y p))
  && Num.ltb tileY (inject_Z (Portal.y p) + inject_Z (Portal.height p)).

(** [removePortalAt(worldX, worldY)]. *)
Definition removePortalAt (worldX worldY : Q) (md : option MapData.t)
  : option MapData.t :=
  match md with
  | None => None
  | Some m =>
      match MapData.portals m with
      | None => md
      | Some ps =>
          let tileX := worldX / MapData.tileWidth m in
          let tileY := worldY / MapData.tileHeight m in
          match findIndex (portalContains tileX tileY) ps with
          | Some idx => Some (MapData.withPortals (delete idx ps) m)
          | None => md
          end
      end
  end.

(** The label and portal branches of [handleCanvasAction]: the click is
    turned into a tile only when map data is present. *)
Definition clickLabel (worldX worldY : Q) (st : t) (md : option MapData.t)
  : t * option MapData.t :=
  match md with
  | None => (st, md)
  | Some m =>
      handleLabelClick (TilePicker.floorDiv worldX (MapData.tileWidth m))
                       (TilePicker.floorDiv worldY (MapData.tileHeight m))
                       st md
  end.

Definition clickPortal (worldX worldY : Q) (st : t) (md : option MapData.t)
  : t * option MapData.t :=
  match md with
  | None => (st, md)
  | Some m =>
      handlePortalClick (TilePicker.floorDiv worldX (MapData.tileWidth m))
                        (TilePicker.floorDiv worldY (MapData.tileHeight m))
                        st md
  end.

(** The names of the labels of a map. *)
Definition labelNames (md : option MapData.t) : list string :=
  match md with
  | Some m => Label.name <$> default [] (MapData.labels m)
  | None => []
  end.

Definition labelsOf (md : option MapData.t) : list Label.t :=
  match md with
  | Some m => default [] (MapData.labels m)
  | None => []
  end.

Definition portalsOf (md : option MapData.t) : list Portal.t :=
  match md with
  | Some m => default [] (MapData.portals m)
  | None => []
  end.

(** The tiles of a zone with both extents present. *)
Definition zoneCovers (x y w h : Z) (t : Z * Z) : Prop :=
  (x <= t.1 < x + w)%Z /\ (y <= t.2 < y + h)%Z.

End Zones.

Module ZoneSample.

Import Zones.

Definition editor : Zones.t :=
  Zones.mk (PortalDraft.mk "door-1" "cave" "start1" "" "") false None
           "spawn" None.

Definition level : MapData.t :=
  MapData.mk 16 16
    (Some [Label.mk "start1" 2 2 None None;
           Label.mk "shop" 5 5 (Some 2%Z) (Some 2%Z)])
    None.

End ZoneSample.

(** ** Doors of the object layer (src/engine/ObjectLayer.ts) *)

Module Doors.

(** [ObjectLayer.DOOR_COLLISION_INSET]. *)
Definition DOOR_COLLISION_INSET : Q := 2 # 10.

(** The inset sprite bounds of [computeDoorCollisionTiles]; the anchor of
    the sprite is bottom-centre. *)
Module Box.
Record t : Type := mk {
  left : Q;
  right : Q;
  top : Q;
  bottom : Q
}.
End Box.

Definition doorBox (worldX worldY frameWidth frameHeight scale : Q) : Box.t :=
  let inset := DOOR_COLLISION_INSET in
  let spriteW := frameWidth * scale in
  let spriteH := frameHeight * scale in
  Box.mk (worldX - spriteW / 2 + spriteW * inset)
         (worldX + spriteW / 2 - spriteW * inset)
         (worldY - spriteH + spriteH * inset)
         (worldY - spriteH * inset).

(** [computeDoorCollisionTiles(worldX, worldY, frameWidth, frameHeight,
    scale)] of a layer with the given tile size. *)
Definition computeDoorCollisionTiles (tileWidth tileHeight : Q)
    (worldX worldY frameWidth frameHeight scale : Q) : list (Z * Z) :=
  let tw := tileWidth in
  let th := tileHeight in
  if Qle_bool tw 0 || Qle_bool th 0 then []
  else
    let b := doorBox worldX worldY frameWidth frameHeight scale in
    let tx1 := TilePicker.floorDiv (Box.left b) tw in
    let tx2 := TilePicker.floorDiv (Box.right b - 1) tw in
    let ty1 := TilePicker.floorDiv (Box.top b) th in
    let ty2 := TilePicker.floorDiv (Box.bottom b - 1) th in
    ty ← seqZ ty1 (ty2 - ty1 + 1);
    tx ← seqZ tx1 (tx2 - tx1 + 1);
    [(tx, ty)].

(** [type DoorState]. *)
Inductive DoorState : Type := closed | opening | open | closing.

(** What [sprite.onComplete] will do when the running animation ends. *)
Inductive Completion : Type := ToOpen | ToClosed.

(** The door fields of a [RenderedObject]. Of the sprite only the
    completion handler is kept; frame lists are represented by their
    lengths. *)
Record t : Type := mk {
  doorState : DoorState;
  isOn : bool;
  doorCollisionTiles : option (list (Z * Z));
  doorOpeningFrames : option nat;
  doorClosingFrames : option nat;
  onComplete : option Completion;
  prompt : option string;
  doorOpenSoundUrl : option string;
  doorCloseSoundUrl : option string
}.

Inductive Effect : Type :=
| CollisionChange (tiles : list (Z * Z)) (blocked : bool)
| PlayOneShot (url : string) (volume : Q).

(** [frames && frames.length > 0]. *)
Definition hasFrames (frames : option nat) : bool :=
  match frames with
  | Some n => (0 <? n)%nat
  | None => false
  end.

(** [r.doorCollisionTiles && r.doorCollisionTiles.length > 0]. *)
Definition hasTiles (r : t) : bool :=
  match doorCollisionTiles r with
  | Some (_ :: _) => true
  | _ => false
  end.

Section Layer.

(** Whether [this.audio] and [this.onDoorCollisionChange] are set. *)
Variable audio : bool.
Variable hooked : bool.

(** [this.onDoorCollisionChange?.(r.doorCollisionTiles, blocked)] under the
    guard on the tiles. *)
Definition collisionChange (r : t) (blocked : bool) : list Effect :=
  if hasTiles r && hooked
  then [CollisionChange (default [] (doorCollisionTiles r)) blocked]
  else [].

(** [if (url && this.audio) this.audio.playOneShot(url, 0.7)]. *)
Definition oneShot (url : option string) : list Effect :=
  match url with
  | Some u => if negb (String.eqb u "") && audio then [PlayOneShot u (7 # 10)] else []
  | None => []
  end.

(** [setDoorOpen(r)]. *)
Definition setDoorOpen (r : t) : t * list Effect :=
  (mk open true (doorCollisionTiles r) (doorOpeningFrames r)
      (doorClosingFrames r) (onComplete r) (prompt r) (doorOpenSoundUrl r)
      (doorCloseSoundUrl r), []).

(** [setDoorClosed(r)]. *)
Definition setDoorClosed (r : t) : t * list Effect :=
  let r' := mk closed false (doorCollisionTiles r) (doorOpeningFrames r)
               (doorClosingFrames r) (onComplete r) (prompt r)
               (doorOpenSoundUrl r) (doorCloseSoundUrl r) in
  (r', collisionChange r' true).

Definition withState (s : DoorState) (r : t) : t :=
  mk s (isOn r) (doorCollisionTiles r) (doorOpeningFrames r)
     (doorClosingFrames r) (onComplete r) (prompt r) (doorOpenSoundUrl r)
     (doorCloseSoundUrl r).

Definition withOnComplete (c : option Completion) (r : t) : t :=
  mk (doorState r) (isOn r) (doorCollisionTiles r) (doorOpeningFrames r)
     (doorClosingFrames r) c (prompt r) (doorOpenSoundUrl r)
     (doorCloseSoundUrl r).

(** [if (r.prompt) r.prompt.text = text]. *)
Definition withPromptText (text : string) (r : t) : t :=
  mk (doorState r) (isOn r) (doorCollisionTiles r) (doorOpeningFrames r)
     (doorClosingFrames r) (onComplete r)
     (match prompt r with Some _ => Some text | None => None end)
     (doorOpenSoundUrl r) (doorCloseSoundUrl r).

(** [applyDoorTransition(r, targetOpen)]. *)
Definition applyDoorTransition (r : t) (targetOpen : bool) : t * list Effect :=
  match doorState r with
  | opening | closing => (r, [])
  | _ =>
      if targetOpen then
        let r1 := withState opening r in
        let e1 := oneShot (doorOpenSoundUrl r1) ++ collisionChange r1 false in
        let '(r2, e2) :=
          if hasFrames (doorOpeningFrames r1)
          then (withOnComplete (Some ToOpen) r1, [])
          else setDoorOpen r1 in
        (withPromptText "[E] Close" r2, e1 ++ e2)
      else
        let r1 := withState closing r in
        let e1 := oneShot (doorCloseSoundUrl r1) in
        let '(r2, e2) :=
          if hasFrames (doorClosingFrames r1)
          then (withOnComplete (Some ToClosed) r1, [])
          else setDoorClosed r1 in
        (withPromptText "[E] Open" r2, e1 ++ e2)
  end.

(** The running animation ends: [sprite.onComplete], if set, clears itself
    and settles the door. *)
Definition animationComplete (r : t) : t * list Effect :=
  match onComplete r with
  | Some ToOpen => setDoorOpen (withOnComplete None r)
  | Some ToClosed => setDoorClosed (withOnComplete None r)
  | None => (r, [])
  end.

(** The door part of [addPlacedObject]: the entry of a door whose closed
    animation exists, and the initial collision call. [isOn] is
    [obj.isOn ?? false]. *)
Definition addDoor (isOn : bool) (tiles : list (Z * Z))
    (openingFrames closingFrames : option nat)
    (openSound closeSound : option string) : t * list Effect :=
  let doorState := if isOn then open else closed in
  let entry := mk doorState isOn (Some tiles) openingFrames closingFrames None
                  (Some (if isOn then "[E] Close" else "[E] Open")%string)
                  openSound closeSound in
  (entry,
   match doorState with
   | closed => collisionChange entry true
   | open => collisionChange entry false
   | _ => []
   end).

End Layer.

(** What happens to a door after it was added. *)
Inductive Event : Type :=
| Toggle (targetOpen : bool)
| AnimationComplete.

Definition step (audio hooked : bool) (e : Event) (r : t) : t * list Effect :=
  match e with
  | Toggle targetOpen => applyDoorTransition audio hooked r targetOpen
  | AnimationComplete => animationComplete hooked r
  end.

Fixpoint run (audio hooked : bool) (es : list Event) (st : t * list Effect)
  : t * list Effect :=
  match es with
  | [] => st
  | e :: rest =>
      let '(r', out) := step audio hooked e st.1 in
      run audio hooked rest (r', st.2 ++ out)
  end.

(** The last collision call of a trace. *)
Fixpoint lastChange (es : list Effect) : option (list (Z * Z) * bool) :=
  match es with
  | [] => None
  | CollisionChange tiles blocked :: rest =>
      match lastChange rest with
      | Some c => Some c
      | None => Some (tiles, blocked)
      end
  | _ :: rest => lastChange rest
  end.

(** The state a door shows and the collision it should have. *)
Definition consistent (tiles : list (Z * Z)) (st : t * list Effect) : Prop :=
  let r := st.1 in
  doorCollisionTiles r = Some tiles
  /\ match doorState r with
     | closed =>
         lastChange st.2 = Some (tiles, true) /\ isOn r = false
         /\ onComplete r = None /\ prompt r = Some "[E] Open"%string
     | opening =>
         lastChange st.2 = Some (tiles, false)
         /\ onComplete r = Some ToOpen /\ prompt r = Some "[E] Close"%string
     | open =>
         lastChange st.2 = Some (tiles, false) /\ isOn r = true
         /\ onComplete r = None /\ prompt r = Some "[E] Close"%string
     | closing =>
         onComplete r = Some ToClosed /\ prompt r = Some "[E] Open"%string
         /\ exists b, lastChange st.2 = Some (tiles, b)
     end.

End Doors.

(** ** Movement of the local player (src/engine/ObjectLayer.ts) *)

Module Player.

Definition MOVE_SPEED : Q := 120.
Definition SPRINT_MULTIPLIER : Q := 3 # 2.

Definition COL_HALF_W : Q := 6.
Definition COL_TOP : Q := - 12.
Definition COL_BOT : Q := 0.

(** The fields of [EntityLayer] for the local player. *)
Record t : Type := mk {
  playerX : Q;
  playerY : Q;
  playerDirection : string;
  isMoving : bool;
  playerVX : Q;
  playerVY : Q;
  playerSprite : option AnimatedSprite.t;
  spritesheet : option Spritesheet
}.

Section World.

(** [Math.sqrt], and the map renderer's [worldToTile] and [isCollision],
    which are not among the sources. *)
Variable sqrt : Q -> Q.
Variable worldToTile : Q -> Q -> Z * Z.
Variable isCollision : Z -> Z -> bool.

(** [isBlocked(px, py)]: the four corners of the box around the feet. *)
Definition isBlocked (px py : Q) : bool :=
  let left := px - COL_HALF_W in
  let right := px + COL_HALF_W in
  let top := py + COL_TOP in
  let bot := py + COL_BOT in
  let tl := worldToTile left top in
  let tr := worldToTile right top in
  let bl := worldToTile left bot in
  let br := worldToTile right bot in
  isCollision tl.1 tl.2 || isCollision tr.1 tr.2
  || isCollision bl.1 bl.2 || isCollision br.1 br.2.

(** [setDirection(dir)]. *)
Definition setDirection (dir : string) (st : t) : t :=
  if String.eqb (playerDirection st) dir && isMoving st then st
  else
    let sprite :=
      match playerSprite st, spritesheet st with
      | Some sp, Some sheet =>
          let animKey := EntityLayer.DIR_ANIM dir in
          match sheet !! animKey with
          | Some frames =>
              if (0 <? frames)%nat
              then Some (AnimatedSprite.play
                           (AnimatedSprite.mk animKey (AnimatedSprite.playing sp)))
              else playerSprite st
          | None => playerSprite st
          end
      | _, _ => playerSprite st
      end in
    mk (playerX st) (playerY st) dir (isMoving st) (playerVX st) (playerVY st)
       sprite (spritesheet st).

(** [input.isDown]. *)
Variable isDown : string -> bool.

(** The key axis: [-1], [0] or [1]. *)
Definition axis (negKey negAlt posKey posAlt : string) : Q :=
  (if isDown negKey || isDown negAlt then - 1 else 0)
  + (if isDown posKey || isDown posAlt then 1 else 0).

Definition nonzero (q : Q) : bool := negb (Qeq_bool q 0).

(** [updatePlayerMovement(dt, input)]. *)
Definition updatePlayerMovement (dt : Q) (st : t) : t :=
  let dx := axis "ArrowLeft" "a" "ArrowRight" "d" in
  let dy := axis "ArrowUp" "w" "ArrowDown" "s" in
  let wasMoving := isMoving st in
  let moving := nonzero dx || nonzero dy in
  let st1 := mk (playerX st) (playerY st) (playerDirection st) moving
                (playerVX st) (playerVY st) (playerSprite st) (spritesheet st) in
  let st2 :=
    if Num.ltb dy 0 then setDirection "up" st1
    else if Num.gtb dy 0 then setDirection "down" st1
    else if Num.ltb dx 0 then setDirection "left" st1
    else if Num.gtb dx 0 then setDirection "right" st1
    else st1 in
  let sprite3 :=
    match playerSprite st2 with
    | Some sp =>
        if negb moving && wasMoving then Some (AnimatedSprite.gotoAndStop sp)
        else Some sp
    | None => None
    end in
  let sprite4 :=
    match sprite3 with
    | Some sp =>
        if moving && negb wasMoving then Some (AnimatedSprite.play sp)
        else Some sp
    | None => None
    end in
  let '(dx, dy) :=
    if nonzero dx && nonzero dy
    then let len := sqrt (dx * dx + dy * dy) in (dx / len, dy / len)
    else (dx, dy) in
  let isSprinting := isDown "Shift" in
  let speed := MOVE_SPEED * (if isSprinting then SPRINT_MULTIPLIER else 1) in
  let newX := playerX st + dx * speed * dt in
  let newY := playerY st + dy * speed * dt in
  let '(x', y') :=
    if negb (isBlocked newX newY) then (newX, newY)
    else
      let x1 := if negb (isBlocked newX (playerY st)) then newX else playerX st in
      let y1 := if negb (isBlocked x1 newY) then newY else playerY st in
      (x1, y1) in
  mk x' y' (playerDirection st2) moving (dx * speed) (dy * speed) sprite4
     (spritesheet st).

End World.

(** The frames of a session: the time step and the keys held in each. *)
Fixpoint frames (sqrt : Q -> Q) (worldToTile : Q -> Q -> Z * Z)
    (isCollision : Z -> Z -> bool) (fs : list (Q * (string -> bool))) (st : t)
  : t :=
  match fs with
  | [] => st
  | (dt, isDown) :: rest =>
      frames sqrt worldToTile isCollision rest
             (updatePlayerMovement sqrt worldToTile isCollision isDown dt st)
  end.

End Player.

Module PlayerSample.

Import Player.

(** Tiles of 16 pixels with a wall along column 5. *)
Definition worldToTile (x y : Q) : Z * Z :=
  (Qfloor (x / 16), Qfloor (y / 16)).
Definition isCollision (tx ty : Z) : bool := (tx =? 5)%Z.

(** A stand-in for [Math.sqrt], exact on 2 up to three digits. *)
Definition sqrt (q : Q) : Q := 1414 # 1000.

Definition keys (down : list string) (k : string) : bool :=
  existsb (String.eqb k) down.

Definition start : t := mk 64 64 "down" false 0 0 None None.

End PlayerSample.

(** ** Saving placed objects (src/convex/mapObjects.ts) *)

Module MapObjects.

(** A document of the table [mapObjects]. Document ids are modelled as
    numbers handed out in order. *)
Module Row.
Record t : Type := mk {
  mapName : string;
  spriteDefName : string;
  instanceName : option string;
  x : Q;
  y : Q;
  layer : Q;
  scaleOverride : option Q;
  flipX : option bool;
  isOn : option bool;
  updatedAt : Q
}.
End Row.

(** An element of the argument [objects] of [bulkSave]. *)
Module Incoming.
Record t : Type := mk {
  existingId : option nat;
  spriteDefName : string;
  instanceName : option string;
  x : Q;
  y : Q;
  layer : Q;
  scaleOverride : option Q;
  flipX : option bool
}.
End Incoming.

(** The table and the next id [ctx.db.insert] hands out. *)
Module Db.
Record t : Type := mk {
  table : gmap nat Row.t;
  nextId : nat
}.
End Db.

(** [ctx.scheduler.runAfter(0, internal.npcEngine.syncMap, { mapName })]. *)
Inductive Scheduled : Type :=
| SyncMap (mapName : string).

(** [ctx.db.insert("mapObjects", row)]. *)
Definition insertRow (r : Row.t) (db : Db.t) : Db.t :=
  Db.mk (<[Db.nextId db := r]> (Db.table db)) (S (Db.nextId db)).

(** [ctx.db.patch(id, fields)]. *)
Definition patchRow (id : nat) (f : Row.t -> Row.t) (db : Db.t) : Db.t :=
  Db.mk (alter f id (Db.table db)) (Db.nextId db).

(** [ctx.db.delete(id)]. *)
Definition deleteRow (id : nat) (db : Db.t) : Db.t :=
  Db.mk (delete id (Db.table db)) (Db.nextId db).

(** A field of a patch that may be absent: an absent key leaves the stored
    value. *)
Definition orKeep {A} (new old : option A) : option A :=
  match new with
  | Some v => Some v
  | None => old
  end.

(** The patch [{ ...fields, updatedAt: now }] applied to a document. *)
Definition patched (o : Incoming.t) (now : Q) (r : Row.t) : Row.t :=
  Row.mk (Row.mapName r) (Incoming.spriteDefName o)
         (orKeep (Incoming.instanceName o) (Row.instanceName r))
         (Incoming.x o) (Incoming.y o) (Incoming.layer o)
         (orKeep (Incoming.scaleOverride o) (Row.scaleOverride r))
         (orKeep (Incoming.flipX o) (Row.flipX r))
         (Row.isOn r) now.

(** The document [{ mapName, ...fields, updatedAt: now }]. *)
Definition fresh (mapName : string) (o : Incoming.t) (now : Q) : Row.t :=
  Row.mk mapName (Incoming.spriteDefName o) (Incoming.instanceName o)
         (Incoming.x o) (Incoming.y o) (Incoming.layer o)
         (Incoming.scaleOverride o) (Incoming.flipX o) None now.

(** The query by the index [by_map]. *)
Definition listByMap (mapName : string) (db : Db.t) : list (nat * Row.t) :=
  List.filter (fun p => String.eqb (Row.mapName p.2) mapName)
              (map_to_list (Db.table db)).

(** [existingById.has(id)]. *)
Definition has (existing : list (nat * Row.t)) (id : nat) : bool :=
  existsb (fun p => Nat.eqb p.1 id) existing.

(** The body of the loop over [objects]: the table and [keptIds]. *)
Definition saveOne (existing : list (nat * Row.t)) (mapName : string) (now : Q)
    (acc : Db.t * gset nat) (obj : Incoming.t) : Db.t * gset nat :=
  match Incoming.existingId obj with
  | Some id =>
      if has existing id
      then (patchRow id (patched obj now) acc.1, {[id]} ∪ acc.2)
      else (insertRow (fresh mapName obj now) acc.1, acc.2)
  | None => (insertRow (fresh mapName obj now) acc.1, acc.2)
  end.

(** The loop deleting the documents the editor removed. *)
Definition deleteMissing (existing : list (nat * Row.t)) (kept : gset nat)
    (db : Db.t) : Db.t :=
  foldl (fun d old => if decide (old.1 ∈ kept) then d else deleteRow old.1 d)
        db existing.

(** [bulkSave]; [allowed] is whether [requireMapEditor] returns rather than
    throws, [now] is [Date.now()]. A throw aborts the mutation: [None]. *)
Definition bulkSave (allowed : bool) (now : Q) (mapName : string)
    (objects : list Incoming.t) (db : Db.t) : option (Db.t * list Scheduled) :=
  if negb allowed then None
  else
    let existing := listByMap mapName db in
    let '(db1, keptIds) :=
      foldl (saveOne existing mapName now) (db, ∅) objects in
    Some (deleteMissing existing keptIds db1, [SyncMap mapName]).

(** [toggle]: the new table and the returned [{ success, isOn }]. *)
Definition toggle (now : Q) (id : nat) (db : Db.t)
  : Db.t * (bool * option bool) :=
  match Db.table db !! id with
  | None => (db, (false, None))
  | Some obj =>
      let newState := negb (default false (Row.isOn obj)) in
      (patchRow id (fun r => Row.mk (Row.mapName r) (Row.spriteDefName r)
                               (Row.instanceName r) (Row.x r) (Row.y r)
                               (Row.layer r) (Row.scaleOverride r)
                               (Row.flipX r) (Some newState) now) db,
       (true, Some newState))
  end.

(** Every document id is below the next id to hand out. *)
Definition wellFormed (db : Db.t) : Prop :=
  forall id r, Db.table db !! id = Some r -> (id < Db.nextId db)%nat.

(** The ids the editor sent back that name a document of the map. *)
Definition keptOf (mapName : string) (db : Db.t) (objects : list Incoming.t)
  : list nat :=
  omap (fun o => match Incoming.existingId o with
                 | Some id =>
                     match Db.table db !! id with
                     | Some r => if String.eqb (Row.mapName r) mapName
                                 then Some id else None
                     | None => None
                     end
                 | None => None
                 end) objects.

(** What the first loop has done after the objects [done]. *)
Definition saved (now : Q) (mapName : string) (db : Db.t) (done : list Incoming.t) (acc : Db.t * gset nat)
  : Prop :=
  (Db.nextId acc.1
   = Db.nextId db + (length done - length (keptOf mapName db done)))%nat
  /\ (forall id, id ∈ acc.2 <-> id ∈ keptOf mapName db done)
  /\ (forall id r, Db.table db !! id = Some r ->
        exists r1, Db.table acc.1 !! id = Some r1
          /\ Row.isOn r1 = Row.isOn r /\ Row.mapName r1 = Row.mapName r
          /\ (id ∉ acc.2 -> r1 = r)
          /\ (id ∈ acc.2 -> Row.updatedAt r1 = now))
  /\ (forall id r1, Db.table acc.1 !! id = Some r1 -> Db.table db !! id = None ->
        (Db.nextId db <= id < Db.nextId acc.1)%nat
        /\ Row.mapName r1 = mapName /\ Row.isOn r1 = None).

End MapObjects.

Module MapObjectsSample.

Import MapObjects.

Definition db : Db.t :=
  Db.mk (<[0%nat := Row.mk "town" "lamp" None 10 10 2 None None (Some true) 5]>
         (<[1%nat := Row.mk "town" "barrel" None 20 20 2 None None None 5]>
          (<[2%nat := Row.mk "cave" "door" None 30 30 2 None None (Some false) 5]>
           ∅)))
        3.

(** The lamp moved, the barrel gone, a crate added. *)
Definition edited : list Incoming.t :=
  [Incoming.mk (Some 0%nat) "lamp" None 12 10 2 None None;
   Incoming.mk None "crate" None 40 40 2 None None].

End MapObjectsSample.

(** * Properties *)

(** ** Numbers *)

Module NumFacts.
Import Num.

Lemma ltb_lt a b : ltb a b = true <-> a < b.
Proof.
  unfold ltb. rewrite negb_true_iff.
  destruct (Qle_bool b a) eqn:E.
  - apply Qle_bool_iff in E. split; [discriminate | intros; lra].
  - split; [intros _ | reflexivity].
    apply Qnot_le_lt. intros H. apply Qle_bool_iff in H. congruence.
Qed.

Lemma ltb_ge a b : ltb a b = false <-> b <= a.
Proof.
  unfold ltb. rewrite negb_false_iff. apply Qle_bool_iff.
Qed.

Lemma gtb_gt a b : gtb a b = true <-> b < a.
Proof. apply ltb_lt. Qed.

Lemma gtb_le a b : gtb a b = false <-> a <= b.
Proof. apply ltb_ge. Qed.

Lemma geb_ge a b : geb a b = true <-> b <= a.
Proof. apply Qle_bool_iff. Qed.

Lemma geb_lt a b : geb a b = false <-> a < b.
Proof.
  unfold geb. destruct (Qle_bool b a) eqn:E.
  - apply Qle_bool_iff in E. split; [discriminate | intros; lra].
  - split; [intros _ | reflexivity].
    apply Qnot_le_lt. intros H. apply Qle_bool_iff in H. congruence.
Qed.

Lemma eqb_eq a b : eqb a b = true <-> a == b.
Proof. apply Qeq_bool_iff. Qed.

Lemma eqb_neq a b : eqb a b = false <-> ~ a == b.
Proof.
  unfold eqb. split.
  - intros E H. apply Qeq_bool_iff in H. congruence.
  - intros H. destruct (Qeq_bool a b) eqn:E; [| reflexivity].
    apply Qeq_bool_iff in E. contradiction.
Qed.

Lemma max_spec a b : (a <= b /\ max a b = b) \/ (b < a /\ max a b = a).
Proof.
  unfold max. destruct (Qle_bool a b) eqn:E.
  - left. split; [now apply Qle_bool_iff | reflexivity].
  - right. split; [| reflexivity]. now apply geb_lt.
Qed.

Lemma min_spec a b : (a <= b /\ min a b = a) \/ (b < a /\ min a b = b).
Proof.
  unfold min. destruct (Qle_bool a b) eqn:E.
  - left. split; [now apply Qle_bool_iff | reflexivity].
  - right. split; [| reflexivity]. now apply geb_lt.
Qed.

Lemma clamp01_range v : 0 <= clamp01 v <= 1.
Proof.
  unfold clamp01.
  destruct (min_spec 1 v) as [[H1 ->] | [H1 ->]];
    [destruct (max_spec 0 1) as [[H2 ->] | [H2 ->]]
    | destruct (max_spec 0 v) as [[H2 ->] | [H2 ->]]]; lra.
Qed.

End NumFacts.

(** ** The presence feed: [EntityLayer.updatePresence] *)

Section PresenceFeed.

Import EntityLayer EntitySpec.

Implicit Types (snaps : list RemoteSnapshot.t) (r : Remote.t)
  (p : PresenceData.t) (m : gmap string Remote.t) (A : gset string).

Lemma trimSnapshots_drop snaps :
  trimSnapshots snaps = drop (length snaps - INTERP_MAX_SNAPSHOTS) snaps.
Proof.
  induction snaps as [| s rest IH]; [reflexivity |].
  cbn [trimSnapshots]. destruct (Nat.ltb_spec INTERP_MAX_SNAPSHOTS (length (s :: rest))) as [H | H].
  - rewrite IH. cbn [length] in *.
    replace (S (length rest) - INTERP_MAX_SNAPSHOTS)%nat
      with (S (length rest - INTERP_MAX_SNAPSHOTS)) by (unfold INTERP_MAX_SNAPSHOTS in *; lia).
    reflexivity.
  - replace (length (s :: rest) - INTERP_MAX_SNAPSHOTS)%nat with O by lia.
    reflexivity.
Qed.

Lemma trimSnapshots_length snaps :
  (length (trimSnapshots snaps) <= INTERP_MAX_SNAPSHOTS)%nat.
Proof.
  rewrite trimSnapshots_drop, length_drop.
  unfold INTERP_MAX_SNAPSHOTS. lia.
Qed.

Lemma pushSnapshot_length r p now :
  (length (Remote.snapshots (pushSnapshot r p now)) <= INTERP_MAX_SNAPSHOTS)%nat.
Proof. apply trimSnapshots_length. Qed.

Lemma feedIds_nil localProfileId : feedIds localProfileId [] = ∅.
Proof. reflexivity. Qed.

Lemma feedIds_cons localProfileId p presenceList :
  feedIds localProfileId (p :: presenceList)
  = (if String.eqb (PresenceData.profileId p) localProfileId
     then ∅ else {[PresenceData.profileId p]})
    ∪ feedIds localProfileId presenceList.
Proof.
  unfold feedIds. rewrite fmap_cons.
  destruct (String.eqb_spec (PresenceData.profileId p) localProfileId) as [E | E].
  - rewrite filter_cons_False by (intros H; apply H, E).
    rewrite (left_id_L ∅ (∪)). reflexivity.
  - rewrite filter_cons_True by exact E. reflexivity.
Qed.

Lemma presenceStep_active localProfileId now m A p :
  (presenceStep localProfileId now (m, A) p).2
  = (if String.eqb (PresenceData.profileId p) localProfileId
     then ∅ else {[PresenceData.profileId p]}) ∪ A.
Proof.
  unfold presenceStep.
  destruct (String.eqb (PresenceData.profileId p) localProfileId); cbn [snd].
  - rewrite (left_id_L ∅ (∪)). reflexivity.
  - reflexivity.
Qed.

Lemma foldl_presenceStep_active localProfileId now presenceList : forall m A,
  (foldl (presenceStep localProfileId now) (m, A) presenceList).2
  = feedIds localProfileId presenceList ∪ A.
Proof.
  induction presenceList as [| p rest IH]; intros m A.
  - cbn [foldl snd]. rewrite feedIds_nil, (left_id_L ∅ (∪)). reflexivity.
  - cbn [foldl].
    pose proof (presenceStep_active localProfileId now m A p) as H.
    destruct (presenceStep localProfileId now (m, A) p) as [m1 A1].
    cbn [snd] in H. subst A1.
    rewrite IH, feedIds_cons.
    rewrite (assoc_L (∪)), (comm_L (∪) (feedIds _ _)). reflexivity.
Qed.

Lemma presenceStep_invariant localProfileId now m A p :
  activeTrimmed m A ->
  activeTrimmed (presenceStep localProfileId now (m, A) p).1
                (presenceStep localProfileId now (m, A) p).2.
Proof.
  intros Inv. unfold presenceStep.
  destruct (String.eqb (PresenceData.profileId p) localProfileId); [exact Inv |].
  cbn [fst snd]. intros id Hid.
  destruct (decide (id = PresenceData.profileId p)) as [-> | Hne].
  - rewrite lookup_insert_eq. eexists. split; [reflexivity |].
    apply pushSnapshot_length.
  - rewrite lookup_insert_ne by congruence.
    apply Inv. set_solver.
Qed.

Lemma foldl_presenceStep_invariant localProfileId now presenceList : forall m A,
  activeTrimmed m A ->
  activeTrimmed (foldl (presenceStep localProfileId now) (m, A) presenceList).1
                (foldl (presenceStep localProfileId now) (m, A) presenceList).2.
Proof.
  induction presenceList as [| p rest IH]; intros m A Inv; [exact Inv |].
  cbn [foldl].
  pose proof (presenceStep_invariant localProfileId now m A p Inv) as H.
  destruct (presenceStep localProfileId now (m, A) p) as [m1 A1].
  apply IH, H.
Qed.

Lemma updatePresence_lookup presenceList localProfileId now m id :
  updatePresence presenceList localProfileId now m !! id
  = if decide (id ∈ feedIds localProfileId presenceList)
    then (foldl (presenceStep localProfileId now) (m, ∅) presenceList).1 !! id
    else None.
Proof.
  unfold updatePresence.
  pose proof (foldl_presenceStep_active localProfileId now presenceList m ∅) as HA.
  destruct (foldl (presenceStep localProfileId now) (m, ∅) presenceList)
    as [m' A'] eqn:E.
  cbn [fst snd] in *. subst A'.
  destruct (decide (id ∈ feedIds localProfileId presenceList)) as [Hin | Hnin].
  - destruct (m' !! id) as [r |] eqn:L.
    + apply map_lookup_filter_Some. split; [exact L |]. cbn. set_solver.
    + apply map_lookup_filter_None. left. exact L.
  - apply map_lookup_filter_None. right. intros r _. cbn. set_solver.
Qed.

(** C3. After every call of [updatePresence], whatever the map of remote
    players was before, every tracked remote player holds at most
    [INTERP_MAX_SNAPSHOTS] = 6 snapshots; and appending a snapshot keeps the
    newest entries: the buffer after a push is the old buffer followed by
    the new snapshot, with just enough of the oldest entries dropped from
    the front to fit the bound. *)
Theorem updatePresence_buffer_bounded :
  forall presenceList localProfileId now m id r,
    updatePresence presenceList localProfileId now m !! id = Some r ->
    (length (Remote.snapshots r) <= 6)%nat
    /\ INTERP_MAX_SNAPSHOTS = 6%nat
    /\ forall r0 p,
         Remote.snapshots (pushSnapshot r0 p now)
         = drop (length (Remote.snapshots r0 ++ [snapshotOf p now]) - 6)
                (Remote.snapshots r0 ++ [snapshotOf p now]).
Proof.
  intros presenceList localProfileId now m id r H.
  split; [| split; [reflexivity |]].
  - rewrite updatePresence_lookup in H.
    destruct (decide (id ∈ feedIds localProfileId presenceList)) as [Hin | ];
      [| discriminate].
    assert (Inv : activeTrimmed m ∅) by (intros ? ?; set_solver).
    apply (foldl_presenceStep_invariant localProfileId now presenceList) in Inv.
    rewrite foldl_presenceStep_active in Inv.
    destruct (Inv id) as (r' & L & Hlen); [set_solver |].
    rewrite L in H. injection H as <-. exact Hlen.
  - intros r0 p. cbn [pushSnapshot Remote.snapshots].
    apply trimSnapshots_drop.
Qed.

(** C4. After a call of [updatePresence], the tracked remote players are
    exactly the profile ids of the delivered list other than the local
    player's: an entity missing from the list is gone after the call, and
    the tracked set depends neither on the clock nor on what was tracked
    before. *)
Theorem updatePresence_tracks_exactly_feed :
  forall presenceList localProfileId now m,
    dom (updatePresence presenceList localProfileId now m)
    = feedIds localProfileId presenceList
    /\ (forall id, id ∈ dom m -> id ∉ feedIds localProfileId presenceList ->
          updatePresence presenceList localProfileId now m !! id = None)
    /\ (forall now' m',
          dom (updatePresence presenceList localProfileId now' m')
          = dom (updatePresence presenceList localProfileId now m)).
Proof.
  assert (D : forall presenceList localProfileId now m,
             dom (updatePresence presenceList localProfileId now m)
             = feedIds localProfileId presenceList).
  { intros presenceList localProfileId now m.
    apply set_eq. intros id. rewrite elem_of_dom, updatePresence_lookup.
    destruct (decide (id ∈ feedIds localProfileId presenceList)) as [Hin | Hnin].
    - split; [intros _; exact Hin | intros _].
      assert (Inv : activeTrimmed m ∅) by (intros ? ?; set_solver).
      apply (foldl_presenceStep_invariant localProfileId now presenceList) in Inv.
      rewrite foldl_presenceStep_active in Inv.
      destruct (Inv id) as (r' & L & _); [set_solver |].
      rewrite L. eauto.
    - split; [intros [? ?]; discriminate | intros; contradiction]. }
  intros presenceList localProfileId now m. split; [apply D | split].
  - intros id _ Hnin. rewrite updatePresence_lookup.
    destruct (decide (id ∈ feedIds localProfileId presenceList)); [contradiction | reflexivity].
  - intros now' m'. rewrite !D. reflexivity.
Qed.

(** *** Receipt order of the buffers

    [performance.now()] never decreases, so feeds arrive with
    non-decreasing stamps; the buffers then stay in receipt order. *)

Lemma timeOrdered_drop snaps n : timeOrdered snaps -> timeOrdered (drop n snaps).
Proof.
  intros H i j a b Hij Ha Hb. rewrite lookup_drop in Ha, Hb.
  apply (H (n + i)%nat (n + j)%nat); [lia | exact Ha | exact Hb].
Qed.

Lemma timeOrdered_snoc snaps s :
  timeOrdered snaps ->
  (forall s', s' ∈ snaps -> RemoteSnapshot.time s' <= RemoteSnapshot.time s) ->
  timeOrdered (snaps ++ [s]).
Proof.
  intros H Hle i j a b Hij Ha Hb.
  destruct (decide (j < length snaps)%nat) as [Hj | Hj].
  - rewrite lookup_app_l in Ha, Hb by lia. exact (H i j a b Hij Ha Hb).
  - rewrite (lookup_app_r snaps) in Hb by lia.
    destruct (j - length snaps)%nat as [| n] eqn:E; [| destruct n; discriminate].
    cbn in Hb. injection Hb as <-.
    destruct (decide (i < length snaps)%nat) as [Hi | Hi].
    + rewrite lookup_app_l in Ha by lia.
      apply Hle. apply list_elem_of_lookup. eauto.
    + rewrite (lookup_app_r snaps) in Ha by lia.
      replace (i - length snaps)%nat with O in Ha by lia.
      cbn in Ha. injection Ha as <-. apply Qle_refl.
Qed.

Lemma pushSnapshot_received r p now :
  timeOrdered (Remote.snapshots r) ->
  (forall s, s ∈ Remote.snapshots r -> RemoteSnapshot.time s <= now) ->
  timeOrdered (Remote.snapshots (pushSnapshot r p now))
  /\ forall s, s ∈ Remote.snapshots (pushSnapshot r p now) ->
       RemoteSnapshot.time s <= now.
Proof.
  intros Hord Hle. cbn [pushSnapshot Remote.snapshots].
  rewrite trimSnapshots_drop. split.
  - apply timeOrdered_drop, timeOrdered_snoc; [exact Hord | exact Hle].
  - intros s Hs. apply list_elem_of_lookup in Hs as [i Hi].
    rewrite lookup_drop in Hi. apply list_elem_of_lookup_2 in Hi.
    apply elem_of_app in Hi as [Hi | Hi]; [now apply Hle |].
    apply list_elem_of_singleton in Hi as ->. apply Qle_refl.
Qed.

Lemma presenceStep_received localProfileId now m A p :
  receivedBy now m ->
  receivedBy now (presenceStep localProfileId now (m, A) p).1.
Proof.
  intros Inv. unfold presenceStep.
  destruct (String.eqb (PresenceData.profileId p) localProfileId); [exact Inv |].
  cbn [fst]. intros id r.
  destruct (decide (id = PresenceData.profileId p)) as [-> | Hne].
  - rewrite lookup_insert_eq. intros [= <-].
    destruct (m !! PresenceData.profileId p) as [r0 |] eqn:L.
    + destruct (Inv _ _ L) as [Ho Hb]. now apply pushSnapshot_received.
    + apply pushSnapshot_received.
      * intros i j a b _ Ha. cbn in Ha. discriminate.
      * intros s Hs. cbn in Hs. apply elem_of_nil in Hs. contradiction.
  - rewrite lookup_insert_ne by congruence. apply Inv.
Qed.

Lemma foldl_presenceStep_received localProfileId now presenceList : forall m A,
  receivedBy now m ->
  receivedBy now (foldl (presenceStep localProfileId now) (m, A) presenceList).1.
Proof.
  induction presenceList as [| p rest IH]; intros m A Inv; [exact Inv |].
  cbn [foldl].
  pose proof (presenceStep_received localProfileId now m A p Inv) as H.
  destruct (presenceStep localProfileId now (m, A) p) as [m1 A1].
  apply IH, H.
Qed.

(** A feed stamped no earlier than everything received so far leaves every
    buffer in receipt order. *)
Lemma updatePresence_received presenceList localProfileId now0 now m :
  now0 <= now ->
  receivedBy now0 m ->
  receivedBy now (updatePresence presenceList localProfileId now m).
Proof.
  intros Hle Inv id r H.
  rewrite updatePresence_lookup in H.
  destruct (decide (id ∈ feedIds localProfileId presenceList)); [| discriminate].
  refine (foldl_presenceStep_received localProfileId now presenceList m ∅ _ id r H).
  intros id' r' L. destruct (Inv _ _ L) as [Ho Hb]. split; [exact Ho |].
  intros s Hs. specialize (Hb s Hs). lra.
Qed.

End PresenceFeed.

Section PresenceFeedInstances.

Import EntityLayer EntitySpec.

(** A seventh snapshot pushes the oldest one out. *)
Example trim_seven :
  let s (t : Q) := RemoteSnapshot.mk 0 0 0 0 "down" "idle" t in
  trimSnapshots [s 1; s 2; s 3; s 4; s 5; s 6; s 7]
  = [s 2; s 3; s 4; s 5; s 6; s 7].
Proof. reflexivity. Qed.

(** The local player's own row is skipped, and a player missing from the
    feed is dropped. *)
Example feed_replaces_tracked :
  dom (updatePresence [Turning.me] "me" 1048 Turning.fed) = ∅
  /\ dom Turning.fed = {["p2"%string]}.
Proof.
  split; apply set_eq; intros id; rewrite elem_of_dom.
  - rewrite updatePresence_lookup. cbn. split; [intros [? ?]; discriminate |].
    intros H. apply elem_of_empty in H. contradiction.
  - unfold Turning.fed. rewrite updatePresence_lookup.
    destruct (decide (id ∈ feedIds "me" [Turning.me; Turning.row 62 62 "up"]))
      as [Hin | Hnin].
    + assert (id = "p2"%string) as ->.
      { rewrite !feedIds_cons, feedIds_nil in Hin. cbn in Hin.
        apply elem_of_union in Hin as [Hin | Hin];
          [apply elem_of_empty in Hin; contradiction |].
        apply elem_of_union in Hin as [Hin | Hin];
          [now apply elem_of_singleton in Hin
          | apply elem_of_empty in Hin; contradiction]. }
      split; [intros _; now apply elem_of_singleton |].
      intros _. vm_compute. eauto.
    + split; [intros [? ?]; discriminate |].
      intros Hid. apply elem_of_singleton in Hid as ->.
      exfalso. apply Hnin.
      rewrite !feedIds_cons, feedIds_nil. cbn.
      apply elem_of_union_r, elem_of_union_l. now apply elem_of_singleton.
Qed.

Lemma updatePresence_buffer_witness :
  exists r,
    updatePresence [Turning.row 62 60 "up"] "me" 1048 Turning.fed !! "p2"
    = Some r
    /\ (length (Remote.snapshots r) <= 6)%nat.
Proof.
  eexists.
  assert (H : updatePresence [Turning.row 62 60 "up"] "me" 1048 Turning.fed
              !! "p2" = Some _) by (vm_compute; reflexivity).
  split; [exact H |].
  exact (proj1 (updatePresence_buffer_bounded _ _ _ _ _ _ H)).
Defined.

Lemma updatePresence_tracks_witness :
  dom (updatePresence [Turning.row 62 60 "up"; Turning.row 0 0 "down"]
                      "me" 1048 ∅)
  = feedIds "me" [Turning.row 62 60 "up"; Turning.row 0 0 "down"].
Proof.
  exact (proj1 (updatePresence_tracks_exactly_feed
                  [Turning.row 62 60 "up"; Turning.row 0 0 "down"]
                  "me" 1048 ∅)).
Defined.

End PresenceFeedInstances.

(** ** Interpolation: [EntityLayer.update] *)

Section Interpolation.

Import EntityLayer EntitySpec NumFacts.

Implicit Types (snaps : list RemoteSnapshot.t) (r : Remote.t)
  (a b s : RemoteSnapshot.t) (renderTime : Q).

Lemma snapOrMove_target rx ry tx ty : snapOrMove rx ry tx ty = (tx, ty).
Proof. unfold snapOrMove. destruct (Num.gtb _ _); reflexivity. Qed.

Lemma applyTarget_direct r tx ty d an :
  applyTarget r tx ty d an = applyTargetDirect r tx ty d an.
Proof.
  unfold applyTarget, applyTargetDirect. rewrite snapOrMove_target.
  reflexivity.
Qed.

(** C8. The snap-distance test of [update] has no observable effect: both
    of its arms assign the computed target, so the update of every remote
    player, and of the whole map of remote players, equals the update
    with the conditional removed; the rendered position is the target. *)
Theorem snap_check_has_no_effect :
  (forall rx ry tx ty, snapOrMove rx ry tx ty = (tx, ty))
  /\ (forall renderTime r,
        updateRemote renderTime r = updateRemoteDirect renderTime r)
  /\ (forall now remotePlayers,
        update now remotePlayers = updateDirect now remotePlayers).
Proof.
  split; [exact snapOrMove_target |].
  assert (E : forall renderTime r,
             updateRemote renderTime r = updateRemoteDirect renderTime r).
  { intros renderTime r. unfold updateRemote, updateRemoteDirect.
    destruct (interpolate _ _); try reflexivity.
    now rewrite applyTarget_direct. }
  split; [exact E |].
  intros now remotePlayers. unfold update, updateDirect.
  apply map_fmap_ext. intros id r _. apply E.
Qed.

Lemma applyTarget_render r tx ty d an :
  Remote.renderX (applyTarget r tx ty d an) = tx
  /\ Remote.renderY (applyTarget r tx ty d an) = ty.
Proof.
  rewrite applyTarget_direct. unfold applyTargetDirect.
  destruct (debounceDirection r d) as [[sp1 d1] h1].
  destruct (smoothAnimation sp1 (Remote.animation r) an) as [sp2 a2].
  split; reflexivity.
Qed.

(** *** The bracket search *)

Lemma findBracket_total snaps renderTime : forall i,
  (i < length snaps)%nat ->
  exists k, findBracket snaps renderTime i = Some k /\ (k <= i)%nat.
Proof.
  induction i as [| i IH]; intros Hi.
  - exists O. split; [reflexivity | lia].
  - cbn [findBracket].
    destruct (lookup_lt_is_Some_2 snaps (S i) Hi) as [s Hs]. rewrite Hs.
    destruct (Num.gtb (RemoteSnapshot.time s) renderTime).
    + destruct IH as (k & Hk & Hle); [lia |]. exists k. split; [exact Hk | lia].
    + exists (S i). split; [reflexivity | lia].
Qed.

(** Where the search stops: at index 0 or at a snapshot not later than
    [renderTime], with every snapshot passed on the way later than it. *)
Lemma findBracket_stop snaps renderTime : forall i k,
  findBracket snaps renderTime i = Some k ->
  (k <= i)%nat
  /\ (k = O \/ exists s, snaps !! k = Some s /\ RemoteSnapshot.time s <= renderTime)
  /\ (forall j s, (k < j <= i)%nat -> snaps !! j = Some s ->
        renderTime < RemoteSnapshot.time s).
Proof.
  induction i as [| i IH]; intros k H.
  - cbn in H. injection H as <-. split; [lia |]. split; [now left |].
    intros j s Hj. lia.
  - cbn [findBracket] in H.
    destruct (snaps !! S i) as [s |] eqn:Hs; [| discriminate].
    destruct (Num.gtb (RemoteSnapshot.time s) renderTime) eqn:G.
    + apply IH in H. destruct H as (Hle & Hk & Hpast).
      split; [lia |]. split; [exact Hk |].
      intros j s' Hj Hs'.
      destruct (decide (j = S i)) as [-> | Hne].
      * rewrite Hs in Hs'. injection Hs' as <-. now apply gtb_gt.
      * apply (Hpast j); [lia | exact Hs'].
    + injection H as <-. split; [lia |]. split.
      * right. exists s. split; [exact Hs | now apply gtb_le].
      * intros j s' Hj. lia.
Qed.

(** *** Shape of the target *)

Lemma holdTarget_onSegment a :
  onSegment a a (RemoteSnapshot.x a) (RemoteSnapshot.y a).
Proof. exists 0. split; [lra |]. split; ring. Qed.

Lemma lerpTarget_onSegment a b renderTime :
  exists tx ty d an,
    lerpTarget a b renderTime = Target tx ty d an /\ onSegment a b tx ty.
Proof.
  unfold lerpTarget. do 4 eexists. split; [reflexivity |].
  eexists. split; [apply clamp01_range |]. split; reflexivity.
Qed.

(** For a non-empty buffer the target is computed, from the snapshot at
    the bracket index and its successor (or itself at the end). *)
Lemma interpolate_cases snaps renderTime :
  snaps <> [] ->
  exists k a b,
    snaps !! k = Some a
    /\ snaps !! Nat.min (k + 1) (length snaps - 1) = Some b
    /\ (interpolate snaps renderTime = holdTarget a
        \/ interpolate snaps renderTime = lerpTarget a b renderTime).
Proof.
  intros Hne. unfold interpolate.
  destruct (Nat.leb_spec 2 (length snaps)) as [H2 | H2].
  - destruct (findBracket_total snaps renderTime (length snaps - 1)) as (k & Hk & Hle);
      [lia |].
    rewrite Hk.
    destruct (lookup_lt_is_Some_2 snaps k) as [a Ha]; [lia |].
    destruct (lookup_lt_is_Some_2 snaps (Nat.min (k + 1) (length snaps - 1)))
      as [b Hb]; [lia |].
    exists k, a, b. rewrite Ha, Hb. split; [reflexivity |]. split; [reflexivity |].
    destruct (_ || _); [now left | now right].
  - destruct snaps as [| s [| s' rest]]; [contradiction | | cbn in H2; lia].
    exists O, s, s. cbn. split; [reflexivity |]. split; [reflexivity |]. now left.
Qed.

(** With receipt times in order, a bracketing pair of consecutive
    snapshots is the pair the search selects. *)
Lemma interpolate_bracket snaps renderTime k a b :
  timeOrdered snaps ->
  snaps !! k = Some a -> snaps !! S k = Some b ->
  RemoteSnapshot.time a < renderTime < RemoteSnapshot.time b ->
  interpolate snaps renderTime = lerpTarget a b renderTime.
Proof.
  intros Hord Ha Hb [Hlo Hhi].
  pose proof (lookup_lt_Some _ _ _ Hb) as Hlen.
  unfold interpolate.
  destruct (Nat.leb_spec 2 (length snaps)) as [_ | ?]; [| lia].
  destruct (findBracket_total snaps renderTime (length snaps - 1)) as (i & Hi & Hle);
    [lia |].
  rewrite Hi. apply findBracket_stop in Hi. destruct Hi as (_ & Hstop & Hpast).
  assert (i = k) as ->.
  { destruct (Nat.lt_trichotomy i k) as [Hlt | [-> | Hgt]]; [| reflexivity |].
    - specialize (Hpast k a). lapply Hpast; [| lia]. intros Hp.
      specialize (Hp Ha). lra.
    - destruct Hstop as [-> | (s & Hs & Hts)]; [lia |].
      pose proof (Hord (S k) i b s) as Ho. lapply Ho; [| lia]. intros Ho'.
      specialize (Ho' Hb Hs). lra. }
  replace (Nat.min (k + 1) (length snaps - 1)) with (S k) by lia.
  rewrite Ha, Hb.
  replace (k =? S k)%nat with false by (symmetry; apply Nat.eqb_neq; lia).
  replace (Num.eqb (RemoteSnapshot.time a) (RemoteSnapshot.time b)) with false.
  - reflexivity.
  - symmetry. apply eqb_neq. lra.
Qed.

(** At or after the receipt time of the newest snapshot the target is that
    snapshot. *)
Lemma interpolate_latest snaps renderTime s :
  last snaps = Some s ->
  RemoteSnapshot.time s <= renderTime ->
  interpolate snaps renderTime = holdTarget s.
Proof.
  intros Hlast Ht.
  assert (Hs : snaps !! (length snaps - 1)%nat = Some s).
  { rewrite <- Hlast. rewrite last_lookup. f_equal. lia. }
  pose proof (lookup_lt_Some _ _ _ Hs) as Hlen.
  unfold interpolate.
  destruct (Nat.leb_spec 2 (length snaps)) as [H2 | H2].
  - destruct (length snaps - 1)%nat as [| n] eqn:E; [lia |].
    cbn [findBracket]. rewrite Hs.
    replace (Num.gtb (RemoteSnapshot.time s) renderTime) with false
      by (symmetry; now apply gtb_le).
    replace (Nat.min (S n + 1) (S n)) with (S n) by lia.
    rewrite Hs, Nat.eqb_refl. reflexivity.
  - assert (length snaps = 1%nat) as E by lia.
    rewrite E in *. cbn [Nat.eqb Nat.sub] in *. rewrite Hs. reflexivity.
Qed.

Lemma findBracket_zeroVelocity snaps renderTime : forall i,
  findBracket (zeroVelocity <$> snaps) renderTime i = findBracket snaps renderTime i.
Proof.
  induction i as [| i IH]; [reflexivity |].
  cbn [findBracket]. rewrite list_lookup_fmap.
  destruct (snaps !! S i) as [s |]; [| reflexivity]. cbn.
  rewrite IH. reflexivity.
Qed.

Lemma interpolate_zeroVelocity snaps renderTime :
  interpolate (zeroVelocity <$> snaps) renderTime = interpolate snaps renderTime.
Proof.
  unfold interpolate. rewrite length_fmap, findBracket_zeroVelocity.
  destruct (2 <=? length snaps)%nat.
  - destruct (findBracket snaps renderTime (length snaps - 1)) as [i |]; [| reflexivity].
    rewrite !list_lookup_fmap.
    destruct (snaps !! i) as [a |]; [| reflexivity].
    destruct (snaps !! Nat.min (i + 1) (length snaps - 1)) as [b |]; reflexivity.
  - destruct (length snaps =? 1)%nat; [| reflexivity].
    rewrite list_lookup_fmap. destruct (snaps !! 0%nat); reflexivity.
Qed.

Lemma update_lookup now (remotePlayers : gmap string Remote.t) id r :
  remotePlayers !! id = Some r ->
  update now remotePlayers !! id
  = Some (updateRemote (now - INTERP_DELAY_MS) r).
Proof. intros H. unfold update. rewrite lookup_fmap, H. reflexivity. Qed.

Lemma updateRemote_total renderTime r :
  exists r', updateRemote renderTime r = Some r'
    /\ forall tx ty d an,
         interpolate (Remote.snapshots r) renderTime = Target tx ty d an ->
         Remote.renderX r' = tx /\ Remote.renderY r' = ty.
Proof.
  unfold updateRemote.
  destruct (Remote.snapshots r) as [| s0 rest] eqn:Hs.
  - cbn. exists r. split; [reflexivity | discriminate].
  - destruct (interpolate_cases (s0 :: rest) renderTime) as (k & a & b & _ & _ & Hc);
      [discriminate |].
    destruct (lerpTarget_onSegment a b renderTime) as (tx & ty & d & an & Hl & _).
    unfold holdTarget in Hc. rewrite Hl in Hc.
    destruct Hc as [-> | ->]; eexists; (split; [reflexivity |]);
      intros tx' ty' d' an' [= <- <- <- <-]; apply applyTarget_render.
Qed.

(** The position [update] computes for a remote player whose buffer is in
    receipt order. *)
Lemma update_position_ordered :
  forall now (remotePlayers : gmap string Remote.t) id r,
    remotePlayers !! id = Some r ->
    timeOrdered (Remote.snapshots r) ->
    let renderTime := now - INTERP_DELAY_MS in
    exists r',
      update now remotePlayers !! id = Some (Some r')
      /\ (forall k a b,
            Remote.snapshots r !! k = Some a ->
            Remote.snapshots r !! S k = Some b ->
            RemoteSnapshot.time a < renderTime < RemoteSnapshot.time b ->
            onSegment a b (Remote.renderX r') (Remote.renderY r'))
      /\ (forall s,
            last (Remote.snapshots r) = Some s ->
            RemoteSnapshot.time s <= renderTime ->
            Remote.renderX r' = RemoteSnapshot.x s
            /\ Remote.renderY r' = RemoteSnapshot.y s)
      /\ (Remote.snapshots r <> [] ->
          exists a b, a ∈ Remote.snapshots r /\ b ∈ Remote.snapshots r
            /\ onSegment a b (Remote.renderX r') (Remote.renderY r'))
      /\ (forall s,
            Remote.snapshots r = [s] ->
            Remote.renderX r' = RemoteSnapshot.x s
            /\ Remote.renderY r' = RemoteSnapshot.y s)
      /\ interpolate (zeroVelocity <$> Remote.snapshots r) renderTime
         = interpolate (Remote.snapshots r) renderTime.
Proof.
  intros now remotePlayers id r Hr Hord renderTime.
  destruct (updateRemote_total renderTime r) as (r' & Hu & Hpos).
  exists r'. split; [rewrite (update_lookup _ _ _ _ Hr); now f_equal |].
  split; [| split; [| split; [| split]]].
  - intros k a b Ha Hb Hbr.
    pose proof (interpolate_bracket _ _ _ _ _ Hord Ha Hb Hbr) as Hi.
    destruct (lerpTarget_onSegment a b renderTime) as (tx & ty & d & an & Hl & Hseg).
    rewrite Hl in Hi. destruct (Hpos _ _ _ _ Hi) as [-> ->]. exact Hseg.
  - intros s Hlast Ht.
    apply (Hpos _ _ _ _ (interpolate_latest _ _ _ Hlast Ht)).
  - intros Hne.
    destruct (interpolate_cases _ renderTime Hne) as (k & a & b & Ha & Hb & Hc).
    apply list_elem_of_lookup_2 in Ha, Hb.
    destruct Hc as [Hc | Hc].
    + exists a, a. split; [exact Ha |]. split; [exact Ha |].
      destruct (Hpos _ _ _ _ Hc) as [-> ->]. apply holdTarget_onSegment.
    + exists a, b. split; [exact Ha |]. split; [exact Hb |].
      destruct (lerpTarget_onSegment a b renderTime) as (tx & ty & d & an & Hl & Hseg).
      rewrite Hl in Hc. destruct (Hpos _ _ _ _ Hc) as [-> ->]. exact Hseg.
  - intros s Hs. apply (Hpos _ _ (RemoteSnapshot.direction s) (RemoteSnapshot.animation s)).
    rewrite Hs. reflexivity.
  - apply interpolate_zeroVelocity.
Qed.

(** *** Reachable states *)

Lemma updateRemote_snapshots renderTime r r' :
  updateRemote renderTime r = Some r' ->
  Remote.snapshots r' = Remote.snapshots r.
Proof.
  unfold updateRemote.
  destruct (interpolate _ _) as [| | tx ty d an]; intros [= <-]; [reflexivity |].
  rewrite applyTarget_direct. unfold applyTargetDirect.
  destruct (debounceDirection r d) as [[sp1 d1] h1].
  destruct (smoothAnimation sp1 (Remote.animation r) an) as [sp2 a2].
  reflexivity.
Qed.

Lemma loadRemotePlayerSprite_snapshots sheet r :
  Remote.snapshots (loadRemotePlayerSprite sheet r) = Remote.snapshots r.
Proof.
  unfold loadRemotePlayerSprite.
  destruct (sheet !! "row0"%string) as [n |]; [| reflexivity].
  destruct (0 <? n)%nat; reflexivity.
Qed.

Lemma receivedBy_later t now (m : gmap string Remote.t) :
  t <= now -> receivedBy t m -> receivedBy now m.
Proof.
  intros Hle Inv id r L. destruct (Inv id r L) as [Ho Hb].
  split; [exact Ho |]. intros s Hs. specialize (Hb s Hs). lra.
Qed.

(** Every buffer of a reachable state is in receipt order. *)
Lemma reachable_received localProfileId t (m : gmap string Remote.t) :
  reachable localProfileId t m -> receivedBy t m.
Proof.
  induction 1 as [t | t m presenceList now _ IH Hle
                 | t m now m' _ IH Hle Hup | t m id r sheet _ IH Hr].
  - intros id r L. rewrite lookup_empty in L. discriminate.
  - exact (updatePresence_received presenceList localProfileId t now m Hle IH).
  - intros id r' L.
    assert (Hl : update now m !! id = Some (Some r'))
      by (rewrite Hup, lookup_fmap, L; reflexivity).
    unfold update in Hl. rewrite lookup_fmap in Hl.
    destruct (m !! id) as [r |] eqn:Lm; [| discriminate].
    cbn in Hl. injection Hl as Hl.
    rewrite (updateRemote_snapshots _ _ _ Hl).
    exact (receivedBy_later t now m Hle IH id r Lm).
  - intros id' r' L.
    destruct (decide (id' = id)) as [-> | Hne].
    + rewrite lookup_insert_eq in L. injection L as <-.
      rewrite loadRemotePlayerSprite_snapshots. exact (IH id r Hr).
    + rewrite lookup_insert_ne in L by congruence. exact (IH id' r' L).
Qed.

(** C1. In every state the layer can reach, for every remote player, [update]
    computes a position (it never fails), and: (1) when two consecutive
    snapshots [a], [b] of its buffer bracket [renderTime], the rendered
    position lies on the segment from [a] to [b]; (2) from the receipt time
    of the newest snapshot on, the rendered position is that snapshot's
    position, and in every case it lies on a segment between two snapshots
    of the buffer, so it never goes beyond what was received; (3) with a
    single snapshot the position is held at it; and the target does not
    depend on the velocities stored in the buffer. *)
Theorem interpolation_bounded :
  forall localProfileId t (remotePlayers : gmap string Remote.t) now id r,
    reachable localProfileId t remotePlayers ->
    remotePlayers !! id = Some r ->
    let renderTime := now - INTERP_DELAY_MS in
    exists r',
      update now remotePlayers !! id = Some (Some r')
      /\ (forall k a b,
            Remote.snapshots r !! k = Some a ->
            Remote.snapshots r !! S k = Some b ->
            RemoteSnapshot.time a < renderTime < RemoteSnapshot.time b ->
            onSegment a b (Remote.renderX r') (Remote.renderY r'))
      /\ (forall s,
            last (Remote.snapshots r) = Some s ->
            RemoteSnapshot.time s <= renderTime ->
            Remote.renderX r' = RemoteSnapshot.x s
            /\ Remote.renderY r' = RemoteSnapshot.y s)
      /\ (Remote.snapshots r <> [] ->
          exists a b, a ∈ Remote.snapshots r /\ b ∈ Remote.snapshots r
            /\ onSegment a b (Remote.renderX r') (Remote.renderY r'))
      /\ (forall s,
            Remote.snapshots r = [s] ->
            Remote.renderX r' = RemoteSnapshot.x s
            /\ Remote.renderY r' = RemoteSnapshot.y s)
      /\ interpolate (zeroVelocity <$> Remote.snapshots r) renderTime
         = interpolate (Remote.snapshots r) renderTime.
Proof.
  intros localProfileId t remotePlayers now id r Hreach Hr.
  apply update_position_ordered; [exact Hr |].
  exact (proj1 (reachable_received _ _ _ Hreach id r Hr)).
Qed.

End Interpolation.

Section InterpolationInstances.

Import EntityLayer EntitySpec.

Lemma turning_reachable : reachable "me" 1032 Turning.fed.
Proof.
  unfold Turning.fed.
  apply (reach_feed "me" 1016); [| vm_compute; congruence].
  apply (reach_feed "me" 1000); [| vm_compute; congruence].
  apply (reach_feed "me" 1000); [| vm_compute; congruence].
  apply reach_new.
Qed.

Lemma interpolation_bounded_witness :
  reachable "me" 1032 Turning.fed
  /\ exists r r',
       Turning.fed !! "p2" = Some r
       /\ update 1340 Turning.fed !! "p2" = Some (Some r')
       /\ Remote.renderX r' = 62 /\ Remote.renderY r' = 62.
Proof.
  split; [exact turning_reachable |].
  eexists.
  assert (L : Turning.fed !! "p2" = Some _) by (vm_compute; reflexivity).
  destruct (interpolation_bounded "me" 1032 Turning.fed 1340 "p2" _
              turning_reachable L) as (r' & Hu & _ & Hlast & _).
  exists r'. split; [exact L |]. split; [exact Hu |].
  apply (Hlast (RemoteSnapshot.mk 62 62 0 0 "up" "walk" 1032)).
  - reflexivity.
  - vm_compute. congruence.
Defined.

(** Between the second and the third snapshot the player is drawn on the
    segment that joins them. *)
Example turning_between :
  exists r',
    update 1320 Turning.fed !! "p2" = Some (Some r')
    /\ Remote.renderX r' == 62 /\ Remote.renderY r' == 64 - (1 # 2).
Proof.
  eexists. split; [vm_compute; reflexivity |]. split; vm_compute; reflexivity.
Qed.

End InterpolationInstances.

(** ** Direction debounce of [EntityLayer.update] *)

Section DirectionDebounce.

Import EntityLayer EntitySpec.

(** What the debounce does guarantee: the frame right after one whose
    target agreed with the shown direction (hold counter at zero) never
    turns the sprite. *)
Lemma first_deviation_keeps_facing r tx ty d an :
  Remote.directionHoldFrames r = O ->
  Remote.direction (applyTarget r tx ty d an) = Remote.direction r
  /\ facing (applyTarget r tx ty d an) = facing r.
Proof.
  intros H0. unfold applyTarget, facing.
  destruct (snapOrMove _ _ _ _) as [rx ry].
  unfold debounceDirection. rewrite H0.
  assert (E : forall sp : option AnimatedSprite.t,
            (smoothAnimation sp (Remote.animation r) an).1
            ≫= (fun x => Some (AnimatedSprite.textures x))
            = sp ≫= (fun x => Some (AnimatedSprite.textures x))).
  { intros sp. unfold smoothAnimation.
    destruct (negb (String.eqb an (Remote.animation r))); [| reflexivity].
    destruct sp as [x |]; [| reflexivity]. cbn [fst].
    destruct (String.eqb an "walk" && negb (AnimatedSprite.playing x));
      [reflexivity |].
    destruct (String.eqb an "idle" && AnimatedSprite.playing x); reflexivity. }
  destruct (negb (String.eqb d (Remote.direction r))); cbn [Nat.leb];
    specialize (E (Remote.sprite r));
    destruct (smoothAnimation (Remote.sprite r) (Remote.animation r) an)
      as [sp2 a2]; cbn [fst Remote.direction Remote.sprite] in *;
    (split; [reflexivity |]);
    destruct sp2, (Remote.sprite r); cbn in *; congruence.
Qed.

Lemma glance_reachable : reachable "me" 1048 Glance.fed.
Proof.
  unfold Glance.fed.
  apply (reach_feed "me" 1032); [| vm_compute; congruence].
  apply (reach_feed "me" 1016); [| vm_compute; congruence].
  apply (reach_feed "me" 1000); [| vm_compute; congruence].
  unfold Glance.loaded.
  destruct (Glance.appeared !! "p2"%string) as [r |] eqn:L.
  - apply reach_sprite; [| exact L].
    apply (reach_feed "me" 1000); [apply reach_new | apply Qle_refl].
  - apply (reach_feed "me" 1000); [apply reach_new | apply Qle_refl].
Qed.

(** C5, evaluated on the code. The state [Glance.fed] is reachable: a
    player appears facing down, its sprite loads, and three feeds report
    left, up, left. Over the next five frames its interpolated direction is
    down, left, up, left, left: up is the target of one frame only. After
    the second frame the sprite still faces down with the hold counter at
    1; the third frame, the only one whose target is up, turns the sprite
    up. The hold counter counts frames whose target differs from the shown
    direction, not frames that agree with each other. *)
Theorem direction_applied_after_one_frame :
  reachable "me" 1048 Glance.fed
  /\ exists r,
       Glance.fed !! "p2" = Some r
       /\ Remote.direction r = "down"%string
       /\ facing r = Some "row0"%string
       /\ Remote.directionHoldFrames r = 0%nat
       /\ List.map (fun now => interpDirOf
                                 (interpolate (Remote.snapshots r)
                                              (now - INTERP_DELAY_MS)))
                   Glance.frames
          = [Some "down"; Some "left"; Some "up"; Some "left"; Some "left"]%string
       /\ (exists r2,
             updateFrames [1304; 1320] r = Some r2
             /\ Remote.direction r2 = "down"%string
             /\ facing r2 = Some "row0"%string
             /\ Remote.directionHoldFrames r2 = 1%nat)
       /\ (exists r3,
             updateFrames [1304; 1320; 1336] r = Some r3
             /\ Remote.direction r3 = "up"%string
             /\ facing r3 = Some "row1"%string)
       /\ (exists r5,
             updateFrames Glance.frames r = Some r5
             /\ Remote.direction r5 = "left"%string
             /\ facing r5 = Some "row3"%string).
Proof.
  split; [exact glance_reachable |].
  eexists. split; [vm_compute; reflexivity |].
  split; [reflexivity |]. split; [reflexivity |]. split; [reflexivity |].
  split; [vm_compute; reflexivity |].
  split; [| split]; eexists; (split; [vm_compute; reflexivity |]); repeat split.
Qed.

End DirectionDebounce.

(** ** [PresenceManager] *)

Section Presence.

Import PresenceManager PresenceSpec NumFacts.

Variable cfg : MultiplayerConfig.t.

Implicit Types (env : Env.t) (m : PresenceManager.t) (b : Browser.t)
  (es : list Effect).

Lemma mutationsOf_app es1 es2 :
  mutationsOf (es1 ++ es2) = mutationsOf es1 ++ mutationsOf es2.
Proof. unfold mutationsOf. apply omap_app. Qed.

(** A publish that passes the gate: the fields written and the effects. *)
Lemma publishPresence_sent env force m :
  force = true
  \/ (MultiplayerConfig.PRESENCE_MOVE_THRESHOLD_PX cfg
      * MultiplayerConfig.PRESENCE_MOVE_THRESHOLD_PX cfg <= movedSq env m)
  \/ (MultiplayerConfig.PRESENCE_STATIONARY_HEARTBEAT_MS cfg
      <= Env.now env - lastPresenceSentAt m) ->
  (publishPresence cfg env force m).1
  = mk (profile m) (presenceTimer m) (saveTimer m) (presenceUnsub m)
       (PlayerPosition.x (Env.getPlayerPosition env))
       (PlayerPosition.y (Env.getPlayerPosition env))
       (Env.now env) (unloadHandler m)
  /\ (publishPresence cfg env force m).2
     = Mutate (updateCall env m)
       :: match Env.network env (updateCall env m) with
          | None => []
          | Some err => [ConsoleWarn "Presence update failed:" err]
          end.
Proof.
  intros H. unfold publishPresence.
  match goal with
  | |- context [if ?c then _ else _] => assert (E : c = false); [| rewrite E]
  end.
  { destruct H as [-> | [H | H]]; [reflexivity | |].
    - unfold movedSq in H. apply geb_ge in H. rewrite H.
      now rewrite andb_false_r.
    - apply geb_ge in H. rewrite H. now rewrite andb_false_r. }
  cbn [fst snd]. split; [reflexivity |].
  unfold discard, catch, mutation, updateCall. cbn [fst snd].
  destruct (Env.network env _); reflexivity.
Qed.

(** A publish the gate holds back. *)
Lemma publishPresence_held env m :
  movedSq env m
  < MultiplayerConfig.PRESENCE_MOVE_THRESHOLD_PX cfg
    * MultiplayerConfig.PRESENCE_MOVE_THRESHOLD_PX cfg ->
  Env.now env - lastPresenceSentAt m
  < MultiplayerConfig.PRESENCE_STATIONARY_HEARTBEAT_MS cfg ->
  publishPresence cfg env false m = (m, []).
Proof.
  intros Hm Hh. unfold publishPresence.
  unfold movedSq in Hm. apply geb_lt in Hm, Hh. rewrite Hm, Hh. reflexivity.
Qed.

Lemma mutationsOf_publish_sent env m :
  mutationsOf
    (Mutate (updateCall env m)
     :: match Env.network env (updateCall env m) with
        | None => []
        | Some err => [ConsoleWarn "Presence update failed:" err]
        end)
  = [updateCall env m].
Proof. destruct (Env.network env _); reflexivity. Qed.

(** Whatever the (non-negative) threshold and (positive) heartbeat are, a
    player who has moved exactly the threshold since the last publish has
    not exceeded it, and yet is published. *)
Lemma publish_at_threshold p :
  0 <= MultiplayerConfig.PRESENCE_MOVE_THRESHOLD_PX cfg ->
  0 < MultiplayerConfig.PRESENCE_STATIONARY_HEARTBEAT_MS cfg ->
  let env :=
    Env.mk false "town"
           (PlayerPosition.mk (MultiplayerConfig.PRESENCE_MOVE_THRESHOLD_PX cfg)
                              0 0 0 "right")
           false 0 (fun _ => None) in
  ~ publishDueStrict cfg env (create p)
  /\ mutationsOf (publishPresence cfg env false (create p)).2
     = [updateCall env (create p)].
Proof.
  intros HT HH env. split.
  - unfold publishDueStrict, movedSq. cbn. intros [H | H]; nra.
  - destruct (publishPresence_sent env false (create p)) as [_ He].
    + right. left. unfold movedSq. cbn. nra.
    + rewrite He. apply mutationsOf_publish_sent.
Qed.

(** *** [start] *)

Lemma start_member env m b :
  Env.isGuest env = false ->
  start cfg env (m, b)
  = let m' := (publishPresence cfg env true m).1 in
    let e := (publishPresence cfg env true m).2 in
    let id := Browser.nextId b in
    ((mk (profile m') (Some id) (Some (S (S id))) (Some (S id))
         (lastPresenceX m') (lastPresenceY m') (lastPresenceSentAt m')
         (Some (S (S (S id)))),
      Browser.mk (S (S (S (S id))))
        ((Browser.intervals b ++ [(id, PublishTick)]) ++ [(S (S id), SaveTick)])
        (Browser.listeners b
         ++ [("beforeunload"%string, S (S (S id)));
             ("pagehide"%string, S (S (S id)))])
        (Browser.subscriptions b ++ [S id])),
     [ConsoleLog
        ("[Presence] Starting for profile " ++ ProfileData.name (profile m)
         ++ " (" ++ ProfileData._id (profile m) ++ ") on map "
         ++ Env.getCurrentMapName env ++ "")%string]
     ++ (e ++ [SetInterval id (MultiplayerConfig.PRESENCE_INTERVAL_MS cfg)])
     ++ [OnUpdate (S id) (Env.getCurrentMapName env)]
     ++ [SetInterval (S (S id)) (MultiplayerConfig.SAVE_POSITION_INTERVAL_MS cfg);
         AddEventListener "beforeunload" (S (S (S id)));
         AddEventListener "pagehide" (S (S (S id)))]).
Proof.
  intros G. unfold start. rewrite G. cbn [negb].
  destruct (publishPresence cfg env true m) as [m' e]. reflexivity.
Qed.

Lemma start_guest env m b :
  Env.isGuest env = true ->
  start cfg env (m, b)
  = ((mk (profile m) (presenceTimer m) (saveTimer m) (Some (Browser.nextId b))
         (lastPresenceX m) (lastPresenceY m) (lastPresenceSentAt m)
         (unloadHandler m),
      Browser.mk (S (Browser.nextId b)) (Browser.intervals b)
                 (Browser.listeners b)
                 (Browser.subscriptions b ++ [Browser.nextId b])),
     [ConsoleLog
        ("[Presence] Starting for profile " ++ ProfileData.name (profile m)
         ++ " (" ++ ProfileData._id (profile m) ++ ") on map "
         ++ Env.getCurrentMapName env ++ " [GUEST - read-only]")%string;
      OnUpdate (Browser.nextId b) (Env.getCurrentMapName env)]).
Proof. intros G. unfold start. rewrite G. reflexivity. Qed.

Lemma find_interval_fresh (l : list (nat * Callback)) id rest :
  (forall i c, (i, c) ∈ l -> (i < id)%nat) ->
  List.find (fun kc => (kc.1 =? id)%nat) ((l ++ [(id, PublishTick)]) ++ rest)
  = Some (id, PublishTick).
Proof.
  induction l as [| [i c] l IH]; intros H.
  - cbn. rewrite Nat.eqb_refl. reflexivity.
  - cbn. replace (i =? id)%nat with false.
    + apply IH. intros i' c' Hin. apply (H i' c'). now right.
    + symmetry. apply Nat.eqb_neq.
      assert (i < id)%nat by (apply (H i c); now left). lia.
Qed.

(** C2, as the code has it. For a member (not a guest), [start] issues
    exactly one [presence.update], unconditionally, and installs the
    publish timer, each firing of which runs the gated publish. A gated
    publish sends [presence.update] and records position and time if the
    squared distance moved since the last publish is at least the squared
    threshold or the heartbeat interval has elapsed; otherwise it sends
    nothing and leaves the manager, hence [lastPresenceX],
    [lastPresenceY] and [lastPresenceSentAt], unchanged. *)
Theorem publish_gate :
  forall env m b,
    Env.isGuest env = false ->
    freshIds b ->
    let st' := (start cfg env (m, b)).1 in
    mutationsOf (start cfg env (m, b)).2 = [updateCall env m]
    /\ (exists id,
          presenceTimer st'.1 = Some id
          /\ forall env',
               fireInterval cfg env' id st'
               = (((publishPresence cfg env' false st'.1).1, st'.2),
                  (publishPresence cfg env' false st'.1).2))
    /\ forall env' m',
         (publishDue cfg env' m' ->
            mutationsOf (publishPresence cfg env' false m').2
            = [updateCall env' m']
            /\ lastPresenceX (publishPresence cfg env' false m').1
               = PlayerPosition.x (Env.getPlayerPosition env')
            /\ lastPresenceY (publishPresence cfg env' false m').1
               = PlayerPosition.y (Env.getPlayerPosition env')
            /\ lastPresenceSentAt (publishPresence cfg env' false m').1
               = Env.now env')
         /\ (~ publishDue cfg env' m' ->
               publishPresence cfg env' false m' = (m', [])).
Proof.
  intros env m b G Hfresh st'.
  destruct (publishPresence_sent env true m) as [Hm He]; [now left |].
  split; [| split].
  - rewrite (start_member env m b G). cbn zeta. cbn [snd].
    rewrite He, !mutationsOf_app, mutationsOf_publish_sent. reflexivity.
  - subst st'. rewrite (start_member env m b G). cbn zeta. cbn [fst snd].
    exists (Browser.nextId b). split; [reflexivity |].
    intros env'. unfold fireInterval. cbn [Browser.intervals].
    rewrite find_interval_fresh by exact Hfresh.
    destruct (publishPresence cfg env' false _) as [m1 e1]. reflexivity.
  - intros env' m'. split.
    + intros Hdue.
      destruct (publishPresence_sent env' false m') as [Hm' He'];
        [right; exact Hdue |].
      rewrite Hm', He', mutationsOf_publish_sent. cbn. repeat split.
    + intros Hnot. apply publishPresence_held.
      * apply Qnot_le_lt. intros H. apply Hnot. now left.
      * apply Qnot_le_lt. intros H. apply Hnot. now right.
Qed.

(** *** Rejected mutations *)

(** A mutation whose rejection is caught: the call, then whatever the
    handler does when the store rejects. *)
Lemma caught_mutation env mu (h : string -> list Effect) :
  discard (catch (mutation env mu) h)
  = Mutate mu :: match Env.network env mu with
                 | None => []
                 | Some err => h err
                 end.
Proof.
  unfold discard, catch, mutation. cbn [fst snd].
  destruct (Env.network env mu); reflexivity.
Qed.

Lemma settles_nil : settles [] [].
Proof. split; reflexivity. Qed.

Lemma settles_app es1 es2 es1' es2' :
  settles es1 es1' -> settles es2 es2' -> settles (es1 ++ es2) (es1' ++ es2').
Proof.
  intros [M1 U1] [M2 U2]. split.
  - rewrite !mutationsOf_app, M1, M2. reflexivity.
  - rewrite filter_app, U1, U2. reflexivity.
Qed.

Lemma settles_same es : filter isUnhandled es = [] -> settles es es.
Proof. intros H. split; [reflexivity | exact H]. Qed.

Lemma publishPresence_settles env force m net :
  (publishPresence cfg (withNetwork net env) force m).1
  = (publishPresence cfg env force m).1
  /\ settles (publishPresence cfg env force m).2
             (publishPresence cfg (withNetwork net env) force m).2.
Proof.
  unfold publishPresence. cbn [withNetwork Env.getPlayerPosition Env.now
    Env.getCurrentMapName Env.isPlayerMoving].
  destruct (negb force && _ && _).
  - split; [reflexivity | apply settles_nil].
  - cbn [fst snd]. split; [reflexivity |].
    rewrite !caught_mutation.
    destruct (Env.network env _), (Env.network (withNetwork net env) _);
      split; reflexivity.
Qed.

Lemma savePosition_settles env m net :
  settles (savePosition env m) (savePosition (withNetwork net env) m).
Proof.
  unfold savePosition. rewrite !caught_mutation.
  cbn [withNetwork Env.getPlayerPosition Env.getCurrentMapName].
  destruct (Env.network env _), (Env.network (withNetwork net env) _);
    split; reflexivity.
Qed.

Lemma removePresence_settles env m net :
  settles (removePresence env m) (removePresence (withNetwork net env) m).
Proof.
  unfold removePresence. rewrite !caught_mutation.
  destruct (Env.network env _), (Env.network (withNetwork net env) _);
    split; reflexivity.
Qed.

Lemma step_settles env ev st net :
  (step cfg (withNetwork net env) ev st).1 = (step cfg env ev st).1
  /\ settles (step cfg env ev st).2 (step cfg (withNetwork net env) ev st).2.
Proof.
  destruct st as [m b]. destruct ev as [| | id | w]; cbn [step].
  - (* start *)
    destruct (Env.isGuest env) eqn:G.
    + rewrite !start_guest by (cbn; exact G). cbn [fst snd].
      split; [reflexivity | now apply settles_same].
    + rewrite !start_member by (cbn; exact G). cbn zeta. cbn [fst snd].
      destruct (publishPresence_settles env true m net) as [-> Hs].
      split; [reflexivity |].
      cbn [withNetwork Env.getCurrentMapName].
      apply settles_app; [now apply settles_same |].
      apply settles_app; [| now apply settles_same].
      apply settles_app; [exact Hs | now apply settles_same].
  - (* stop *)
    unfold stop. cbn [withNetwork Env.isGuest].
    destruct (presenceTimer m), (saveTimer m), (presenceUnsub m),
      (unloadHandler m); cbn [fst snd]; (split; [reflexivity |]);
      repeat (apply settles_app; [now apply settles_same |]);
      (destruct (Env.isGuest env); cbn [negb];
       [apply settles_nil | apply removePresence_settles]).
  - (* an interval fires *)
    unfold fireInterval.
    destruct (List.find _ (Browser.intervals b)) as [[i [|]] |].
    + destruct (publishPresence_settles env false m net) as [Hm Hs].
      destruct (publishPresence cfg env false m) as [m1 e1].
      destruct (publishPresence cfg (withNetwork net env) false m) as [m2 e2].
      cbn [fst snd] in *. subst m2. split; [reflexivity | exact Hs].
    + cbn [fst snd]. split; [reflexivity | apply savePosition_settles].
    + cbn [fst snd]. split; [reflexivity | apply settles_nil].
  - (* a window event *)
    unfold fireWindowEvent. cbn [fst snd]. split; [reflexivity |].
    induction (Browser.listeners b) as [| eh l IH]; [apply settles_nil |].
    cbn [List.map concat]. apply settles_app; [| exact IH].
    destruct (String.eqb eh.1 w);
      [apply removePresence_settles | apply settles_nil].
Qed.

Lemma run_settles evs : forall st,
  (run cfg (allAccepted evs) st).1 = (run cfg evs st).1
  /\ settles (run cfg evs st).2 (run cfg (allAccepted evs) st).2.
Proof.
  induction evs as [| [env ev] rest IH]; intros st.
  - cbn. split; [reflexivity | apply settles_nil].
  - cbn [allAccepted List.map run fst snd].
    destruct (step_settles env ev st (fun _ => None)) as [Hst Hes].
    destruct (step cfg env ev st) as [st1 e1].
    destruct (step cfg (withNetwork (fun _ => None) env) ev st) as [st1' e1'].
    cbn [fst snd] in Hst, Hes. subst st1'.
    specialize (IH st1). fold (allAccepted rest).
    destruct (run cfg rest st1) as [st2 e2].
    destruct (run cfg (allAccepted rest) st1) as [st2' e2'].
    cbn [fst snd] in *. destruct IH as [-> IHs].
    split; [reflexivity | now apply settles_app].
Qed.

(** C6. Whatever the store answers to a publish, [publishPresence] leaves
    no unhandled rejection: a rejection is turned into one console
    warning. The manager state after the call does not depend on the
    answer, and a whole run of the manager under any store behaviour ends
    in the same state, and issues the same mutations in the same order, as
    the same run against a store that accepts everything, without any
    unhandled rejection. *)
Theorem publish_failure_swallowed :
  forall env force m,
    filter isUnhandled (publishPresence cfg env force m).2 = []
    /\ (forall err,
          Env.network env (updateCall env m) = Some err ->
          (publishPresence cfg env force m).2 = []
          \/ (publishPresence cfg env force m).2
             = [Mutate (updateCall env m);
                ConsoleWarn "Presence update failed:" err])
    /\ (forall net,
          (publishPresence cfg (withNetwork net env) force m).1
          = (publishPresence cfg env force m).1
          /\ mutationsOf (publishPresence cfg (withNetwork net env) force m).2
             = mutationsOf (publishPresence cfg env force m).2)
    /\ (forall evs st,
          (run cfg evs st).1 = (run cfg (allAccepted evs) st).1
          /\ mutationsOf (run cfg evs st).2
             = mutationsOf (run cfg (allAccepted evs) st).2
          /\ filter isUnhandled (run cfg evs st).2 = []).
Proof.
  intros env force m. split; [| split; [| split]].
  - apply (publishPresence_settles env force m (fun _ => None)).
  - intros err Herr. unfold publishPresence.
    destruct (negb force && _ && _); [now left | right].
    cbn [snd]. rewrite caught_mutation. fold (updateCall env m).
    rewrite Herr. reflexivity.
  - intros net. destruct (publishPresence_settles env force m net) as [Hm [Hs _]].
    split; [exact Hm | symmetry; exact Hs].
  - intros evs st. destruct (run_settles evs st) as [Hst [Hm Hu]].
    split; [symmetry; exact Hst |]. split; [exact Hm | exact Hu].
Qed.

(** *** Guest sessions *)

Lemma step_guest env ev st :
  Env.isGuest env = true ->
  readOnly st ->
  readOnly (step cfg env ev st).1 /\ mutationsOf (step cfg env ev st).2 = [].
Proof.
  intros G (Hp & Hs & Hu & Hi & Hl). destruct st as [m b]. cbn [fst snd] in *.
  destruct ev as [| | id | w]; cbn [step].
  - rewrite start_guest by exact G. cbn [fst snd].
    split; [| reflexivity]. repeat split; assumption.
  - unfold stop. rewrite Hp, Hs, Hu, G. cbn [negb].
    destruct (presenceUnsub m); cbn [fst snd];
      (split; [| reflexivity]); repeat split; assumption.
  - unfold fireInterval. rewrite Hi. cbn.
    split; [| reflexivity]. repeat split; assumption.
  - unfold fireWindowEvent. rewrite Hl. cbn.
    split; [| reflexivity]. repeat split; assumption.
Qed.

Lemma run_guest evs : forall st,
  guestOnly evs ->
  readOnly st ->
  readOnly (run cfg evs st).1 /\ mutationsOf (run cfg evs st).2 = [].
Proof.
  induction evs as [| [env ev] rest IH]; intros st Hg Hro.
  - cbn. split; [exact Hro | reflexivity].
  - apply Forall_cons in Hg as [G Hg]. cbn [fst] in G.
    cbn [run].
    destruct (step_guest env ev st G Hro) as [Hro1 Hm1].
    destruct (step cfg env ev st) as [st1 e1]. cbn [fst snd] in *.
    destruct (IH st1 Hg Hro1) as [Hro2 Hm2].
    destruct (run cfg rest st1) as [st2 e2]. cbn [fst snd] in *.
    split; [exact Hro2 |]. rewrite mutationsOf_app, Hm1, Hm2. reflexivity.
Qed.

(** C10. In a guest session the manager never issues a mutation, so it
    never calls [presence.update] or [presence.remove]: over any run of
    starts, stops, timer firings and window events from a fresh manager, no
    mutation is issued and no publish timer, save timer or unload handler
    is ever installed. In particular [start] only logs and subscribes to
    the presence feed, and [stop] skips the removal whatever the manager
    holds. *)
Theorem guest_never_writes_presence :
  forall evs p,
    guestOnly evs ->
    let res := run cfg evs (create p, Browser.empty) in
    mutationsOf res.2 = []
    /\ filter isPresenceWrite (mutationsOf res.2) = []
    /\ readOnly res.1
    /\ (forall env m b,
          Env.isGuest env = true ->
          exists msg,
            (start cfg env (m, b)).2
            = [ConsoleLog msg;
               OnUpdate (Browser.nextId b) (Env.getCurrentMapName env)]
            /\ presenceTimer (start cfg env (m, b)).1.1 = presenceTimer m
            /\ saveTimer (start cfg env (m, b)).1.1 = saveTimer m
            /\ unloadHandler (start cfg env (m, b)).1.1 = unloadHandler m
            /\ Browser.intervals (start cfg env (m, b)).1.2 = Browser.intervals b
            /\ Browser.listeners (start cfg env (m, b)).1.2 = Browser.listeners b)
    /\ (forall env m b,
          Env.isGuest env = true ->
          mutationsOf (stop env (m, b)).2 = []).
Proof.
  intros evs p Hg res.
  destruct (run_guest evs (create p, Browser.empty) Hg) as [Hro Hm].
  { repeat split. }
  subst res. split; [exact Hm |]. split; [now rewrite Hm |].
  split; [exact Hro |]. split.
  - intros env m b G. rewrite start_guest by exact G. cbn [fst snd].
    eexists. repeat split.
  - intros env m b G. unfold stop. rewrite G. cbn [negb].
    destruct (presenceTimer m), (saveTimer m), (presenceUnsub m),
      (unloadHandler m); reflexivity.
Qed.

End Presence.

Section PresenceInstances.

Import PresenceManager PresenceSpec NumFacts.

Lemma publish_gate_witness :
  Env.isGuest Session.joining = false
  /\ freshIds Browser.empty
  /\ mutationsOf
       (start Session.cfg Session.joining
              (create Session.profile, Browser.empty)).2
     = [updateCall Session.joining (create Session.profile)].
Proof.
  assert (F : freshIds Browser.empty).
  { intros id c H. cbn in H. apply elem_of_nil in H. contradiction. }
  split; [reflexivity |]. split; [exact F |].
  exact (proj1 (publish_gate Session.cfg Session.joining
                  (create Session.profile) Browser.empty eq_refl F)).
Defined.

(** C2 as worded fails twice. Exactly at the threshold (1 px moved, with a
    threshold of 1 px, one second after the last publish, with a heartbeat
    of 5 s) the squared distance exceeds neither the squared threshold nor
    the threshold, and the heartbeat has not elapsed, yet [publishPresence]
    sends the update and moves the recorded position; and in a guest
    session [start] performs no publish at all. *)
Lemma publish_gate_counterexample :
  ~ publishDueStrict Session.cfg Session.atThreshold Session.published
  /\ ~ publishDueLiteral Session.cfg Session.atThreshold Session.published
  /\ mutationsOf
       (publishPresence Session.cfg Session.atThreshold false
                        Session.published).2
     = [updateCall Session.atThreshold Session.published]
  /\ lastPresenceX
       (publishPresence Session.cfg Session.atThreshold false
                        Session.published).1 = 65
  /\ mutationsOf
       (start Session.cfg Session.guest
              (create Session.profile, Browser.empty)).2 = [].
Proof.
  split; [| split; [| split; [| split]]]; try reflexivity.
  - intros [H | H]; vm_compute in H; [discriminate |].
    apply H. reflexivity.
  - intros [H | H]; vm_compute in H; [discriminate |].
    apply H. reflexivity.
Qed.

Lemma guest_never_writes_witness :
  guestOnly Session.guestRun
  /\ mutationsOf
       (run Session.cfg Session.guestRun
            (create Session.profile, Browser.empty)).2 = [].
Proof.
  assert (G : guestOnly Session.guestRun) by (repeat constructor).
  split; [exact G |].
  exact (proj1 (guest_never_writes_presence Session.cfg Session.guestRun
                  Session.profile G)).
Defined.

Lemma publish_failure_witness :
  Env.network (withNetwork Session.offline Session.atThreshold)
              (updateCall (withNetwork Session.offline Session.atThreshold)
                          Session.published)
  = Some "offline"%string
  /\ filter isUnhandled
       (publishPresence Session.cfg
          (withNetwork Session.offline Session.atThreshold) false
          Session.published).2 = [].
Proof.
  split; [reflexivity |].
  exact (proj1 (publish_failure_swallowed Session.cfg
                  (withNetwork Session.offline Session.atThreshold) false
                  Session.published)).
Defined.

(** A publish against an unreachable store: the call, one warning. *)
Example publish_offline :
  (publishPresence Session.cfg
     (withNetwork Session.offline Session.atThreshold) false
     Session.published).2
  = [Mutate (updateCall Session.atThreshold Session.published);
     ConsoleWarn "Presence update failed:" "offline"].
Proof. reflexivity. Qed.

(** Below the threshold and before the heartbeat nothing is sent. *)
Example publish_below_threshold :
  publishPresence Session.cfg Session.belowThreshold false Session.published
  = (Session.published, []).
Proof. reflexivity. Qed.

End PresenceInstances.

(** ** Combat settings inputs of the map editor *)

Section EditorInputs.

Import MapEditorPanel EditorSpec NumFacts.

Variable cfg : CombatConfig.t.

Lemma round_nearest q :
  exists z : Z, round q = inject_Z z /\ q - (1 # 2) < inject_Z z <= q + (1 # 2).
Proof.
  exists (Qfloor (q + (1 # 2))). split; [reflexivity |].
  pose proof (Qfloor_le (q + (1 # 2))) as Hle.
  pose proof (Qlt_floor (q + (1 # 2))) as Hlt.
  rewrite inject_Z_plus in Hlt. change (inject_Z 1) with 1 in Hlt.
  split; lra.
Qed.

Lemma clamp_range lo hi v :
  lo <= hi -> lo <= Num.max lo (Num.min hi v) <= hi.
Proof.
  intros H.
  destruct (min_spec hi v) as [[H1 ->] | [H1 ->]].
  - destruct (max_spec lo hi) as [[H2 ->] | [H2 ->]]; lra.
  - destruct (max_spec lo v) as [[H2 ->] | [H2 ->]]; lra.
Qed.

Lemma clamp_choice lo hi v :
  Num.max lo (Num.min hi v) = lo
  \/ Num.max lo (Num.min hi v) = hi
  \/ Num.max lo (Num.min hi v) = v.
Proof.
  destruct (min_spec hi v) as [[H1 ->] | [H1 ->]].
  - destruct (max_spec lo hi) as [[H2 ->] | [H2 ->]]; auto.
  - destruct (max_spec lo v) as [[H2 ->] | [H2 ->]]; auto.
Qed.

Lemma handler_finite s q md :
  stored s (handler cfg s (Finite q) (Some md))
  = Some (Num.max (lowerBound cfg s) (Num.min (upperBound cfg s) (round q)))
  /\ forall s', s' <> s ->
       stored s' (handler cfg s (Finite q) (Some md)) = stored s' (Some md).
Proof.
  split.
  - destruct s; reflexivity.
  - intros s' Hne. unfold stored, handler.
    destruct s, s'; try contradiction; cbn;
      unfold settingsOrEmpty; destruct (MapData.combatSettings md); reflexivity.
Qed.

(** C9. For each of the four combat settings, with its configured bounds
    in order: a finite input is rounded to the nearest integer and the
    stored value is that integer clamped into [[min, max]], hence within
    the bounds, and an integer whenever the bounds are; the other three
    settings are untouched. A non-finite input (NaN or an infinity), or a
    missing map, leaves the map data unchanged. *)
Theorem combat_setting_rounded_and_clamped :
  forall s n mapData,
    lowerBound cfg s <= upperBound cfg s ->
    (forall q md,
       n = Finite q -> mapData = Some md ->
       exists v z,
         stored s (handler cfg s n mapData) = Some v
         /\ round q = inject_Z z
         /\ q - (1 # 2) < inject_Z z <= q + (1 # 2)
         /\ v = Num.max (lowerBound cfg s)
                        (Num.min (upperBound cfg s) (inject_Z z))
         /\ lowerBound cfg s <= v <= upperBound cfg s
         /\ (isInteger (lowerBound cfg s) -> isInteger (upperBound cfg s) ->
             isInteger v)
         /\ forall s', s' <> s ->
              stored s' (handler cfg s n mapData) = stored s' mapData)
    /\ (isFinite n = false -> handler cfg s n mapData = mapData)
    /\ (mapData = None -> handler cfg s n mapData = None).
Proof.
  intros s n mapData Hb. split; [| split].
  - intros q md -> ->.
    destruct (round_nearest q) as (z & Hz & Hnear).
    destruct (handler_finite s q md) as [Hst Hother].
    eexists. exists z. split; [exact Hst |]. split; [exact Hz |].
    split; [exact Hnear |]. rewrite Hz. split; [reflexivity |].
    split; [now apply clamp_range |]. split; [| exact Hother].
    intros Hlo Hhi.
    destruct (clamp_choice (lowerBound cfg s) (upperBound cfg s) (inject_Z z))
      as [-> | [-> | ->]]; [exact Hlo | exact Hhi |].
    exists z. reflexivity.
  - intros Hn. destruct n; [discriminate | | |];
      destruct s, mapData; reflexivity.
  - intros ->. destruct s, n; reflexivity.
Qed.

End EditorInputs.

Section EditorInstances.

Import MapEditorPanel EditorSpec.

(** [Math.round] rounds halves upwards: 2.5 to 3, -2.5 to -2. *)
Example round_halves :
  round (5 # 2) = 3 /\ round (-5 # 2) = -2 /\ round (149 # 100) = 1.
Proof. repeat split. Qed.

(** An empty field reads as 0 and stores the lower bound. *)
Example empty_field_stores_minimum :
  stored AttackRangePx (handler bounds AttackRangePx (Finite 0) (Some someMap))
  = Some 16.
Proof. reflexivity. Qed.

Lemma combat_setting_witness :
  lowerBound bounds AttackRangePx <= upperBound bounds AttackRangePx
  /\ stored AttackRangePx
       (handler bounds AttackRangePx (Finite (3001 # 10)) (Some someMap))
     = Some 256
  /\ handler bounds AttackRangePx NaN (Some someMap) = Some someMap.
Proof.
  assert (B : lowerBound bounds AttackRangePx <= upperBound bounds AttackRangePx)
    by (vm_compute; discriminate).
  split; [exact B |]. split; [reflexivity |].
  exact (proj1 (proj2 (combat_setting_rounded_and_clamped bounds AttackRangePx
                         NaN (Some someMap) B)) eq_refl).
Defined.

End EditorInstances.

(** ** Combat Resolver *)

Section CombatResolver.

Import Combat CombatSpec NumFacts.

Variables (tn : Tuning.t) (s : Settings.t).

Implicit Types (r : Request.t) (st : Store.t)
  (e : Store.t * Outcome.t * Store.t).

(** A resolution either rejects and touches nothing, or succeeds outside
    the cooldown window and stamps [lastHitAt]. *)
Lemma attack_cases r st :
  quiet (st, (attack tn s r st).1, (attack tn s r st).2)
  \/ (Outcome.success (attack tn s r st).1 = true
      /\ NpcState.lastHitAt (Store.npc (attack tn s r st).2)
         = Some (Request.now r)).
Proof.
  unfold attack.
  destruct (negb (Settings.combatEnabled s)); [left; repeat split |].
  destruct (negb (inRange s (Store.npc st) r)); [left; repeat split |].
  destruct (NpcState.defeatedAt (Store.npc st)); [left; repeat split |].
  destruct (cooldownActive s (Store.npc st) (Request.now r));
    [left; repeat split |].
  destruct (Qle_bool _ 0); right; split; reflexivity.
Qed.

(** Inside the cooldown window of the last hit every resolution rejects. *)
Lemma attack_in_cooldown r st t :
  NpcState.lastHitAt (Store.npc st) = Some t ->
  Request.now r - t < Settings.npcHitCooldownMs s ->
  quiet (st, (attack tn s r st).1, (attack tn s r st).2).
Proof.
  intros Hl Hw. unfold attack.
  destruct (negb (Settings.combatEnabled s)); [repeat split |].
  destruct (negb (inRange s (Store.npc st) r)); [repeat split |].
  destruct (NpcState.defeatedAt (Store.npc st)); [repeat split |].
  unfold cooldownActive. rewrite Hl.
  replace (Num.ltb (Request.now r - t) (Settings.npcHitCooldownMs s)) with true
    by (symmetry; now apply ltb_lt).
  repeat split.
Qed.

Lemma quiet_counts e :
  quiet e -> succeeded e = false /\ hpDeducted e = false /\ rewardGranted e = false.
Proof.
  intros (Hs & Hst & Hx & Hl). split; [exact Hs |]. split.
  - unfold hpDeducted. rewrite Hst.
    replace (Qeq_bool _ _) with true; [reflexivity |].
    symmetry. apply Qeq_bool_iff. reflexivity.
  - unfold rewardGranted. rewrite Hx, Hl, Hst. cbn [orb].
    replace (Qeq_bool _ _) with true
      by (symmetry; apply Qeq_bool_iff; reflexivity).
    rewrite !Nat.eqb_refl. reflexivity.
Qed.

Lemma count_cons {A} (f : A -> bool) x l :
  count f (x :: l) = ((if f x then 1 else 0) + count f l)%nat.
Proof. unfold count. cbn. destruct (f x); reflexivity. Qed.

(** After a hit at [t], deliveries inside its window are all quiet. *)
Lemma resolveAll_after_hit rs : forall st t,
  NpcState.lastHitAt (Store.npc st) = Some t ->
  (forall r, r ∈ rs -> Request.now r - t < Settings.npcHitCooldownMs s) ->
  forall e, e ∈ resolveAll tn s rs st -> quiet e.
Proof.
  induction rs as [| r rest IH]; intros st t Hl Hw e He.
  - cbn in He. apply elem_of_nil in He. contradiction.
  - cbn [resolveAll] in He.
    pose proof (attack_in_cooldown r st t Hl) as Hq.
    lapply Hq; [clear Hq; intros Hq | apply Hw; now left].
    destruct (attack tn s r st) as [o st'] eqn:E. cbn [fst snd] in Hq.
    apply elem_of_cons in He as [-> | He]; [exact Hq |].
    destruct Hq as (_ & Hst & _). cbn [fst snd] in Hst. subst st'.
    apply (IH st t Hl); [| exact He].
    intros r' Hr'. apply Hw. now right.
Qed.

Lemma quiet_all_counts (l : list (Store.t * Outcome.t * Store.t)) :
  (forall e, e ∈ l -> quiet e) ->
  count succeeded l = 0%nat /\ count hpDeducted l = 0%nat
  /\ count rewardGranted l = 0%nat.
Proof.
  induction l as [| e l IH]; intros H; [repeat split |].
  destruct IH as (I1 & I2 & I3); [intros e' He'; apply H; now right |].
  destruct (quiet_counts e) as (Q1 & Q2 & Q3); [apply H; now left |].
  rewrite !count_cons, Q1, Q2, Q3, I1, I2, I3. repeat split.
Qed.

(** C7. A request delivered any number of times within one cooldown
    window (all resolution times inside an interval shorter than
    [npcHitCooldownMs]) is applied at most once: at most one delivery
    succeeds, at most one deducts HP and at most one grants a reward; every
    other delivery is rejected with a reason and leaves the target, the
    experience and the loot untouched. *)
Theorem no_double_damage :
  forall rs st lo,
    (forall r, r ∈ rs ->
       lo <= Request.now r < lo + Settings.npcHitCooldownMs s) ->
    (count succeeded (resolveAll tn s rs st) <= 1)%nat
    /\ (count hpDeducted (resolveAll tn s rs st) <= 1)%nat
    /\ (count rewardGranted (resolveAll tn s rs st) <= 1)%nat
    /\ (forall e, e ∈ resolveAll tn s rs st -> succeeded e = false ->
          e.2 = e.1.1 /\ is_Some (Outcome.reason e.1.2)).
Proof.
  intros rs st lo Hw.
  assert (Counts :
    (count succeeded (resolveAll tn s rs st) <= 1)%nat
    /\ (count hpDeducted (resolveAll tn s rs st) <= 1)%nat
    /\ (count rewardGranted (resolveAll tn s rs st) <= 1)%nat).
  { revert st. induction rs as [| r rest IH]; intros st.
    - cbn. unfold count. cbn. lia.
    - cbn [resolveAll].
      pose proof (attack_cases r st) as Hc.
      destruct (attack tn s r st) as [o st'] eqn:E. cbn [fst snd] in Hc.
      rewrite !count_cons.
      destruct Hc as [Hq | [Hs Hl]].
      + destruct (quiet_counts _ Hq) as (Q1 & Q2 & Q3). rewrite Q1, Q2, Q3.
        destruct Hq as (_ & Hst & _). cbn [fst snd] in Hst. subst st'.
        apply IH. intros r' Hr'. apply Hw. now right.
      + destruct (quiet_all_counts (resolveAll tn s rest st')) as (Z1 & Z2 & Z3).
        { apply (resolveAll_after_hit rest st' (Request.now r) Hl).
          intros r' Hr'.
          assert (H1 : lo <= Request.now r < lo + Settings.npcHitCooldownMs s)
            by (apply Hw; now left).
          assert (H2 : lo <= Request.now r' < lo + Settings.npcHitCooldownMs s)
            by (apply Hw; now right).
          lra. }
        rewrite Z1, Z2, Z3.
        destruct (succeeded _), (hpDeducted _), (rewardGranted _); cbn; lia. }
  destruct Counts as (C1 & C2 & C3).
  split; [exact C1 |]. split; [exact C2 |]. split; [exact C3 |].
  clear C1 C2 C3 Hw. revert st.
  induction rs as [| r rest IH]; intros st e He Hf.
  - cbn in He. apply elem_of_nil in He. contradiction.
  - cbn [resolveAll] in He.
    destruct (attack tn s r st) as [o st'] eqn:E.
    apply elem_of_cons in He as [-> | He]; [| exact (IH st' e He Hf)].
    unfold succeeded in Hf. cbn [fst snd] in *.
    unfold attack in E.
    destruct (negb (Settings.combatEnabled s));
      [injection E as <- <-; split; [reflexivity | cbn; eauto] |].
    destruct (negb (inRange s (Store.npc st) r));
      [injection E as <- <-; split; [reflexivity | cbn; eauto] |].
    destruct (NpcState.defeatedAt (Store.npc st));
      [injection E as <- <-; split; [reflexivity | cbn; eauto] |].
    destruct (cooldownActive s (Store.npc st) (Request.now r));
      [injection E as <- <-; split; [reflexivity | cbn; eauto] |].
    destruct (Qle_bool _ 0); injection E as <- <-; cbn in Hf; discriminate.
Qed.

End CombatResolver.

Section CombatInstances.

Import Combat CombatSpec.

(** The first delivery of the scenario hits for 6.6 and leaves 23.4 HP;
    the two repeats are rejected by the cooldown. *)
Example deliveries_outcomes :
  List.map (fun e => (Outcome.success e.1.2, Outcome.reason e.1.2))
           (resolveAll tuning settings deliveries store)
  = [(true, None);
     (false, Some "cooldown active"%string);
     (false, Some "cooldown active"%string)].
Proof. vm_compute. reflexivity. Qed.

Lemma no_double_damage_witness :
  (forall r, r ∈ deliveries ->
     5000 <= Request.now r < 5000 + Settings.npcHitCooldownMs settings)
  /\ (count succeeded (resolveAll tuning settings deliveries store) <= 1)%nat.
Proof.
  assert (W : forall r, r ∈ deliveries ->
                5000 <= Request.now r < 5000 + Settings.npcHitCooldownMs settings).
  { intros r Hr. unfold deliveries in Hr.
    repeat (apply elem_of_cons in Hr as [-> | Hr]);
      [| | | apply elem_of_nil in Hr; contradiction];
      cbn; split; vm_compute; congruence. }
  split; [exact W |].
  exact (proj1 (no_double_damage tuning settings deliveries store 5000 W)).
Defined.

End CombatInstances.

(** ** [PresenceManager]: freshness of the record, release of handles *)

Section PresenceMore.

Import PresenceManager PresenceSpec PresenceHandles NumFacts.

Variable cfg : MultiplayerConfig.t.

Implicit Types (env : Env.t) (m : PresenceManager.t) (b : Browser.t).

(** X1. After any call of [publishPresence], forced or not, sent or held back,
    the recorded position is within the movement threshold of the player
    and the recorded time is less than one heartbeat old. *)
Theorem publish_keeps_record_fresh :
  forall env force m,
    0 < MultiplayerConfig.PRESENCE_MOVE_THRESHOLD_PX cfg ->
    0 < MultiplayerConfig.PRESENCE_STATIONARY_HEARTBEAT_MS cfg ->
    let m' := (publishPresence cfg env force m).1 in
    movedSq env m'
    < MultiplayerConfig.PRESENCE_MOVE_THRESHOLD_PX cfg
      * MultiplayerConfig.PRESENCE_MOVE_THRESHOLD_PX cfg
    /\ Env.now env - lastPresenceSentAt m'
       < MultiplayerConfig.PRESENCE_STATIONARY_HEARTBEAT_MS cfg.
Proof.
  intros env force m HT HH. cbn zeta.
  assert (Sent : force = true
                 \/ publishDue cfg env m ->
                 movedSq env (publishPresence cfg env force m).1
                 < MultiplayerConfig.PRESENCE_MOVE_THRESHOLD_PX cfg
                   * MultiplayerConfig.PRESENCE_MOVE_THRESHOLD_PX cfg
                 /\ Env.now env - lastPresenceSentAt (publishPresence cfg env force m).1
                    < MultiplayerConfig.PRESENCE_STATIONARY_HEARTBEAT_MS cfg).
  { intros Hs.
    destruct (publishPresence_sent cfg env force m) as [-> _].
    - destruct Hs as [-> | [H | H]]; [now left | right; now left | right; now right].
    - unfold movedSq. cbn [lastPresenceX lastPresenceY lastPresenceSentAt].
      split; nra. }
  destruct force; [apply Sent; now left |].
  destruct (Qlt_le_dec (movedSq env m)
              (MultiplayerConfig.PRESENCE_MOVE_THRESHOLD_PX cfg
               * MultiplayerConfig.PRESENCE_MOVE_THRESHOLD_PX cfg)) as [Hm | Hm];
    [| apply Sent; right; now left].
  destruct (Qlt_le_dec (Env.now env - lastPresenceSentAt m)
              (MultiplayerConfig.PRESENCE_STATIONARY_HEARTBEAT_MS cfg)) as [Hh | Hh];
    [| apply Sent; right; now right].
  rewrite (publishPresence_held cfg env m Hm Hh). cbn [fst]. split; assumption.
Qed.

Lemma removeInterval_fresh (l : list (nat * Callback)) id :
  (forall i c, (i, c) ∈ l -> i <> id) -> removeInterval id l = l.
Proof.
  intros H. unfold removeInterval.
  induction l as [| [i c] l IH]; [reflexivity |].
  rewrite filter_cons_True by (cbn; apply (H i c); now left).
  f_equal. apply IH. intros i' c' Hin. apply (H i' c'). now right.
Qed.

Lemma removeListener_fresh (l : list (string * nat)) id :
  (forall ev i, (ev, i) ∈ l -> i <> id) -> removeListener id l = l.
Proof.
  intros H. unfold removeListener.
  induction l as [| [ev i] l IH]; [reflexivity |].
  rewrite filter_cons_True by (cbn; apply (H ev i); now left).
  f_equal. apply IH. intros ev' i' Hin. apply (H ev' i'). now right.
Qed.

Lemma removeSubscription_fresh (l : list nat) id :
  (forall i, i ∈ l -> i <> id) -> filter (fun s => s ≠ id) l = l.
Proof.
  intros H. induction l as [| i l IH]; [reflexivity |].
  rewrite filter_cons_True by (apply (H i); now left).
  f_equal. apply IH. intros i' Hin. apply (H i'). now right.
Qed.

Lemma removeInterval_app id (l1 l2 : list (nat * Callback)) :
  removeInterval id (l1 ++ l2) = removeInterval id l1 ++ removeInterval id l2.
Proof. apply filter_app. Qed.

Lemma removeListener_app id (l1 l2 : list (string * nat)) :
  removeListener id (l1 ++ l2) = removeListener id l1 ++ removeListener id l2.
Proof. apply filter_app. Qed.

Lemma removeInterval_snoc_same (l : list (nat * Callback)) id c :
  (forall i c', (i, c') ∈ l -> i <> id) ->
  removeInterval id (l ++ [(id, c)]) = l.
Proof.
  intros H. rewrite removeInterval_app, (removeInterval_fresh l id H).
  unfold removeInterval. rewrite filter_cons_False by (cbn; intros E; now apply E).
  rewrite filter_nil. apply app_nil_r.
Qed.

Lemma removeInterval_snoc_other (l : list (nat * Callback)) id id' c :
  id' <> id ->
  removeInterval id (l ++ [(id', c)]) = removeInterval id l ++ [(id', c)].
Proof.
  intros H. rewrite removeInterval_app. f_equal.
  unfold removeInterval. rewrite filter_cons_True by exact H. reflexivity.
Qed.

Lemma handlesBelow_intervals b i c n :
  handlesBelow b -> (Browser.nextId b <= n)%nat ->
  (i, c) ∈ Browser.intervals b -> i <> n.
Proof. intros (H & _ & _) Hn Hin. specialize (H i c Hin). lia. Qed.

Lemma handlesBelow_listeners b ev i n :
  handlesBelow b -> (Browser.nextId b <= n)%nat ->
  (ev, i) ∈ Browser.listeners b -> i <> n.
Proof. intros (_ & H & _) Hn Hin. specialize (H ev i Hin). lia. Qed.

Lemma handlesBelow_subscriptions b i n :
  handlesBelow b -> (Browser.nextId b <= n)%nat ->
  i ∈ Browser.subscriptions b -> i <> n.
Proof. intros (_ & _ & H) Hn Hin. specialize (H i Hin). lia. Qed.

Lemma removalsOf_removePresence env m :
  removalsOf (removePresence env m) = [ProfileData._id (profile m)].
Proof.
  unfold removePresence, discard, catch, mutation. cbn [fst snd].
  destruct (Env.network env _); reflexivity.
Qed.

Lemma removalsOf_app es1 es2 :
  removalsOf (es1 ++ es2) = removalsOf es1 ++ removalsOf es2.
Proof. unfold removalsOf. apply omap_app. Qed.

Lemma publishPresence_profile env force m :
  profile (publishPresence cfg env force m).1 = profile m.
Proof. unfold publishPresence. destruct (_ && _); reflexivity. Qed.

Lemma start_stop_listeners :
  forall env1 env2 m b,
    idle m ->
    handlesBelow b ->
    Browser.listeners (stop env2 (start cfg env1 (m, b)).1).1.2
    = Browser.listeners b.
Proof.
  intros env1 env2 m b (Hp & Hs & Hu) Hb.
  destruct (Env.isGuest env1) eqn:G.
  - rewrite (start_guest cfg env1 m b G). cbn [fst].
    unfold stop. cbn [presenceTimer saveTimer presenceUnsub unloadHandler].
    rewrite Hp, Hs, Hu. reflexivity.
  - rewrite (start_member cfg env1 m b G). cbn zeta. cbn [fst].
    unfold stop. cbn [presenceTimer saveTimer presenceUnsub unloadHandler].
    cbn [fst snd Browser.intervals Browser.listeners Browser.subscriptions
         Browser.nextId].
    set (n := Browser.nextId b).
    rewrite removeListener_app, (removeListener_fresh (Browser.listeners b))
      by (intros ev i Hi; apply (handlesBelow_listeners b ev i _ Hb); [subst n; lia | exact Hi]).
    unfold removeListener.
    rewrite !filter_cons_False by (cbn; intros E; now apply E).
    rewrite filter_nil, app_nil_r. reflexivity.
Qed.

(** X2. [start] followed by [stop] gives back to the browser everything [start]
    took: for an idle manager, the browser's intervals, window listeners
    and subscriptions are afterwards exactly what they were before, the
    manager holds no handle, and [stop] calls [presence.remove] once for
    the profile, or not at all in a guest session. *)
Theorem start_stop_releases :
  forall env1 env2 m b,
    idle m ->
    handlesBelow b ->
    let res := stop env2 (start cfg env1 (m, b)).1 in
    Browser.intervals res.1.2 = Browser.intervals b
    /\ Browser.listeners res.1.2 = Browser.listeners b
    /\ Browser.subscriptions res.1.2 = Browser.subscriptions b
    /\ presenceTimer res.1.1 = None
    /\ saveTimer res.1.1 = None
    /\ presenceUnsub res.1.1 = None
    /\ unloadHandler res.1.1 = None
    /\ removalsOf res.2
       = if Env.isGuest env2 then [] else [ProfileData._id (profile m)].
Proof.
  intros env1 env2 m b (Hp & Hs & Hu) Hb. cbn zeta.
  destruct (Env.isGuest env1) eqn:G.
  - rewrite (start_guest cfg env1 m b G). cbn [fst].
    unfold stop. cbn [presenceTimer saveTimer presenceUnsub unloadHandler].
    rewrite Hp, Hs, Hu. cbn [fst snd Browser.intervals Browser.listeners
      Browser.subscriptions Browser.nextId app].
    rewrite filter_app, (removeSubscription_fresh (Browser.subscriptions b))
      by (intros i Hi; exact (handlesBelow_subscriptions b i _ Hb (Nat.le_refl _) Hi)).
    rewrite filter_cons_False by (intros E; now apply E).
    rewrite filter_nil, app_nil_r.
    repeat (split; [reflexivity |]).
    destruct (Env.isGuest env2); cbn [negb]; [reflexivity |].
    rewrite ?removalsOf_app.
    change (removalsOf (removePresence env2
              (mk (profile m) None None None (lastPresenceX m)
                  (lastPresenceY m) (lastPresenceSentAt m) None))
            = [ProfileData._id (profile m)]).
    etransitivity; [apply removalsOf_removePresence | reflexivity].
  - rewrite (start_member cfg env1 m b G). cbn zeta. cbn [fst].
    unfold stop. cbn [presenceTimer saveTimer presenceUnsub unloadHandler].
    cbn [fst snd Browser.intervals Browser.listeners Browser.subscriptions
         Browser.nextId].
    set (n := Browser.nextId b).
    rewrite (removeInterval_snoc_other _ n (S (S n))) by lia.
    rewrite (removeInterval_snoc_same _ n)
      by (intros i c Hi; exact (handlesBelow_intervals b i c n Hb (Nat.le_refl _) Hi)).
    rewrite (removeInterval_snoc_same _ (S (S n)))
      by (intros i c Hi; apply (handlesBelow_intervals b i c _ Hb); [subst n; lia | exact Hi]).
    rewrite filter_app, (removeSubscription_fresh (Browser.subscriptions b))
      by (intros i Hi; apply (handlesBelow_subscriptions b i _ Hb); [subst n; lia | exact Hi]).
    rewrite filter_cons_False by (intros E; now apply E).
    rewrite filter_nil, app_nil_r.
    rewrite removeListener_app, (removeListener_fresh (Browser.listeners b))
      by (intros ev i Hi; apply (handlesBelow_listeners b ev i _ Hb); [subst n; lia | exact Hi]).
    unfold removeListener.
    rewrite !filter_cons_False by (cbn; intros E; now apply E).
    rewrite filter_nil, app_nil_r.
    repeat (split; [reflexivity |]).
    destruct (Env.isGuest env2); cbn [negb]; [reflexivity |].
    rewrite <- (publishPresence_profile env1 true m).
    set (m1 := (publishPresence cfg env1 true m).1).
    change (removalsOf (removePresence env2
              (mk (profile m1) None None None (lastPresenceX m1)
                  (lastPresenceY m1) (lastPresenceSentAt m1) None))
            = [ProfileData._id (profile m1)]).
    etransitivity; [apply removalsOf_removePresence | reflexivity].
Qed.


Lemma removePresence_mutations env m :
  mutationsOf (removePresence env m)
  = [presence_remove (ProfileData._id (profile m))].
Proof.
  unfold removePresence, discard, catch, mutation. cbn [fst snd].
  destruct (Env.network env _); reflexivity.
Qed.

(** X3. While a member's manager is started, each [beforeunload] or [pagehide]
    event issues exactly one [presence.remove] for the profile and nothing
    else, other window events issue nothing, and the manager is unchanged;
    once it is stopped, window events issue nothing at all. *)
Theorem unload_removes_presence :
  forall env1 env2 env ev m b,
    Env.isGuest env1 = false ->
    idle m ->
    handlesBelow b ->
    Browser.listeners b = [] ->
    let st1 := (start cfg env1 (m, b)).1 in
    let st2 := (stop env2 st1).1 in
    (fireWindowEvent env ev st1).1 = st1
    /\ mutationsOf (fireWindowEvent env ev st1).2
       = (if String.eqb "beforeunload" ev || String.eqb "pagehide" ev
          then [presence_remove (ProfileData._id (profile m))] else [])
    /\ (fireWindowEvent env ev st2).2 = [].
Proof.
  intros env1 env2 env ev m b G Hidle Hb Hl. cbn zeta.
  split; [destruct (start cfg env1 (m, b)).1; reflexivity |]. split.
  - rewrite (start_member cfg env1 m b G). cbn zeta. cbn [fst].
    unfold fireWindowEvent. cbn [snd Browser.listeners].
    rewrite Hl. cbn [app List.map concat fst].
    rewrite !mutationsOf_app.
    destruct (String.eqb "beforeunload" ev) eqn:E1;
      destruct (String.eqb "pagehide" ev) eqn:E2; cbn [orb].
    + apply String.eqb_eq in E1, E2. congruence.
    + rewrite removePresence_mutations. cbn [profile].
      rewrite publishPresence_profile. reflexivity.
    + rewrite removePresence_mutations. cbn [profile].
      rewrite publishPresence_profile. reflexivity.
    + reflexivity.
  - pose proof (start_stop_listeners env1 env2 m b Hidle Hb) as Hls.
    unfold fireWindowEvent.
    destruct (stop env2 (start cfg env1 (m, b)).1) as [[m2 b2] e2].
    cbn [fst snd] in *. rewrite Hls, Hl. reflexivity.
Qed.

(** X4. [start] does not clear what an earlier [start] installed: after two
    starts and one stop of a member's manager the browser still holds the
    publish timer, the save timer, the two window listeners and the
    subscription of the first start, and that publish timer still runs the
    gated publish when it fires. *)
Theorem restart_keeps_first_timers :
  forall env1 env2 env3 m b,
    Env.isGuest env1 = false ->
    Env.isGuest env2 = false ->
    handlesBelow b ->
    let n := Browser.nextId b in
    let res := stop env3 (start cfg env2 (start cfg env1 (m, b)).1).1 in
    Browser.intervals res.1.2
    = Browser.intervals b ++ [(n, PublishTick); (S (S n), SaveTick)]
    /\ Browser.listeners res.1.2
       = Browser.listeners b
         ++ [("beforeunload"%string, S (S (S n)));
             ("pagehide"%string, S (S (S n)))]
    /\ Browser.subscriptions res.1.2 = Browser.subscriptions b ++ [S n]
    /\ forall env,
         fireInterval cfg env n res.1
         = (((publishPresence cfg env false res.1.1).1, res.1.2),
            (publishPresence cfg env false res.1.1).2).
Proof.
  intros env1 env2 env3 m b G1 G2 Hb. cbn zeta.
  rewrite (start_member cfg env1 m b G1). cbn zeta. cbn [fst].
  rewrite (start_member cfg env2 _ _ G2). cbn zeta. cbn [fst].
  unfold stop. cbn [presenceTimer saveTimer presenceUnsub unloadHandler].
  cbn [fst snd Browser.intervals Browser.listeners Browser.subscriptions
       Browser.nextId].
  set (n := Browser.nextId b).
  assert (Hi : forall k, (n <= k)%nat ->
             forall i c, (i, c) ∈ Browser.intervals b -> i <> k).
  { intros k Hk i c Hin. apply (handlesBelow_intervals b i c k Hb); [exact Hk | exact Hin]. }
  assert (Hls : forall k, (n <= k)%nat ->
             forall ev i, (ev, i) ∈ Browser.listeners b -> i <> k).
  { intros k Hk ev i Hin. apply (handlesBelow_listeners b ev i k Hb); [exact Hk | exact Hin]. }
  assert (Hsu : forall k, (n <= k)%nat ->
             forall i, i ∈ Browser.subscriptions b -> i <> k).
  { intros k Hk i Hin. apply (handlesBelow_subscriptions b i k Hb); [exact Hk | exact Hin]. }
  assert (E1 : removeInterval (S (S (S (S (S (S n))))))
                 (removeInterval (S (S (S (S n))))
                    ((((Browser.intervals b ++ [(n, PublishTick)])
                       ++ [(S (S n), SaveTick)])
                      ++ [(S (S (S (S n))), PublishTick)])
                     ++ [(S (S (S (S (S (S n))))), SaveTick)]))
               = Browser.intervals b ++ [(n, PublishTick); (S (S n), SaveTick)]).
  { assert (HY : forall k, (S (S (S n)) <= k)%nat ->
               forall i c,
                 (i, c) ∈ (Browser.intervals b ++ [(n, PublishTick)])
                          ++ [(S (S n), SaveTick)] -> i <> k).
    { intros k Hk i c Hin. repeat (apply elem_of_app in Hin as [Hin | Hin]).
      - refine (Hi _ _ i c Hin); lia.
      - apply list_elem_of_singleton in Hin. injection Hin as -> _. lia.
      - apply list_elem_of_singleton in Hin. injection Hin as -> _. lia. }
    rewrite removeInterval_snoc_other by lia.
    rewrite (removeInterval_snoc_same _ (S (S (S (S n))))) by (apply HY; lia).
    rewrite removeInterval_snoc_same by (apply HY; lia).
    now rewrite <- app_assoc. }
  rewrite E1.
  split; [reflexivity |]. split; [| split].
  - rewrite removeListener_app, removeListener_app.
    rewrite (removeListener_fresh (Browser.listeners b)) by (apply Hls; lia).
    unfold removeListener.
    rewrite !filter_cons_True by (cbn; lia).
    rewrite !filter_cons_False by (cbn; intros E; now apply E).
    rewrite !filter_nil, app_nil_r. reflexivity.
  - rewrite !filter_app.
    rewrite (removeSubscription_fresh (Browser.subscriptions b)) by (apply Hsu; lia).
    rewrite filter_cons_True by lia.
    rewrite filter_cons_False by (intros E; now apply E).
    rewrite !filter_nil, app_nil_r. reflexivity.
  - intros env. unfold fireInterval. cbn [Browser.intervals].
    change (Browser.intervals b ++ [(n, PublishTick); (S (S n), SaveTick)])
      with (Browser.intervals b ++ [(n, PublishTick)] ++ [(S (S n), SaveTick)]).
    rewrite app_assoc.
    rewrite find_interval_fresh.
    + destruct (publishPresence cfg env false _) as [m1 e1]. reflexivity.
    + intros i c Hin. destruct Hb as (H & _ & _). exact (H i c Hin).
Qed.

End PresenceMore.

Section PresenceMoreInstances.

Import PresenceManager PresenceSpec PresenceHandles.

Lemma handlesBelow_empty : handlesBelow Browser.empty.
Proof.
  repeat split; cbn; intros; match goal with
  | H : _ ∈ [] |- _ => apply elem_of_nil in H; contradiction
  end.
Qed.

Lemma idle_create p : idle (create p).
Proof. repeat split. Qed.

Lemma publish_keeps_record_fresh_witness :
  0 < MultiplayerConfig.PRESENCE_MOVE_THRESHOLD_PX Session.cfg
  /\ 0 < MultiplayerConfig.PRESENCE_STATIONARY_HEARTBEAT_MS Session.cfg
  /\ Env.now Session.atThreshold
     - lastPresenceSentAt
         (publishPresence Session.cfg Session.atThreshold false
                          Session.published).1
     < MultiplayerConfig.PRESENCE_STATIONARY_HEARTBEAT_MS Session.cfg.
Proof.
  assert (HT : 0 < MultiplayerConfig.PRESENCE_MOVE_THRESHOLD_PX Session.cfg)
    by reflexivity.
  assert (HH : 0 < MultiplayerConfig.PRESENCE_STATIONARY_HEARTBEAT_MS Session.cfg)
    by reflexivity.
  split; [exact HT |]. split; [exact HH |].
  exact (proj2 (publish_keeps_record_fresh Session.cfg Session.atThreshold false
                  Session.published HT HH)).
Defined.

Lemma start_stop_releases_witness :
  idle (create Session.profile)
  /\ handlesBelow Browser.empty
  /\ Browser.intervals
       (stop Session.joining
             (start Session.cfg Session.joining
                    (create Session.profile, Browser.empty)).1).1.2 = [].
Proof.
  split; [apply idle_create |]. split; [apply handlesBelow_empty |].
  exact (proj1 (start_stop_releases Session.cfg Session.joining Session.joining
                  (create Session.profile) Browser.empty
                  (idle_create _) handlesBelow_empty)).
Defined.

Lemma unload_removes_presence_witness :
  Env.isGuest Session.joining = false
  /\ idle (create Session.profile)
  /\ handlesBelow Browser.empty
  /\ Browser.listeners Browser.empty = []
  /\ mutationsOf
       (fireWindowEvent Session.joining "pagehide"
          (start Session.cfg Session.joining
                 (create Session.profile, Browser.empty)).1).2
     = [presence_remove "p1"].
Proof.
  split; [reflexivity |]. split; [apply idle_create |].
  split; [apply handlesBelow_empty |]. split; [reflexivity |].
  exact (proj1 (proj2 (unload_removes_presence Session.cfg Session.joining
                         Session.joining Session.joining "pagehide"
                         (create Session.profile) Browser.empty eq_refl
                         (idle_create _) handlesBelow_empty eq_refl))).
Defined.

Lemma restart_keeps_first_timers_witness :
  Env.isGuest Session.joining = false
  /\ handlesBelow Browser.empty
  /\ Browser.intervals
       (stop Session.joining
          (start Session.cfg Session.joining
             (start Session.cfg Session.joining
                    (create Session.profile, Browser.empty)).1).1).1.2
     = [(0%nat, PublishTick); (2%nat, SaveTick)].
Proof.
  split; [reflexivity |]. split; [apply handlesBelow_empty |].
  exact (proj1 (restart_keeps_first_timers Session.cfg Session.joining
                  Session.joining Session.joining (create Session.profile)
                  Browser.empty eq_refl eq_refl handlesBelow_empty)).
Defined.

End PresenceMoreInstances.

(** ** Layer management of the map editor *)

Section EditorLayerFacts.

Import EditorLayers.

Implicit Types (st : EditorLayers.t) (d : Delta).

Lemma spliceStart_inside {A} (z : Z) (l : list A) :
  (0 <= z <= Z.of_nat (length l))%Z -> spliceStart z l = Z.to_nat z.
Proof.
  intros H. unfold spliceStart.
  destruct (Z.ltb_spec z 0); [lia |]. f_equal. lia.
Qed.

Lemma delete_splicedIn {A} (k : nat) (x : A) (l : list A) :
  (k <= length l)%nat ->
  delete k (take k l ++ x :: drop k l) = l
  /\ (take k l ++ x :: drop k l) !! k = Some x.
Proof.
  intros H.
  assert (Hk : length (take k l) = k) by (rewrite length_take; lia).
  pose proof (take_drop k l) as Htd.
  set (l1 := take k l) in *. set (l2 := drop k l) in *.
  rewrite <- Hk. split.
  - rewrite delete_middle. exact Htd.
  - now apply list_lookup_middle.
Qed.

Lemma splicedIn_deleted {A} (i : nat) (x : A) (l : list A) :
  l !! i = Some x ->
  take i (delete i l) ++ x :: drop i (delete i l) = l.
Proof.
  intros H. pose proof (lookup_lt_Some _ _ _ H) as Hi.
  rewrite delete_take_drop.
  assert (Hk : length (take i l) = i) by (rewrite length_take; lia).
  pose proof (take_drop_middle l i x H) as Hmid.
  set (l1 := take i l) in *. set (l2 := drop (S i) l) in *.
  rewrite <- Hk. rewrite take_app_length, drop_app_length. exact Hmid.
Qed.

Lemma splicedIn_neighbour {A} (l : list A) (i j : nat) (x : A) :
  l !! i = Some x ->
  j = S i \/ i = S j ->
  (j < length l)%nat ->
  (take j (delete i l) ++ x :: drop j (delete i l)) !! i = l !! j.
Proof.
  intros Hx Hij Hj. pose proof (lookup_lt_Some _ _ _ Hx) as Hi.
  assert (Hlen : length (delete i l) = (length l - 1)%nat)
    by (rewrite length_delete by eauto; reflexivity).
  destruct Hij as [-> | ->].
  - rewrite lookup_app_l by (rewrite length_take; lia).
    rewrite lookup_take_lt by lia.
    now rewrite list_lookup_delete_ge by lia.
  - rewrite lookup_app_r by (rewrite length_take; lia).
    rewrite length_take, Hlen.
    replace (S j - j `min` (length l - 1))%nat with 1%nat by lia.
    change (drop j (delete (S j) l) !! 0%nat = l !! j).
    rewrite lookup_drop, Nat.add_0_r.
    now rewrite list_lookup_delete_lt by lia.
Qed.

Lemma syncActiveLayer_wellFormed st :
  wellFormed st -> syncActiveLayer st = st.
Proof.
  unfold wellFormed, syncActiveLayer. intros H.
  destruct (Z.eqb_spec (Z.of_nat (length (layers st))) 0); [reflexivity |].
  destruct (Z.ltb_spec (activeLayer st) 0); [lia |].
  destruct (Z.leb_spec (Z.of_nat (length (layers st))) (activeLayer st)); [lia |].
  reflexivity.
Qed.

(** X5. [moveActiveLayer] on a well-formed editor never throws; it permutes
    the layers, the active index follows the moved layer, the state stays
    well formed, and a move that took place is undone by the opposite
    move; a move past either end changes nothing. *)
Theorem moveActiveLayer_permutes :
  forall d st,
    wellFormed st ->
    exists st',
      moveActiveLayer d st = Some st'
      /\ wellFormed st'
      /\ layers st' ≡ₚ layers st
      /\ layers st' !! Z.to_nat (activeLayer st')
         = layers st !! Z.to_nat (activeLayer st)
      /\ ((0 <= activeLayer st + deltaZ d < Z.of_nat (length (layers st)))%Z ->
          activeLayer st' = (activeLayer st + deltaZ d)%Z
          /\ layers st' !! Z.to_nat (activeLayer st)
             = layers st !! Z.to_nat (activeLayer st')
          /\ moveActiveLayer (opposite d) st' = Some st)
      /\ (~ (0 <= activeLayer st + deltaZ d < Z.of_nat (length (layers st)))%Z ->
          st' = st).
Proof.
  intros d st WF. unfold moveActiveLayer.
  set (to := (activeLayer st + deltaZ d)%Z).
  destruct ((to <? 0)%Z || (Z.of_nat (length (layers st)) <=? to)%Z) eqn:Eout.
  { exists st. split; [reflexivity |]. split; [exact WF |].
    split; [reflexivity |]. split; [reflexivity |]. split; [| reflexivity].
    intros Hin. apply orb_true_iff in Eout as [E | E];
      [apply Z.ltb_lt in E | apply Z.leb_le in E]; lia. }
  apply orb_false_iff in Eout as [E1 E2].
  apply Z.ltb_ge in E1. apply Z.leb_gt in E2.
  unfold wellFormed in WF.
  destruct st as [ls w h a]. cbn [layers width height activeLayer] in *.
  unfold spliceOne.
  rewrite (spliceStart_inside a ls) by lia.
  destruct (lookup_lt_is_Some_2 ls (Z.to_nat a)) as [x Hx]; [lia |].
  rewrite Hx.
  assert (Hlen : length (delete (Z.to_nat a) ls) = (length ls - 1)%nat).
  { rewrite length_delete by eauto. reflexivity. }
  assert (Hto : spliceStart to (delete (Z.to_nat a) ls) = Z.to_nat to).
  { apply spliceStart_inside. lia. }
  destruct (delete_splicedIn (Z.to_nat to) x (delete (Z.to_nat a) ls)) as [Hdel Hlk];
    [lia |].
  set (ls' := spliceIn to x (delete (Z.to_nat a) ls)).
  assert (Els' : ls' = take (Z.to_nat to) (delete (Z.to_nat a) ls)
                       ++ x :: drop (Z.to_nat to) (delete (Z.to_nat a) ls)).
  { unfold ls', spliceIn. now rewrite Hto. }
  assert (Hlen' : length ls' = length ls).
  { rewrite Els', length_app, length_cons, length_take, length_drop. lia. }
  assert (WF' : wellFormed (mk ls' w h to)).
  { unfold wellFormed. cbn. lia. }
  exists (mk ls' w h to). rewrite (syncActiveLayer_wellFormed _ WF').
  split; [reflexivity |]. split; [exact WF' |]. cbn [layers activeLayer].
  split; [| split; [| split]].
  - rewrite Els'. rewrite <- Permutation_middle, take_drop.
    symmetry. now apply delete_Permutation.
  - rewrite Els', Hlk. reflexivity.
  - intros _. split; [reflexivity |]. split.
    + (* the neighbour moved into the vacated place *)
      rewrite Els'. apply (splicedIn_neighbour _ _ _ _ Hx); [| lia].
      subst to. destruct d; cbn [deltaZ] in *; lia.
    + (* the opposite move *)
      unfold moveActiveLayer. cbn [layers width height activeLayer].
      replace (to + deltaZ (opposite d))%Z with a
        by (subst to; destruct d; cbn; lia).
      destruct (Z.ltb_spec a 0); [lia |].
      destruct (Z.leb_spec (Z.of_nat (length ls')) a); [lia |].
      cbn [orb]. unfold spliceOne.
      rewrite (spliceStart_inside to ls') by lia.
      assert (Hlk' : ls' !! Z.to_nat to = Some x)
        by (rewrite Els'; exact Hlk).
      assert (Hdel' : delete (Z.to_nat to) ls' = delete (Z.to_nat a) ls)
        by (rewrite Els'; exact Hdel).
      rewrite Hlk', Hdel'.
      assert (Ha : spliceStart a (delete (Z.to_nat a) ls) = Z.to_nat a).
      { apply spliceStart_inside. lia. }
      unfold spliceIn. rewrite Ha, (splicedIn_deleted _ _ _ Hx).
      rewrite syncActiveLayer_wellFormed by (unfold wellFormed; cbn; lia).
      reflexivity.
  - intros Hout. exfalso. apply Hout. lia.
Qed.

(** X6. [removeActiveLayer] on a well-formed editor never throws and never
    removes the last layer: a map with one layer is left alone, otherwise
    exactly the active layer is removed, and the active index stays
    valid. *)
Theorem removeActiveLayer_keeps_a_layer :
  forall st,
    wellFormed st ->
    exists st',
      removeActiveLayer st = Some st'
      /\ wellFormed st'
      /\ layers st' <> []
      /\ ((length (layers st) <= 1)%nat -> st' = st)
      /\ ((2 <= length (layers st))%nat ->
          layers st' = delete (Z.to_nat (activeLayer st)) (layers st)
          /\ length (layers st') = (length (layers st) - 1)%nat
          /\ activeLayer st'
             = Z.min (activeLayer st) (Z.of_nat (length (layers st)) - 2)).
Proof.
  intros st WF. unfold removeActiveLayer.
  assert (Hne : layers st <> []).
  { unfold wellFormed in WF. destruct (layers st); [cbn in WF; lia | discriminate]. }
  destruct (Z.leb_spec (Z.of_nat (length (layers st))) 1) as [H1 | H1].
  { exists st. split; [reflexivity |]. split; [exact WF |]. split; [exact Hne |].
    split; [reflexivity |]. intros H2. lia. }
  unfold wellFormed in WF.
  destruct st as [ls w h a]. cbn [layers width height activeLayer] in *.
  unfold spliceOne. rewrite (spliceStart_inside a ls) by lia.
  destruct (lookup_lt_is_Some_2 ls (Z.to_nat a)) as [x Hx]; [lia |].
  rewrite Hx.
  assert (Hlen : length (delete (Z.to_nat a) ls) = (length ls - 1)%nat)
    by (rewrite length_delete by eauto; reflexivity).
  set (a' := Z.max 0 (Z.min a (Z.of_nat (length (delete (Z.to_nat a) ls)) - 1))).
  assert (WF' : wellFormed (mk (delete (Z.to_nat a) ls) w h a')).
  { unfold wellFormed. cbn. subst a'. lia. }
  rewrite (syncActiveLayer_wellFormed _ WF').
  eexists. split; [reflexivity |]. split; [exact WF' |]. cbn [layers activeLayer].
  split; [| split].
  - intros E. rewrite E in Hlen. cbn in Hlen. lia.
  - intros H. lia.
  - intros _. split; [reflexivity |]. split; [exact Hlen |]. subst a'. lia.
Qed.

Lemma replicate_all {A} (n : nat) (x : A) : Forall (fun y => y = x) (replicate n x).
Proof. induction n; constructor; auto. Qed.

(** X7. [addLayer] appends one layer and selects it: the layer is visible, uses
    the map's tileset, and holds one empty tile (-1) per cell of the map;
    the layers before it are untouched and the editor is well formed
    afterwards, whatever it was before. Removing the layer right away
    gives the previous layers back. *)
Theorem addLayer_appends :
  forall type st,
    (0 <= width st * height st)%Z ->
    exists st' new,
      addLayer type st = Some st'
      /\ layers st' = layers st ++ [new]
      /\ Layer.name new = makeLayerName type (layers st)
      /\ Layer.type new = type
      /\ Layer.visible new = true
      /\ Layer.tilesetUrl new = None
      /\ Z.of_nat (length (Layer.tiles new)) = (width st * height st)%Z
      /\ Forall (fun tile => tile = (-1)%Z) (Layer.tiles new)
      /\ activeLayer st' = Z.of_nat (length (layers st))
      /\ wellFormed st'
      /\ (layers st <> [] ->
          exists st'', removeActiveLayer st' = Some st''
            /\ layers st'' = layers st).
Proof.
  intros type st Harea. unfold addLayer, filledArray.
  destruct (Z.ltb_spec (width st * height st) 0) as [? | _]; [lia |].
  set (new := Layer.mk (makeLayerName type (layers st)) type
                       (replicate (Z.to_nat (width st * height st)) (-1)%Z)
                       true None).
  set (ls := layers st ++ [new]).
  assert (Hlen : length ls = S (length (layers st)))
    by (subst ls; rewrite length_app; cbn; lia).
  assert (WF' : wellFormed (mk ls (width st) (height st) (Z.of_nat (length ls) - 1))).
  { unfold wellFormed. cbn. lia. }
  rewrite (syncActiveLayer_wellFormed _ WF').
  eexists. exists new. split; [reflexivity |]. cbn [layers activeLayer].
  split; [reflexivity |]. split; [reflexivity |]. split; [reflexivity |].
  split; [reflexivity |]. split; [reflexivity |].
  split; [cbn; rewrite length_replicate; lia |].
  split; [apply replicate_all |]. split; [lia |]. split; [exact WF' |].
  intros Hne.
  assert (Hpos : (1 <= length (layers st))%nat).
  { destruct (layers st); [contradiction | cbn; lia]. }
  unfold removeActiveLayer. cbn [layers width height activeLayer].
  destruct (Z.leb_spec (Z.of_nat (length ls)) 1) as [? | _]; [lia |].
  unfold spliceOne. rewrite (spliceStart_inside _ ls) by lia.
  replace (Z.to_nat (Z.of_nat (length ls) - 1)) with (length (layers st)) by lia.
  subst ls. rewrite list_lookup_middle by reflexivity.
  rewrite delete_middle, app_nil_r.
  eexists. split; [reflexivity |].
  unfold syncActiveLayer. cbn [layers activeLayer width height].
  destruct (Z.eqb_spec (Z.of_nat (length (layers st))) 0); [reflexivity |].
  destruct (_ || _); reflexivity.
Qed.

End EditorLayerFacts.

Section EditorLayerInstances.

Import EditorLayers.

Lemma twoLayers_wellFormed : wellFormed twoLayers.
Proof. unfold wellFormed. cbn. lia. Qed.

Lemma moveActiveLayer_witness :
  wellFormed twoLayers
  /\ exists st',
       moveActiveLayer towardsFront twoLayers = Some st'
       /\ layers st' ≡ₚ layers twoLayers.
Proof.
  split; [exact twoLayers_wellFormed |].
  destruct (moveActiveLayer_permutes towardsFront twoLayers twoLayers_wellFormed)
    as (st' & Hm & _ & Hp & _).
  exists st'. split; [exact Hm | exact Hp].
Defined.

Lemma removeActiveLayer_witness :
  wellFormed twoLayers
  /\ exists st', removeActiveLayer twoLayers = Some st' /\ layers st' <> [].
Proof.
  split; [exact twoLayers_wellFormed |].
  destruct (removeActiveLayer_keeps_a_layer twoLayers twoLayers_wellFormed)
    as (st' & Hr & _ & Hne & _).
  exists st'. split; [exact Hr | exact Hne].
Defined.

Lemma addLayer_witness :
  (0 <= width twoLayers * height twoLayers)%Z
  /\ exists st' new,
       addLayer overlay twoLayers = Some st'
       /\ layers st' = layers twoLayers ++ [new].
Proof.
  assert (H : (0 <= width twoLayers * height twoLayers)%Z) by (cbn; lia).
  split; [exact H |].
  destruct (addLayer_appends overlay twoLayers H) as (st' & new & Ha & Hl & _).
  exists st', new. split; [exact Ha | exact Hl].
Defined.

(** The third layer of a type is named after the two that exist. *)
Example makeLayerName_counts :
  makeLayerName obj (layers twoLayers) = "obj1"%string
  /\ makeLayerName overlay (layers twoLayers) = "overlay0"%string.
Proof. split; reflexivity. Qed.

End EditorLayerInstances.

(** ** Combat settings inputs: how they compose *)

Section CombatInputsCompose.

Import MapEditorPanel MapSettingsUI EditorSpec NumFacts.

Variable cfg : CombatConfig.t.

Lemma Qfloor_unique (x : Q) (z : Z) :
  inject_Z z <= x < inject_Z (z + 1) -> Qfloor x = z.
Proof.
  intros [Hlo Hhi].
  pose proof (Qfloor_le x) as H1. pose proof (Qlt_floor x) as H2.
  assert (A : (Qfloor x < z + 1)%Z) by (rewrite Zlt_Qlt; lra).
  assert (B : (z < Qfloor x + 1)%Z) by (rewrite Zlt_Qlt; lra).
  lia.
Qed.

Lemma round_integer (v : Q) (z : Z) : v == inject_Z z -> round v = inject_Z z.
Proof.
  intros H. unfold round. f_equal. apply Qfloor_unique.
  rewrite inject_Z_plus. change (inject_Z 1) with 1. lra.
Qed.

Lemma clamp_inside lo hi v :
  lo <= v <= hi -> Num.max lo (Num.min hi v) == v.
Proof.
  intros H.
  destruct (min_spec hi v) as [[H1 ->] | [H1 ->]];
    [destruct (max_spec lo hi) as [[H2 ->] | [H2 ->]]
    | destruct (max_spec lo v) as [[H2 ->] | [H2 ->]]]; lra.
Qed.

(** X8. The four inputs are independent and the last write wins: writes to
    two different settings give the same map data in either order, and a
    finite write to a setting makes an earlier write to it irrelevant. *)
Theorem combat_inputs_compose :
  forall s1 s2 n1 n2 mapData,
    (s1 <> s2 ->
     handler cfg s1 n1 (handler cfg s2 n2 mapData)
     = handler cfg s2 n2 (handler cfg s1 n1 mapData))
    /\ (isFinite n2 = true ->
        handler cfg s1 n2 (handler cfg s1 n1 mapData)
        = handler cfg s1 n2 mapData).
Proof.
  intros s1 s2 n1 n2 mapData. split.
  - intros Hne. destruct mapData as [md |]; [| destruct s1, s2, n1, n2; reflexivity].
    destruct md as [mu ce [cs |]];
      destruct s1, s2; try contradiction; destruct n1, n2; reflexivity.
  - intros Hfin. destruct n2; try discriminate.
    destruct mapData as [md |]; [| destruct s1, n1; reflexivity].
    destruct md as [mu ce [cs |]]; destruct s1, n1; reflexivity.
Qed.

(** X9. With integer bounds in order, what the panel shows after a finite
    input is the value stored, and typing the shown value back stores the
    same number again: the input has reached a fixed point after one
    step. *)
Theorem shown_setting_is_fixed_point :
  forall d s q md,
    lowerBound cfg s <= upperBound cfg s ->
    isInteger (lowerBound cfg s) ->
    isInteger (upperBound cfg s) ->
    exists md' v,
      handler cfg s (Finite q) (Some md) = Some md'
      /\ stored s (Some md') = Some v
      /\ shown d s md' = v
      /\ exists v',
           stored s (handler cfg s (Finite (shown d s md')) (Some md')) = Some v'
           /\ v' == v.
Proof.
  intros d s q md Hb Hlo Hhi.
  destruct (handler_finite cfg s q md) as [Hst _].
  assert (Hsome : exists md', handler cfg s (Finite q) (Some md) = Some md')
    by (destruct s; eexists; reflexivity).
  destruct Hsome as [md' Hmd']. rewrite Hmd' in Hst.
  set (v := Num.max (lowerBound cfg s) (Num.min (upperBound cfg s) (round q))) in *.
  exists md', v. split; [exact Hmd' |]. split; [exact Hst |].
  assert (Hshown : shown d s md' = v) by (unfold shown; now rewrite Hst).
  split; [exact Hshown |]. rewrite Hshown.
  destruct (handler_finite cfg s v md') as [Hst' _].
  eexists. split; [exact Hst' |].
  assert (Hv : isInteger v).
  { subst v. destruct (round_nearest q) as (z & -> & _).
    destruct (clamp_choice (lowerBound cfg s) (upperBound cfg s) (inject_Z z))
      as [-> | [-> | ->]]; [exact Hlo | exact Hhi | exists z; reflexivity]. }
  destruct Hv as [z Hz]. rewrite (round_integer v z Hz).
  assert (Hr : lowerBound cfg s <= v <= upperBound cfg s)
    by (subst v; now apply clamp_range).
  pose proof (clamp_inside (lowerBound cfg s) (upperBound cfg s) (inject_Z z)) as C.
  lapply C; [intros C'; lra | lra].
Qed.

End CombatInputsCompose.

Section CombatInputsComposeInstances.

Import MapEditorPanel MapSettingsUI EditorSpec.

Lemma integer_16 : isInteger 16.
Proof. exists 16%Z. reflexivity. Qed.

Lemma integer_256 : isInteger 256.
Proof. exists 256%Z. reflexivity. Qed.

Lemma shown_setting_witness :
  lowerBound bounds AttackRangePx <= upperBound bounds AttackRangePx
  /\ isInteger (lowerBound bounds AttackRangePx)
  /\ isInteger (upperBound bounds AttackRangePx)
  /\ exists md' v,
       handler bounds AttackRangePx (Finite (725 # 10)) (Some someMap) = Some md'
       /\ stored AttackRangePx (Some md') = Some v.
Proof.
  assert (B : lowerBound bounds AttackRangePx <= upperBound bounds AttackRangePx)
    by (vm_compute; discriminate).
  split; [exact B |]. split; [exact integer_16 |]. split; [exact integer_256 |].
  destruct (shown_setting_is_fixed_point bounds
              (CombatDefaults.mk 64 350 400 20) AttackRangePx (725 # 10) someMap
              B integer_16 integer_256) as (md' & v & H1 & H2 & _).
  exists md', v. split; [exact H1 | exact H2].
Defined.

Lemma combat_inputs_compose_witness :
  handler bounds AttackRangePx (Finite 80)
    (handler bounds DamageVariancePct (Finite 30) (Some someMap))
  = handler bounds DamageVariancePct (Finite 30)
      (handler bounds AttackRangePx (Finite 80) (Some someMap)).
Proof.
  apply (proj1 (combat_inputs_compose bounds AttackRangePx DamageVariancePct
                  (Finite 80) (Finite 30) (Some someMap))).
  discriminate.
Defined.

End CombatInputsComposeInstances.

(** ** The tileset picker and the paint brush *)

Section TilePickerFacts.

Import TilePicker TileSpec.

Arguments tsCols : simpl never.
Arguments tsRows : simpl never.
Arguments floorDiv : simpl never.

Lemma pairEqb_eq (a b : Z * Z) : pairEqb a b = true <-> a = b.
Proof.
  destruct a as [a1 a2], b as [b1 b2]. unfold pairEqb. cbn.
  rewrite andb_true_iff, !Z.eqb_eq. split.
  - intros [-> ->]. reflexivity.
  - intros [= -> ->]. split; reflexivity.
Qed.

Lemma setHas_elem (k : Z * Z) (s : list (Z * Z)) :
  setHas k s = true <-> k ∈ s.
Proof.
  unfold setHas. rewrite existsb_exists. split.
  - intros (x & Hin & He). apply pairEqb_eq in He. subst x.
    apply list_elem_of_In. exact Hin.
  - intros Hin. exists k. split.
    + apply list_elem_of_In. exact Hin.
    + apply pairEqb_eq. reflexivity.
Qed.

Lemma setHas_not_elem (k : Z * Z) (s : list (Z * Z)) :
  setHas k s = false <-> k ∉ s.
Proof.
  rewrite <- setHas_elem. destruct (setHas k s); split; intros H; congruence.
Qed.

Lemma setAdd_elem (k x : Z * Z) (s : list (Z * Z)) :
  x ∈ setAdd k s <-> x ∈ s \/ x = k.
Proof.
  unfold setAdd. destruct (setHas k s) eqn:E.
  - apply setHas_elem in E. split; [auto|]. intros [H | ->]; assumption.
  - rewrite elem_of_app, list_elem_of_singleton. reflexivity.
Qed.

Lemma setAdd_NoDup (k : Z * Z) (s : list (Z * Z)) :
  NoDup s -> NoDup (setAdd k s).
Proof.
  intros H. unfold setAdd. destruct (setHas k s) eqn:E; [exact H|].
  apply setHas_not_elem in E. apply NoDup_app. split; [exact H|]. split.
  - intros x Hx Hk. apply list_elem_of_singleton in Hk. subst x. contradiction.
  - apply NoDup_singleton.
Qed.

Lemma setDelete_filter (k : Z * Z) (s : list (Z * Z)) :
  setDelete k s = filter (fun x => x <> k) s.
Proof.
  unfold setDelete. induction s as [|a s IH]; [reflexivity|].
  cbn [List.filter]. destruct (pairEqb k a) eqn:E; cbn [negb].
  - apply pairEqb_eq in E. subst a.
    rewrite filter_cons_False by (intros H; apply H; reflexivity). exact IH.
  - rewrite filter_cons_True.
    + rewrite IH. reflexivity.
    + intros ->. assert (pairEqb k k = true) by (apply pairEqb_eq; reflexivity).
      congruence.
Qed.

Lemma setDelete_elem (k x : Z * Z) (s : list (Z * Z)) :
  x ∈ setDelete k s <-> x ∈ s /\ x <> k.
Proof.
  rewrite setDelete_filter, list_elem_of_filter. tauto.
Qed.

Lemma setDelete_NoDup (k : Z * Z) (s : list (Z * Z)) :
  NoDup s -> NoDup (setDelete k s).
Proof.
  intros H. rewrite setDelete_filter. apply NoDup_filter. exact H.
Qed.

Lemma setDelete_fresh (k : Z * Z) (s : list (Z * Z)) :
  k ∉ s -> setDelete k s = s.
Proof.
  intros H. rewrite setDelete_filter. induction s as [|a s IH]; [reflexivity|].
  rewrite not_elem_of_cons in H. destruct H as [Ha Hs].
  rewrite filter_cons_True by congruence. rewrite IH by exact Hs. reflexivity.
Qed.

Lemma tileCanvasToGrid_inGrid (ts : Tileset.t) (x y : Q) :
  nonEmpty ts -> inGrid ts (tileCanvasToGrid ts x y).
Proof.
  intros [Hc Hr]. unfold inGrid, tileCanvasToGrid. cbn [fst snd]. lia.
Qed.

Lemma addCells_spec (r : Z) (cs : list Z) (s : list (Z * Z)) :
  let s' := foldl (fun acc' c => setAdd (c, r) acc') s cs in
  (forall x, x ∈ s' <-> x ∈ s \/ (x.1 ∈ cs /\ x.2 = r))
  /\ (NoDup s -> NoDup s').
Proof.
  revert s. induction cs as [|c cs IH]; intros s; cbn.
  - split; [|auto]. intros x. split; [auto|].
    intros [H|[H _]]; [exact H|]. apply elem_of_nil in H. contradiction.
  - destruct (IH (setAdd (c, r) s)) as [IH1 IH2]. split.
    + intros x. rewrite IH1, setAdd_elem, elem_of_cons.
      destruct x as [x1 x2]. cbn. split.
      * intros [[H | [= -> ->]] | [H1 H2]]; auto.
      * intros [H | [[-> | H1] H2]]; subst; auto.
    + intros H. apply IH2, setAdd_NoDup, H.
Qed.

Lemma addRows_spec (rs cs : list Z) (s : list (Z * Z)) :
  let s' := foldl (fun acc r => foldl (fun acc' c => setAdd (c, r) acc') acc cs)
                  s rs in
  (forall x, x ∈ s' <-> x ∈ s \/ (x.1 ∈ cs /\ x.2 ∈ rs))
  /\ (NoDup s -> NoDup s').
Proof.
  revert s. induction rs as [|r rs IH]; intros s; cbn.
  - split; [|auto]. intros x. split; [auto|].
    intros [H|[_ H]]; [exact H|]. apply elem_of_nil in H. contradiction.
  - destruct (addCells_spec r cs s) as [A1 A2].
    destruct (IH (foldl (fun acc' c => setAdd (c, r) acc') s cs)) as [IH1 IH2].
    split.
    + intros x. rewrite IH1, A1, elem_of_cons. split.
      * intros [[H | [H1 H2]] | [H1 H2]]; auto.
      * intros [H | [H1 [H2 | H2]]]; auto.
    + intros H. apply IH2, A2, H.
Qed.

Lemma addRectangle_elem (minC maxC minR maxR : Z) (s : list (Z * Z)) (x : Z * Z) :
  x ∈ addRectangle minC maxC minR maxR s
  <-> x ∈ s \/ ((minC <= x.1 <= maxC)%Z /\ (minR <= x.2 <= maxR)%Z).
Proof.
  unfold addRectangle.
  destruct (addRows_spec (seqZ minR (maxR - minR + 1))
                         (seqZ minC (maxC - minC + 1)) s) as [A _].
  rewrite A, !elem_of_seqZ.
  split; (intros [H | [H1 H2]]; [left; exact H | right; lia]).
Qed.

Lemma addRectangle_NoDup (minC maxC minR maxR : Z) (s : list (Z * Z)) :
  NoDup s -> NoDup (addRectangle minC maxC minR maxR s).
Proof.
  unfold addRectangle.
  destruct (addRows_spec (seqZ minR (maxR - minR + 1))
                         (seqZ minC (maxC - minC + 1)) s) as [_ A].
  exact A.
Qed.

Lemma initial_sound (ts : Tileset.t) : nonEmpty ts -> sound (initial ts).
Proof.
  intros [Hc Hr]. split; cbn.
  - unfold regionInGrid. cbn. lia.
  - lia.
  - exact I.
  - constructor.
  - constructor.
Qed.

Lemma handle_tileset (e : Event) (st : t) :
  activeTileset (handle e st) = activeTileset st.
Proof.
  destruct e as [x y [|]|x y s|]; cbn; try reflexivity.
  unfold onTileCanvasMove. destruct (tsDragStart st); [|reflexivity].
  destruct (s && isIrregularSelection st); [reflexivity|].
  destruct (negb (isIrregularSelection st)); reflexivity.
Qed.

Lemma run_tileset (es : list Event) (st : t) :
  activeTileset (run es st) = activeTileset st.
Proof.
  revert st. induction es as [|e es IH]; intros st; [reflexivity|].
  cbn. unfold run in IH. rewrite IH. apply handle_tileset.
Qed.

Lemma handle_sound (e : Event) (st : t) :
  nonEmpty (activeTileset st) -> sound st -> sound (handle e st).
Proof.
  intros Hne [Hreg Htile Hdrag Hcells Hnd].
  pose proof (fun x y => tileCanvasToGrid_inGrid (activeTileset st) x y Hne) as Hg.
  destruct e as [x y [|]|x y s|]; cbn [handle].
  - (* shift-click *)
    unfold onTileCanvasDown. split; cbn; try assumption.
    + apply Hg.
    + destruct (setHas _ _) eqn:E.
      * apply Forall_forall. intros p Hp. apply setDelete_elem in Hp.
        destruct Hp as [Hp _]. rewrite Forall_forall in Hcells. auto.
      * apply Forall_forall. intros p Hp. apply setAdd_elem in Hp.
        destruct Hp as [Hp | ->]; [|apply Hg].
        rewrite Forall_forall in Hcells. auto.
    + destruct (setHas _ _); [apply setDelete_NoDup | apply setAdd_NoDup];
        exact Hnd.
  - (* plain click *)
    unfold onTileCanvasDown. specialize (Hg x y).
    destruct Hg as [G1 G2]. split; cbn.
    + unfold regionInGrid. cbn. lia.
    + reflexivity.
    + split; assumption.
    + constructor.
    + constructor.
  - (* move *)
    unfold onTileCanvasMove. destruct (tsDragStart st) as [start|] eqn:Ed;
      [|split; try assumption; rewrite Ed; exact I].
    cbn in Hdrag. specialize (Hg x y).
    destruct (s && isIrregularSelection st).
    + split; cbn; try assumption.
      * apply Forall_forall. intros p Hp. apply addRectangle_elem in Hp.
        destruct Hp as [Hp | [H1 H2]].
        -- rewrite Forall_forall in Hcells. auto.
        -- destruct Hdrag as [D1 D2], Hg as [G1 G2]. split; lia.
      * apply addRectangle_NoDup. exact Hnd.
    + destruct (negb (isIrregularSelection st)).
      * pose proof Hdrag as [D1 D2]. pose proof Hg as [G1 G2].
        split; cbn; try assumption.
        -- unfold regionInGrid. cbn. lia.
        -- reflexivity.
        -- rewrite Ed. exact Hdrag.
      * split; try assumption. rewrite Ed. exact Hdrag.
  - (* up *)
    split; cbn; try assumption. exact I.
Qed.

Lemma run_sound (ts : Tileset.t) (es : list Event) (st : t) :
  nonEmpty ts -> activeTileset st = ts -> sound st -> sound (run es st).
Proof.
  intros Hne. revert st.
  induction es as [|e es IH]; intros st Hts Hs; [exact Hs|].
  cbn. apply IH.
  - rewrite handle_tileset. exact Hts.
  - apply handle_sound; [rewrite Hts; exact Hne | exact Hs].
Qed.

(** X10. After a plain press on one tileset cell and a drag to another, the
    selected region is the smallest rectangle of the tileset grid that holds
    both cells, the selected tile is the index of its top-left cell, and
    dragging the other way round (press at the second point, drag to the
    first) selects the same region and tile. *)
Theorem drag_selects_bounding_rectangle (st : t) (x1 y1 x2 y2 : Q) :
  nonEmpty (activeTileset st) ->
  let ts := activeTileset st in
  let a := tileCanvasToGrid ts x1 y1 in
  let b := tileCanvasToGrid ts x2 y2 in
  let st' := onTileCanvasMove x2 y2 false (onTileCanvasDown x1 y1 false st) in
  let r := selectedRegion st' in
  regionInGrid ts r
  /\ covers r a /\ covers r b
  /\ Region.w r = (Z.abs (a.1 - b.1) + 1)%Z
  /\ Region.h r = (Z.abs (a.2 - b.2) + 1)%Z
  /\ selectedTile st' = (Region.row r * tsCols ts + Region.col r)%Z
  /\ validTile ts (selectedTile st')
  /\ irregularTiles st' = []
  /\ selectedRegion
       (onTileCanvasMove x1 y1 false (onTileCanvasDown x2 y2 false st)) = r
  /\ selectedTile
       (onTileCanvasMove x1 y1 false (onTileCanvasDown x2 y2 false st))
     = selectedTile st'.
Proof.
  intros Hne ts a b st' r.
  pose proof (tileCanvasToGrid_inGrid ts x1 y1 Hne) as [A1 A2].
  pose proof (tileCanvasToGrid_inGrid ts x2 y2 Hne) as [B1 B2].
  fold a in A1, A2. fold b in B1, B2.
  assert (Er : r = Region.mk (Z.min a.1 b.1) (Z.min a.2 b.2)
                             (Z.max a.1 b.1 - Z.min a.1 b.1 + 1)
                             (Z.max a.2 b.2 - Z.min a.2 b.2 + 1)) by reflexivity.
  assert (Et : selectedTile st' = (Z.min a.2 b.2 * tsCols ts + Z.min a.1 b.1)%Z)
    by reflexivity.
  assert (Er' : selectedRegion
       (onTileCanvasMove x1 y1 false (onTileCanvasDown x2 y2 false st))
     = Region.mk (Z.min b.1 a.1) (Z.min b.2 a.2)
                 (Z.max b.1 a.1 - Z.min b.1 a.1 + 1)
                 (Z.max b.2 a.2 - Z.min b.2 a.2 + 1)) by reflexivity.
  assert (Et' : selectedTile
       (onTileCanvasMove x1 y1 false (onTileCanvasDown x2 y2 false st))
     = (Z.min b.2 a.2 * tsCols ts + Z.min b.1 a.1)%Z) by reflexivity.
  assert (Ei : irregularTiles st' = []) by reflexivity.
  rewrite Er', Et', Et, Er, Ei. clear Er Er' Et Et' Ei.
  clearbody a b. destruct a as [a1 a2], b as [b1 b2].
  unfold regionInGrid, covers, validTile.
  cbn [fst snd Region.col Region.row Region.w Region.h] in *.
  set (C := tsCols ts) in *. set (R := tsRows ts) in *. clearbody C R.
  split; [lia|]. split; [lia|]. split; [lia|]. split; [lia|]. split; [lia|].
  split; [reflexivity|]. split; [nia|]. split; [reflexivity|]. split.
  - rewrite (Z.min_comm b1), (Z.min_comm b2), (Z.max_comm b1),
      (Z.max_comm b2). reflexivity.
  - rewrite (Z.min_comm b1), (Z.min_comm b2). reflexivity.
Qed.

(** X11. Whatever presses, drags and releases the tileset canvas receives, with
    or without shift, the selection stays inside the tileset image: the
    rectangular region has at least one cell and lies in the grid, the
    selected tile is the index of its top-left cell, every cell of the
    irregular set is a grid cell, and the set holds no cell twice. *)
Theorem selection_stays_in_tileset (ts : Tileset.t) (es : list Event) :
  nonEmpty ts ->
  sound (run es (initial ts)) /\ activeTileset (run es (initial ts)) = ts.
Proof.
  intros Hne. split; [|apply run_tileset].
  apply (run_sound ts); [exact Hne | reflexivity | apply initial_sound, Hne].
Qed.

(** X12. Shift-clicking the same tileset cell twice restores the irregular set:
    a cell that was absent is added and removed again, leaving the set as it
    was; a cell that was present is removed and added back, so that the set
    has the same cells (the cell now comes last). *)
Theorem shift_click_twice_restores (st : t) (x y : Q) :
  NoDup (irregularTiles st) ->
  let k := tileCanvasToGrid (activeTileset st) x y in
  let st' := onTileCanvasDown x y true (onTileCanvasDown x y true st) in
  irregularTiles st' ≡ₚ irregularTiles st
  /\ (k ∉ irregularTiles st -> irregularTiles st' = irregularTiles st)
  /\ isIrregularSelection st' = true.
Proof.
  intros Hnd k st'.
  assert (E : irregularTiles st'
    = let s1 := if setHas k (irregularTiles st)
                then setDelete k (irregularTiles st)
                else setAdd k (irregularTiles st) in
      if setHas k s1 then setDelete k s1 else setAdd k s1) by reflexivity.
  rewrite E. clear E. cbn zeta.
  destruct (setHas k (irregularTiles st)) eqn:E1.
  - assert (E2 : setHas k (setDelete k (irregularTiles st)) = false).
    { apply setHas_not_elem. rewrite setDelete_elem. tauto. }
    rewrite E2. split; [|split; [|reflexivity]].
    + apply NoDup_Permutation.
      * apply setAdd_NoDup, setDelete_NoDup, Hnd.
      * exact Hnd.
      * intros p. rewrite setAdd_elem, setDelete_elem.
        apply setHas_elem in E1. split.
        -- intros [[H _] | ->]; assumption.
        -- intros H. destruct (decide (p = k)); [right | left]; auto.
    + intros H. apply setHas_elem in E1. contradiction.
  - assert (E2 : setHas k (setAdd k (irregularTiles st)) = true).
    { apply setHas_elem, setAdd_elem. right. reflexivity. }
    rewrite E2. apply setHas_not_elem in E1.
    assert (E3 : setDelete k (setAdd k (irregularTiles st)) = irregularTiles st).
    { unfold setAdd. apply setHas_not_elem in E1. rewrite E1.
      apply setHas_not_elem in E1.
      rewrite setDelete_filter, filter_app, <- setDelete_filter.
      rewrite setDelete_fresh by exact E1.
      rewrite filter_cons_False by (intros H; apply H; reflexivity).
      rewrite filter_nil. apply app_nil_r. }
    rewrite E3. split; [reflexivity|]. split; reflexivity.
Qed.

End TilePickerFacts.

(** ** The paint brush: [paintTileAt] *)

Section MapPaintFacts.

Import TilePicker TileSpec MapPaint.

Arguments tsCols : simpl never.
Arguments tsRows : simpl never.
Arguments floorDiv : simpl never.

Lemma inMap_spec (md : MapData.t) (mx my : Z) :
  inMap md mx my = true
  <-> (0 <= mx < MapData.width md)%Z /\ (0 <= my < MapData.height md)%Z.
Proof.
  unfold inMap. rewrite !andb_true_iff, !Z.leb_le, !Z.ltb_lt. lia.
Qed.

Lemma stampRegion_call (md : MapData.t) (L tx ty cols : Z) (r : Region.t)
    (c : SetTile.t) :
  c ∈ stampRegion md L tx ty cols r ->
  exists dx dy,
    (0 <= dx < Region.w r)%Z /\ (0 <= dy < Region.h r)%Z
    /\ inMap md (tx + dx) (ty + dy) = true
    /\ c = SetTile.mk L (tx + dx) (ty + dy)
                      ((Region.row r + dy) * cols + (Region.col r + dx)).
Proof.
  unfold stampRegion. intros H.
  apply list_elem_of_bind in H. destruct H as (dy & H & Hdy).
  apply list_elem_of_bind in H. destruct H as (dx & H & Hdx).
  apply elem_of_seqZ in Hdy. apply elem_of_seqZ in Hdx.
  destruct (inMap md (tx + dx) (ty + dy)) eqn:E.
  - apply list_elem_of_singleton in H. exists dx, dy.
    split; [lia|]. split; [lia|]. split; [exact E | exact H].
  - apply elem_of_nil in H. contradiction.
Qed.

Lemma stampIrregular_call (md : MapData.t) (L tx ty : Z) (tiles : list Stamp.t)
    (c : SetTile.t) :
  c ∈ stampIrregular md L tx ty tiles ->
  exists t, t ∈ tiles
    /\ inMap md (tx + Stamp.dx t) (ty + Stamp.dy t) = true
    /\ c = SetTile.mk L (tx + Stamp.dx t) (ty + Stamp.dy t) (Stamp.tileIdx t).
Proof.
  unfold stampIrregular. intros H.
  apply list_elem_of_bind in H. destruct H as (t & H & Ht).
  destruct (inMap md (tx + Stamp.dx t) (ty + Stamp.dy t)) eqn:E.
  - apply list_elem_of_singleton in H. exists t. auto.
  - apply elem_of_nil in H. contradiction.
Qed.

(** The shape of [paintTileAt] once both guards have passed. *)
Lemma paintTileAt_guarded (tool : EditorTool) (L : Z) (sel : TilePicker.t)
    (md : MapData.t) (wx wy : Q) :
  let tx := floorDiv wx (MapData.tileWidth md) in
  let ty := floorDiv wy (MapData.tileHeight md) in
  paintTileAt tool L sel md wx wy = (MapData.collisionMask md, [])
  \/ ((0 <= L < Z.of_nat (MapData.layerCount md))%Z
      /\ (0 <= tx < MapData.width md)%Z /\ (0 <= ty < MapData.height md)%Z
      /\ paintTileAt tool L sel md wx wy
         = match tool with
           | paint =>
               if isIrregularSelection sel
                  && (0 <? length (irregularTiles sel))%nat
               then (MapData.collisionMask md,
                     stampIrregular md L tx ty (getIrregularSelectionTiles sel))
               else (MapData.collisionMask md,
                     stampRegion md L tx ty (tsCols (activeTileset sel))
                                 (selectedRegion sel))
           | erase => (MapData.collisionMask md, [SetTile.mk L tx ty (-1)])
           | collision =>
               (assign (Z.to_nat (ty * MapData.width md + tx)) true
                       (MapData.collisionMask md), [])
           | collision_erase =>
               (assign (Z.to_nat (ty * MapData.width md + tx)) false
                       (MapData.collisionMask md), [])
           | _ => (MapData.collisionMask md, [])
           end).
Proof.
  intros tx ty. unfold paintTileAt. fold tx ty.
  destruct ((L <? 0)%Z || (Z.of_nat (MapData.layerCount md) <=? L)%Z) eqn:E1;
    [left; reflexivity|].
  destruct ((tx <? 0)%Z || (ty <? 0)%Z || (MapData.width md <=? tx)%Z
            || (MapData.height md <=? ty)%Z) eqn:E2; [left; reflexivity|].
  right. rewrite !orb_false_iff in E1, E2.
  rewrite !Z.ltb_ge, !Z.leb_gt in *.
  split; [lia|]. split; [lia|]. split; [lia|]. reflexivity.
Qed.

(** X13. Whatever the tool, the selection and the click, every [setTile] call of
    [paintTileAt] addresses a cell of the map on the active layer, and the
    active layer is one of the map's layers; only the paint and erase tools
    set tiles, and only the two collision tools touch the collision mask. *)
Theorem paintTileAt_stays_in_map (tool : EditorTool) (activeLayer : Z)
    (sel : TilePicker.t) (md : MapData.t) (worldX worldY : Q) :
  let r := paintTileAt tool activeLayer sel md worldX worldY in
  Forall (fun c => inMap md (SetTile.x c) (SetTile.y c) = true
                   /\ SetTile.layer c = activeLayer
                   /\ (0 <= activeLayer < Z.of_nat (MapData.layerCount md))%Z)
         r.2
  /\ (tool <> paint -> tool <> erase -> r.2 = [])
  /\ (tool <> collision -> tool <> collision_erase ->
      r.1 = MapData.collisionMask md).
Proof.
  intros r. subst r.
  destruct (paintTileAt_guarded tool activeLayer sel md worldX worldY)
    as [E | (HL & Hx & Hy & E)]; rewrite E; clear E.
  { cbn. split; [constructor|]. split; reflexivity. }
  split; [|split].
  - apply Forall_forall. intros c Hc.
    destruct tool; cbn in Hc; try (apply elem_of_nil in Hc; contradiction).
    + destruct (isIrregularSelection sel && _); cbn in Hc.
      * apply stampIrregular_call in Hc. destruct Hc as (t & _ & Hin & ->).
        cbn. auto.
      * apply stampRegion_call in Hc.
        destruct Hc as (dx & dy & _ & _ & Hin & ->). cbn. auto.
    + apply list_elem_of_singleton in Hc. subst c. cbn.
      split; [|auto]. apply inMap_spec. lia.
  - intros H1 H2. destruct tool; try reflexivity; congruence.
  - intros H1 H2. destruct tool; try reflexivity; try congruence.
    destruct (isIrregularSelection sel && _); reflexivity.
Qed.

Lemma assign_length {A} (idx : nat) (v : A) (l : list (option A)) :
  length (assign idx v l) = Nat.max (length l) (S idx).
Proof.
  unfold assign. destruct (idx <? length l)%nat eqn:E.
  - apply Nat.ltb_lt in E. rewrite length_insert. lia.
  - apply Nat.ltb_ge in E.
    rewrite !length_app, length_replicate. cbn. lia.
Qed.

Lemma assign_lookup_same {A} (idx : nat) (v : A) (l : list (option A)) :
  assign idx v l !! idx = Some (Some v).
Proof.
  unfold assign. destruct (idx <? length l)%nat eqn:E.
  - apply Nat.ltb_lt in E. apply list_lookup_insert_eq. exact E.
  - apply Nat.ltb_ge in E.
    rewrite lookup_app_r by exact E.
    rewrite lookup_app_r by (rewrite length_replicate; lia).
    rewrite length_replicate.
    replace (idx - length l - (idx - length l))%nat with 0%nat by lia.
    reflexivity.
Qed.

Lemma assign_lookup_other {A} (idx j : nat) (v : A) (l : list (option A)) :
  j <> idx ->
  assign idx v l !! j
  = if (j <? length l)%nat then l !! j
    else if (j <? idx)%nat then Some None else None.
Proof.
  intros Hne. unfold assign. destruct (idx <? length l)%nat eqn:E.
  - apply Nat.ltb_lt in E. rewrite list_lookup_insert_ne by congruence.
    destruct (j <? length l)%nat eqn:Ej; [reflexivity|].
    apply Nat.ltb_ge in Ej.
    assert ((j <? idx)%nat = false) as -> by (apply Nat.ltb_ge; lia).
    apply lookup_ge_None_2. exact Ej.
  - apply Nat.ltb_ge in E. destruct (j <? length l)%nat eqn:Ej.
    + apply Nat.ltb_lt in Ej. apply lookup_app_l. exact Ej.
    + apply Nat.ltb_ge in Ej. rewrite lookup_app_r by exact Ej.
      destruct (j <? idx)%nat eqn:Ei.
      * apply Nat.ltb_lt in Ei.
        rewrite lookup_app_l by (rewrite length_replicate; lia).
        apply lookup_replicate_2. lia.
      * apply Nat.ltb_ge in Ei. apply lookup_ge_None_2.
        rewrite length_app, length_replicate. cbn. lia.
Qed.

(** X14. The collision tools set no tile and write at most one entry of the
    collision mask: either the click is rejected and the mask is as before,
    or the entry of the clicked cell (an index below [width * height])
    reads [true] for the collision tool and [false] for collision-erase,
    every other entry that existed is unchanged, and a mask that was too
    short is extended up to that entry by holes. *)
Theorem collision_brush_writes_one_cell (v : bool) (activeLayer : Z)
    (sel : TilePicker.t) (md : MapData.t) (worldX worldY : Q) :
  let tool := if v then collision else collision_erase in
  let r := paintTileAt tool activeLayer sel md worldX worldY in
  let tx := floorDiv worldX (MapData.tileWidth md) in
  let ty := floorDiv worldY (MapData.tileHeight md) in
  let idx := Z.to_nat (ty * MapData.width md + tx) in
  r.2 = []
  /\ (r.1 = MapData.collisionMask md
      \/ (inMap md tx ty = true
          /\ (Z.of_nat idx < MapData.width md * MapData.height md)%Z
          /\ r.1 !! idx = Some (Some v)
          /\ (forall j, j <> idx ->
                (j < length (MapData.collisionMask md))%nat ->
                r.1 !! j = MapData.collisionMask md !! j)
          /\ (forall j, j <> idx ->
                (length (MapData.collisionMask md) <= j)%nat ->
                r.1 !! j = if (j <? idx)%nat then Some None else None)
          /\ length r.1 = Nat.max (length (MapData.collisionMask md)) (S idx))).
Proof.
  intros tool r tx ty idx. subst r.
  destruct (paintTileAt_guarded tool activeLayer sel md worldX worldY)
    as [E | (HL & Hx & Hy & E)]; rewrite E; clear E.
  { cbn. split; [reflexivity | left; reflexivity]. }
  fold tx ty in Hx, Hy |- *.
  assert (E : (match tool with
           | paint =>
               if isIrregularSelection sel
                  && (0 <? length (irregularTiles sel))%nat
               then (MapData.collisionMask md,
                     stampIrregular md activeLayer tx ty
                                    (getIrregularSelectionTiles sel))
               else (MapData.collisionMask md,
                     stampRegion md activeLayer tx ty
                                 (tsCols (activeTileset sel))
                                 (selectedRegion sel))
           | erase => (MapData.collisionMask md,
                       [SetTile.mk activeLayer tx ty (-1)])
           | collision =>
               (assign (Z.to_nat (ty * MapData.width md + tx)) true
                       (MapData.collisionMask md), [])
           | collision_erase =>
               (assign (Z.to_nat (ty * MapData.width md + tx)) false
                       (MapData.collisionMask md), [])
           | _ => (MapData.collisionMask md, [])
           end) = (assign idx v (MapData.collisionMask md), [])).
  { subst tool. destruct v; reflexivity. }
  rewrite E. clear E. cbn [fst snd]. split; [reflexivity|]. right.
  split; [apply inMap_spec; lia|]. split.
  { subst idx. rewrite Z2Nat.id by nia. nia. }
  split; [apply assign_lookup_same|]. split; [|split].
  - intros j Hne Hj. rewrite assign_lookup_other by exact Hne.
    apply Nat.ltb_lt in Hj. rewrite Hj. reflexivity.
  - intros j Hne Hj. rewrite assign_lookup_other by exact Hne.
    apply Nat.ltb_ge in Hj. rewrite Hj. reflexivity.
  - apply assign_length.
Qed.

Lemma foldl_min_le (xs : list Z) (a : Z) :
  (foldl Z.min a xs <= a)%Z /\ Forall (fun x => (foldl Z.min a xs <= x)%Z) xs
  /\ (foldl Z.min a xs = a \/ foldl Z.min a xs ∈ xs).
Proof.
  revert a. induction xs as [|x xs IH]; intros a; cbn.
  - split; [lia|]. split; [constructor | left; reflexivity].
  - destruct (IH (Z.min a x)) as (H1 & H2 & H3). split; [lia|]. split.
    + constructor; [lia | exact H2].
    + destruct H3 as [H3 | H3].
      * destruct (Z.min_spec a x) as [[_ E] | [_ E]].
        -- left. rewrite H3. exact E.
        -- right. rewrite H3, E. apply list_elem_of_here.
      * right. apply list_elem_of_further. exact H3.
Qed.

Lemma minOf_spec (xs : list Z) :
  xs <> [] -> Forall (fun x => (minOf xs <= x)%Z) xs /\ minOf xs ∈ xs.
Proof.
  destruct xs as [|x xs]; [congruence|]. intros _. cbn.
  destruct (foldl_min_le xs x) as (H1 & H2 & H3). split.
  - constructor; assumption.
  - destruct H3 as [-> | H3]; [apply list_elem_of_here|].
    apply list_elem_of_further. exact H3.
Qed.

Lemma getIrregularSelectionTiles_map (sel : TilePicker.t) :
  getIrregularSelectionTiles sel
  = (fun p => Stamp.mk (p.1 - minOf (List.map fst (irregularTiles sel)))
                       (p.2 - minOf (List.map snd (irregularTiles sel)))
                       (p.2 * tsCols (activeTileset sel) + p.1))
    <$> irregularTiles sel.
Proof.
  unfold getIrregularSelectionTiles. destruct (irregularTiles sel); reflexivity.
Qed.

(** X15. The stamp of a non-empty irregular selection is taken relative to the
    corner of its bounding box: there is one stamp per selected cell, in the
    order of selection, carrying the tileset index of its cell and the
    cell's offset from a common origin; no offset is negative, some stamp
    has column offset 0 and some stamp has row offset 0. *)
Theorem irregular_stamp_is_anchored (sel : TilePicker.t) :
  irregularTiles sel <> [] ->
  let stamps := getIrregularSelectionTiles sel in
  exists minCol minRow,
    stamps = (fun p => Stamp.mk (p.1 - minCol) (p.2 - minRow)
                         (p.2 * tsCols (activeTileset sel) + p.1))
             <$> irregularTiles sel
    /\ Forall (fun t => (0 <= Stamp.dx t)%Z /\ (0 <= Stamp.dy t)%Z) stamps
    /\ Exists (fun t => Stamp.dx t = 0%Z) stamps
    /\ Exists (fun t => Stamp.dy t = 0%Z) stamps.
Proof.
  intros Hne stamps. subst stamps.
  set (ps := irregularTiles sel) in *.
  exists (minOf (List.map fst ps)), (minOf (List.map snd ps)).
  assert (Hf : List.map fst ps <> []) by (destruct ps; [congruence | discriminate]).
  assert (Hs : List.map snd ps <> []) by (destruct ps; [congruence | discriminate]).
  destruct (minOf_spec _ Hf) as [F1 F2]. destruct (minOf_spec _ Hs) as [S1 S2].
  rewrite getIrregularSelectionTiles_map. fold ps.
  split; [reflexivity|]. split; [|split].
  - apply Forall_fmap, Forall_forall. intros p Hp. cbn.
    rewrite Forall_forall in F1, S1.
    assert (p.1 ∈ List.map fst ps) by (apply (list_elem_of_fmap_2 fst); exact Hp).
    assert (p.2 ∈ List.map snd ps) by (apply (list_elem_of_fmap_2 snd); exact Hp).
    specialize (F1 p.1 ltac:(assumption)). specialize (S1 p.2 ltac:(assumption)).
    cbn beta in F1, S1. lia.
  - apply (list_elem_of_fmap_1 fst) in F2. destruct F2 as (p & Ep & Hp).
    apply Exists_exists. eexists. split.
    + apply list_elem_of_fmap_2. exact Hp.
    + cbn. lia.
  - apply (list_elem_of_fmap_1 snd) in S2. destruct S2 as (p & Ep & Hp).
    apply Exists_exists. eexists. split.
    + apply list_elem_of_fmap_2. exact Hp.
    + cbn. lia.
Qed.

(** X16. As long as the tileset is not switched, painting after any sequence of
    presses, drags and releases on the tileset canvas sets only tiles of the
    tileset image: every tile index passed to [setTile] by the paint tool
    lies in [0, cols * rows). *)
Theorem painted_tiles_are_tileset_tiles (ts : Tileset.t) (es : list Event)
    (activeLayer : Z) (md : MapData.t) (worldX worldY : Q) :
  nonEmpty ts ->
  Forall (fun c => validTile ts (SetTile.tileIdx c))
         (paintTileAt paint activeLayer (run es (initial ts)) md
                      worldX worldY).2.
Proof.
  intros Hne.
  pose proof (run_sound ts es (initial ts) Hne eq_refl (initial_sound ts Hne))
    as [Hreg Htile Hdrag Hcells Hnd].
  pose proof (run_tileset es (initial ts)) as Hts. cbn [initial activeTileset] in Hts.
  set (sel := run es (initial ts)) in *. rewrite Hts in *.
  destruct (paintTileAt_guarded paint activeLayer sel md worldX worldY)
    as [E | (HL & Hx & Hy & E)]; rewrite E; clear E; [constructor|].
  apply Forall_forall. intros c Hc. unfold validTile.
  destruct (isIrregularSelection sel && _) eqn:Ei; cbn [snd] in Hc.
  - apply stampIrregular_call in Hc. destruct Hc as (t & Ht & _ & ->). cbn.
    rewrite getIrregularSelectionTiles_map in Ht.
    apply list_elem_of_fmap_1 in Ht.
    destruct Ht as (p & -> & Hp'). cbn. rewrite Hts.
    rewrite Forall_forall in Hcells. destruct (Hcells p Hp') as [C1 C2].
    destruct Hne. nia.
  - apply stampRegion_call in Hc.
    destruct Hc as (dx & dy & Hdx & Hdy & _ & ->). cbn. rewrite Hts.
    destruct Hreg as (R1 & R2 & R3 & R4 & R5 & R6). destruct Hne. nia.
Qed.

Lemma fmap_bind_list {A B C} (f : B -> C) (h : A -> list B) (l : list A) :
  f <$> (l ≫= h) = l ≫= (fun x => f <$> h x).
Proof.
  induction l as [|a l IH]; [reflexivity|].
  csimpl. rewrite fmap_app, IH. reflexivity.
Qed.

Lemma stampIrregular_targets (md : MapData.t) (L tx ty mc mr cols : Z)
    (ps : list (Z * Z)) :
  NoDup ps ->
  NoDup (target <$> stampIrregular md L tx ty
           ((fun p => Stamp.mk (p.1 - mc) (p.2 - mr) (p.2 * cols + p.1)) <$> ps)).
Proof.
  intros Hnd. unfold stampIrregular.
  rewrite list_fmap_bind, fmap_bind_list.
  apply NoDup_bind; [| |exact Hnd].
  - intros p1 p2 y _ _ H1 H2. cbn in H1, H2.
    destruct (inMap md _ _) in H1; [|apply elem_of_nil in H1; contradiction].
    destruct (inMap md _ _) in H2; [|apply elem_of_nil in H2; contradiction].
    apply list_elem_of_singleton in H1. apply list_elem_of_singleton in H2.
    subst y. unfold target in H2. cbn in H2.
    destruct p1 as [a1 b1], p2 as [a2 b2]. cbn in H2.
    injection H2 as E1 E2. f_equal; lia.
  - intros p _. cbn. destruct (inMap md _ _); [apply NoDup_singleton | constructor].
Qed.

Lemma stampRegion_targets (md : MapData.t) (L tx ty cols : Z) (r : Region.t) :
  NoDup (target <$> stampRegion md L tx ty cols r).
Proof.
  unfold stampRegion. rewrite fmap_bind_list.
  apply NoDup_bind; [| |apply NoDup_seqZ].
  - intros dy1 dy2 y _ _ H1 H2.
    apply list_elem_of_fmap_1 in H1. destruct H1 as (c1 & -> & H1).
    apply list_elem_of_fmap_1 in H2. destruct H2 as (c2 & E & H2).
    apply list_elem_of_bind in H1. destruct H1 as (dx1 & H1 & _).
    apply list_elem_of_bind in H2. destruct H2 as (dx2 & H2 & _).
    destruct (inMap md _ _) in H1; [|apply elem_of_nil in H1; contradiction].
    destruct (inMap md _ _) in H2; [|apply elem_of_nil in H2; contradiction].
    apply list_elem_of_singleton in H1. apply list_elem_of_singleton in H2.
    subst c1 c2. unfold target in E. cbn in E. injection E as E1 E2. lia.
  - intros dy _. rewrite fmap_bind_list.
    apply NoDup_bind; [| |apply NoDup_seqZ].
    + intros dx1 dx2 y _ _ H1 H2. cbn in H1, H2.
      destruct (inMap md _ _) in H1; [|apply elem_of_nil in H1; contradiction].
      destruct (inMap md _ _) in H2; [|apply elem_of_nil in H2; contradiction].
      apply list_elem_of_singleton in H1. apply list_elem_of_singleton in H2.
      subst y. unfold target in H2. cbn in H2. injection H2 as E1. lia.
    + intros dx _. cbn.
      destruct (inMap md _ _); [apply NoDup_singleton | constructor].
Qed.

(** X17. One call of [paintTileAt] writes no map cell twice: the cells addressed
    by its [setTile] calls are pairwise different, for the rectangular stamp
    whatever the region and for the irregular stamp because the selection
    holds each tileset cell once. *)
Theorem stamp_writes_each_cell_once (tool : EditorTool) (activeLayer : Z)
    (sel : TilePicker.t) (md : MapData.t) (worldX worldY : Q) :
  NoDup (irregularTiles sel) ->
  NoDup (target <$> (paintTileAt tool activeLayer sel md worldX worldY).2).
Proof.
  intros Hnd.
  destruct (paintTileAt_guarded tool activeLayer sel md worldX worldY)
    as [E | (HL & Hx & Hy & E)]; rewrite E; clear E; [constructor|].
  destruct tool; cbn [snd]; try constructor.
  - destruct (isIrregularSelection sel && _); cbn [snd].
    + rewrite getIrregularSelectionTiles_map.
      apply stampIrregular_targets. exact Hnd.
    + apply stampRegion_targets.
  - apply not_elem_of_nil.
  - constructor.
Qed.

End MapPaintFacts.

(** ** Instances for the tileset picker and the brush *)

Section TileInstances.

Import TilePicker TileSpec MapPaint TileSample.

Lemma sheet_nonEmpty : nonEmpty sheet.
Proof. split; vm_compute; discriminate. Qed.

Lemma picked_cells :
  irregularTiles (run picked (initial sheet)) = [(2, 1); (0, 0); (3, 3)]%Z.
Proof. vm_compute. reflexivity. Qed.

Lemma picked_NoDup : NoDup (irregularTiles (run picked (initial sheet))).
Proof.
  rewrite picked_cells. apply NoDup_ListNoDup.
  repeat constructor; cbn; intuition congruence.
Qed.

Lemma drag_selects_bounding_rectangle_witness :
  nonEmpty sheet
  /\ selectedRegion
       (onTileCanvasMove 5 5 false (onTileCanvasDown 70 40 false (initial sheet)))
     = selectedRegion
         (onTileCanvasMove 70 40 false (onTileCanvasDown 5 5 false (initial sheet))).
Proof.
  split; [exact sheet_nonEmpty|].
  destruct (drag_selects_bounding_rectangle (initial sheet) 70 40 5 5
              sheet_nonEmpty) as (_ & _ & _ & _ & _ & _ & _ & _ & H & _).
  symmetry. exact H.
Defined.

Lemma selection_stays_in_tileset_witness :
  nonEmpty sheet /\ sound (run dragged (initial sheet)).
Proof.
  split; [exact sheet_nonEmpty|].
  exact (proj1 (selection_stays_in_tileset sheet dragged sheet_nonEmpty)).
Defined.

Lemma shift_click_twice_restores_witness :
  NoDup (irregularTiles (run picked (initial sheet)))
  /\ irregularTiles
       (onTileCanvasDown 5 5 true
          (onTileCanvasDown 5 5 true (run picked (initial sheet))))
     ≡ₚ irregularTiles (run picked (initial sheet)).
Proof.
  split; [exact picked_NoDup|].
  exact (proj1 (shift_click_twice_restores (run picked (initial sheet)) 5 5
                  picked_NoDup)).
Defined.

Lemma picked_nonempty : irregularTiles (run picked (initial sheet)) <> [].
Proof. rewrite picked_cells. discriminate. Qed.

Lemma irregular_stamp_is_anchored_witness :
  irregularTiles (run picked (initial sheet)) <> []
  /\ Exists (fun t => Stamp.dx t = 0%Z)
            (getIrregularSelectionTiles (run picked (initial sheet))).
Proof.
  split; [exact picked_nonempty|].
  destruct (irregular_stamp_is_anchored (run picked (initial sheet))
              picked_nonempty) as (mc & mr & _ & _ & H & _).
  exact H.
Defined.

Lemma painted_tiles_are_tileset_tiles_witness :
  nonEmpty sheet
  /\ Forall (fun c => validTile sheet (SetTile.tileIdx c))
            (paintTileAt paint 1 (run dragged (initial sheet)) board 20 20).2.
Proof.
  split; [exact sheet_nonEmpty|].
  exact (painted_tiles_are_tileset_tiles sheet dragged 1 board 20 20
           sheet_nonEmpty).
Defined.

Lemma stamp_writes_each_cell_once_witness :
  NoDup (irregularTiles (run picked (initial sheet)))
  /\ NoDup (target <$> (paintTileAt paint 1 (run picked (initial sheet))
                                    board 20 20).2).
Proof.
  split; [exact picked_NoDup|].
  exact (stamp_writes_each_cell_once paint 1 (run picked (initial sheet))
           board 20 20 picked_NoDup).
Defined.

Lemma paintTileAt_stays_in_map_witness :
  (paintTileAt object 1 (run dragged (initial sheet)) board 20 20).2 = [].
Proof.
  destruct (paintTileAt_stays_in_map object 1 (run dragged (initial sheet))
              board 20 20) as (_ & H & _).
  apply H; discriminate.
Defined.

Lemma collision_brush_writes_one_cell_witness :
  (paintTileAt collision 1 (initial sheet) board 20 20).2 = [].
Proof.
  exact (proj1 (collision_brush_writes_one_cell true 1 (initial sheet)
                  board 20 20)).
Defined.

(** The dragged selection is the two-by-three block at the origin, and
    painting it at map cell (1, 1) of the four-by-three board clips the
    stamp to the cells that exist. *)
Example dragged_stamp_clipped :
  selectedRegion (run dragged (initial sheet)) = Region.mk 0 0 3 2
  /\ target <$> (paintTileAt paint 1 (run dragged (initial sheet))
                             board 20 20).2
     = [(1, 1); (2, 1); (3, 1); (1, 2); (2, 2); (3, 2)]%Z
  /\ SetTile.tileIdx <$> (paintTileAt paint 1 (run dragged (initial sheet))
                                      board 20 20).2
     = [0; 1; 2; 8; 9; 10]%Z.
Proof. vm_compute. repeat split; reflexivity. Qed.

(** The collision brush on an empty mask extends it up to the clicked
    cell, leaving holes before it. *)
Example collision_extends_mask :
  (paintTileAt collision 1 (initial sheet) board 40 5).1
  = [None; None; Some true].
Proof. vm_compute. reflexivity. Qed.

End TileInstances.

(** ** The object erase tool *)

Section EditorObjectFacts.

Import EditorObjects.

Variable defs : list SpriteDef.t.
Variables worldX worldY : Q.
Variable tool : MapPaint.EditorTool.

#[local] Abbreviation cand := (candidate defs worldX worldY tool).
#[local] Abbreviation score := (scoreOf worldX worldY).
#[local] Abbreviation scanned := (scanned defs worldX worldY tool).

Lemma scanned_step (pre : list PlacedObject.t) (obj : PlacedObject.t)
    (best : option nat) (bestScore : option Q) :
  scanned pre best bestScore ->
  if skipped defs worldX worldY (modeOf tool) obj
  then scanned (pre ++ [obj]) best bestScore
  else if below (score obj) bestScore
       then scanned (pre ++ [obj]) (Some (length pre)) (Some (score obj))
       else scanned (pre ++ [obj]) best bestScore.
Proof.
  intros Inv.
  assert (Hc : cand obj = negb (skipped defs worldX worldY (modeOf tool) obj))
    by reflexivity.
  destruct (skipped defs worldX worldY (modeOf tool) obj) eqn:Es; cbn in Hc.
  - (* skipped *)
    destruct best as [b|]; cbn in *.
    + destruct Inv as (o & Hb & Hs & Ho & Hmin). exists o.
      split; [apply lookup_app_l_Some; exact Hb|]. split; [exact Hs|].
      split; [exact Ho|]. intros j o' Hj Hc'.
      apply lookup_app_Some in Hj. destruct Hj as [Hj | [Hlen Hj]].
      * apply Hmin; assumption.
      * destruct (j - length pre)%nat; cbn in Hj; [|discriminate].
        injection Hj as <-. congruence.
    + destruct Inv as [Hs Hall]. split; [exact Hs|].
      apply Forall_app. split; [exact Hall|]. constructor; [exact Hc | constructor].
  - destruct best as [b|]; cbn in Inv.
    + destruct Inv as (o & Hb & Hs & Ho & Hmin). subst bestScore. cbn.
      destruct (Num.ltb (score obj) (score o)) eqn:El.
      * apply NumFacts.ltb_lt in El. exists obj.
        split; [apply list_lookup_middle; reflexivity|].
        split; [reflexivity|]. split; [exact Hc|]. intros j o' Hj Hc'.
        apply lookup_app_Some in Hj. destruct Hj as [Hj | [Hlen Hj]].
        -- destruct (Hmin j o' Hj Hc') as [H1 _]. split; [|intros _]; lra.
        -- destruct (j - length pre)%nat eqn:Ej; cbn in Hj; [|discriminate].
           injection Hj as <-. split; [lra | lia].
      * apply NumFacts.ltb_ge in El. exists o.
        split; [apply lookup_app_l_Some; exact Hb|]. split; [reflexivity|].
        split; [exact Ho|]. intros j o' Hj Hc'.
        apply lookup_app_Some in Hj. destruct Hj as [Hj | [Hlen Hj]].
        -- apply Hmin; assumption.
        -- destruct (j - length pre)%nat eqn:Ej; cbn in Hj; [|discriminate].
           injection Hj as <-. split; [exact El|].
           apply lookup_lt_Some in Hb. lia.
    + destruct Inv as [-> Hall]. cbn. exists obj.
      split; [apply list_lookup_middle; reflexivity|].
      split; [reflexivity|]. split; [exact Hc|]. intros j o' Hj Hc'.
      apply lookup_app_Some in Hj. destruct Hj as [Hj | [Hlen Hj]].
      * rewrite Forall_forall in Hall.
        assert (cand o' = false) by (apply Hall; eapply list_elem_of_lookup_2; exact Hj).
        congruence.
      * destruct (j - length pre)%nat eqn:Ej; cbn in Hj; [|discriminate].
        injection Hj as <-. split; [lra | lia].
Qed.

Lemma scan_scanned (objs pre : list PlacedObject.t) (i : nat)
    (best : option nat) (bestScore : option Q) :
  i = length pre ->
  scanned pre best bestScore ->
  exists s, scanned (pre ++ objs)
              (scan defs worldX worldY (modeOf tool) i objs best bestScore) s.
Proof.
  revert pre i best bestScore.
  induction objs as [|obj rest IH]; intros pre i best bestScore Hi Inv.
  - cbn. rewrite app_nil_r. exists bestScore. exact Inv.
  - pose proof (scanned_step pre obj best bestScore Inv) as Hstep.
    assert (Hi' : S i = length (pre ++ [obj]))
      by (rewrite length_app; cbn; lia).
    replace (pre ++ obj :: rest) with ((pre ++ [obj]) ++ rest)
      by (rewrite <- app_assoc; reflexivity).
    cbn [scan].
    change (hitScore worldX worldY (PlacedObject.x obj) (PlacedObject.y obj))
      with (score obj).
    destruct (skipped defs worldX worldY (modeOf tool) obj).
    + apply IH; assumption.
    + destruct (below (score obj) bestScore).
      * subst i. apply IH; assumption.
      * apply IH; assumption.
Qed.

(** X18. The erase tool removes at most one object, and the right one: if no
    placed object passes the mode filter and the hit test at the click,
    nothing changes; otherwise the object removed is such a candidate, no
    candidate has a smaller score (the Manhattan distance of its anchor from
    the click), every candidate placed before it has a strictly larger
    score, and all other objects stay in their order. *)
Theorem removeObjectAt_picks_nearest_hit (placedObjects : list PlacedObject.t) :
  let r := removeObjectAt defs worldX worldY tool placedObjects in
  match r.2 with
  | None =>
      r.1 = placedObjects
      /\ Forall (fun o => candidate defs worldX worldY tool o = false)
                placedObjects
  | Some o =>
      exists i, placedObjects !! i = Some o
        /\ r.1 = delete i placedObjects
        /\ candidate defs worldX worldY tool o = true
        /\ forall j o', placedObjects !! j = Some o' ->
             candidate defs worldX worldY tool o' = true ->
             scoreOf worldX worldY o <= scoreOf worldX worldY o'
             /\ ((j < i)%nat ->
                 scoreOf worldX worldY o < scoreOf worldX worldY o')
  end.
Proof.
  intros r. subst r. unfold removeObjectAt.
  destruct (scan_scanned placedObjects [] 0 None None eq_refl) as [s Inv].
  { cbn. split; [reflexivity | constructor]. }
  cbn [length app] in Inv.
  destruct (scan defs worldX worldY (modeOf tool) 0 placedObjects None None)
    as [b|]; cbn in Inv |- *.
  - destruct Inv as (o & Hb & _ & Ho & Hmin). rewrite Hb.
    exists b. split; [exact Hb|]. split; [reflexivity|].
    split; [exact Ho | exact Hmin].
  - destruct Inv as [_ Hall]. split; [reflexivity | exact Hall].
Qed.

End EditorObjectFacts.

Section PlaceThenErase.

Import EditorObjects.

Lemma abs_le (a c : Q) : - c <= a <= c -> abs a <= c.
Proof.
  intros [H1 H2]. unfold abs. destruct (Qle_bool 0 a); lra.
Qed.

Lemma abs_nonneg (a : Q) : 0 <= abs a.
Proof.
  unfold abs. destruct (Qle_bool 0 a) eqn:E.
  - apply Qle_bool_iff in E. exact E.
  - assert (~ 0 <= a) by (intros H; apply Qle_bool_iff in H; congruence). lra.
Qed.

Lemma round_close (q : Q) :
  - (1 # 2) <= MapEditorPanel.round q - q <= 1 # 2.
Proof.
  destruct (round_nearest q) as (z & -> & H1 & H2). lra.
Qed.

(** X19. An erase click at the spot of a placement finds something to remove.
    For a sprite of at least one pixel in width and half a pixel in height
    whose definition is the one registered under its name, and the erase
    tool that matches its category: the object just placed passes the hit
    test at the same click with a score of at most 1, so the erase removes an
    object of score at most 1 and the list is as long as before the
    placement; if every older candidate is farther from the click than the
    new object, it is the new object that goes and the list is restored. *)
Theorem place_then_erase_hits (defs : list SpriteDef.t) (d : SpriteDef.t)
    (id : string) (activeLayer : Z) (worldX worldY : Q)
    (tool : MapPaint.EditorTool) (placedObjects : list PlacedObject.t) :
  defByName defs !! SpriteDef.name d = Some d ->
  1 <= SpriteDef.frameWidth d * SpriteDef.scale d ->
  1 # 2 <= SpriteDef.frameHeight d * SpriteDef.scale d ->
  modeOf tool = (if String.eqb (SpriteDef.category d) "npc"
                 then NpcMode else ObjectMode) ->
  let new := PlacedObject.mk id (SpriteDef.name d) (MapEditorPanel.round worldX)
                             (MapEditorPanel.round worldY) activeLayer in
  let r := removeObjectAt defs worldX worldY tool
             (placeObject id (Some d) activeLayer worldX worldY placedObjects) in
  candidate defs worldX worldY tool new = true
  /\ scoreOf worldX worldY new <= 1
  /\ (exists o, r.2 = Some o /\ scoreOf worldX worldY o <= 1)
  /\ length r.1 = length placedObjects
  /\ (Forall (fun o' => candidate defs worldX worldY tool o' = true ->
                        scoreOf worldX worldY new < scoreOf worldX worldY o')
             placedObjects ->
      r.2 = Some new /\ r.1 = placedObjects).
Proof.
  intros Hdef Hw Hh Hmode new r.
  pose proof (round_close worldX) as [X1 X2].
  pose proof (round_close worldY) as [Y1 Y2].
  assert (Hcand : candidate defs worldX worldY tool new = true).
  { unfold candidate, skipped, isNpcDef, hitTest. cbn [new PlacedObject.spriteDefName
      PlacedObject.x PlacedObject.y]. rewrite Hdef, Hmode.
    assert (Hhit : leb (abs (MapEditorPanel.round worldX - worldX))
                       (SpriteDef.frameWidth d * SpriteDef.scale d / 2)
                   && Num.geb (MapEditorPanel.round worldY - worldY) (- (16))
                   && leb (MapEditorPanel.round worldY - worldY)
                          (SpriteDef.frameHeight d * SpriteDef.scale d) = true).
    { rewrite !andb_true_iff. split; [split|].
      - apply Qle_bool_iff.
        apply Qle_trans with (1 # 2); [apply abs_le; lra|].
        apply Qle_shift_div_l; [reflexivity | lra].
      - apply NumFacts.geb_ge. lra.
      - apply Qle_bool_iff. lra. }
    rewrite Hhit.
    destruct (String.eqb (SpriteDef.category d) "npc"); reflexivity. }
  assert (Hscore : scoreOf worldX worldY new <= 1).
  { unfold scoreOf, hitScore. cbn [new PlacedObject.x PlacedObject.y].
    pose proof (abs_le (MapEditorPanel.round worldX - worldX) (1 # 2)
                  (conj X1 X2)).
    pose proof (abs_le (MapEditorPanel.round worldY - worldY) (1 # 2)
                  (conj Y1 Y2)).
    lra. }
  split; [exact Hcand|]. split; [exact Hscore|].
  subst r. unfold placeObject, removeObjectAt. fold new.
  destruct (scan_scanned defs worldX worldY tool (placedObjects ++ [new]) []
              0 None None eq_refl) as [s Inv].
  { cbn. split; [reflexivity | constructor]. }
  cbn [app] in Inv.
  destruct (scan defs worldX worldY (modeOf tool) 0 (placedObjects ++ [new])
                 None None) as [b|]; cbn in Inv.
  - destruct Inv as (o & Hb & _ & Ho & Hmin). cbn [fst snd]. rewrite Hb.
    assert (Hnew : (placedObjects ++ [new]) !! length placedObjects = Some new)
      by (apply list_lookup_middle; reflexivity).
    destruct (Hmin _ _ Hnew Hcand) as [Hle Hlt].
    pose proof (lookup_lt_Some _ _ _ Hb) as Hlen.
    rewrite length_app in Hlen. cbn [length] in Hlen.
    split; [exists o; split; [reflexivity | lra]|].
    split; [rewrite length_delete by (rewrite Hb; eauto);
            rewrite length_app; cbn; lia|].
    intros Hfar.
    assert (Eb : b = length placedObjects).
    { destruct (decide (b = length placedObjects)) as [E | Hne]; [exact E|].
      exfalso. assert (Hin : placedObjects !! b = Some o).
      { rewrite lookup_app_l in Hb by lia. exact Hb. }
      rewrite Forall_forall in Hfar.
      pose proof (Hfar o (list_elem_of_lookup_2 _ _ _ Hin) Ho). lra. }
    subst b. rewrite Hnew in Hb. injection Hb as <-.
    split; [reflexivity|].
    replace (placedObjects ++ [new]) with (placedObjects ++ new :: [])
      by reflexivity.
    rewrite delete_middle. apply app_nil_r.
  - exfalso. destruct Inv as [_ Hall]. rewrite Forall_forall in Hall.
    assert (candidate defs worldX worldY tool new = false).
    { apply Hall. apply elem_of_app. right. apply list_elem_of_here. }
    congruence.
Qed.

End PlaceThenErase.

Section EditorObjectInstances.

Import EditorObjects ObjectSample.

(** At a click between the barrels the object tool skips the guard, which
    is nearer, and of the two barrels at equal distance takes the first. *)
Example erase_skips_npc :
  snd (removeObjectAt defs 102 101 MapPaint.object_erase placed)
  = Some (PlacedObject.mk "a" "barrel" 100 100 2)
  /\ snd (removeObjectAt defs 102 101 MapPaint.npc_erase placed)
     = Some (PlacedObject.mk "b" "guard" 104 100 2)
  /\ PlacedObject.id <$> fst (removeObjectAt defs 102 101 MapPaint.object_erase placed)
     = ["b"; "c"; "d"]%string.
Proof. vm_compute. repeat split; reflexivity. Qed.

Lemma removeObjectAt_witness :
  snd (removeObjectAt defs 500 500 MapPaint.object_erase placed) = None
  /\ fst (removeObjectAt defs 500 500 MapPaint.object_erase placed) = placed.
Proof.
  pose proof (removeObjectAt_picks_nearest_hit defs 500 500
                MapPaint.object_erase placed) as H.
  cbv zeta in H.
  assert (E : snd (removeObjectAt defs 500 500 MapPaint.object_erase placed)
              = None) by (vm_compute; reflexivity).
  rewrite E in H. split; [exact E | exact (proj1 H)].
Defined.

Lemma place_then_erase_hits_witness :
  (removeObjectAt defs 200 200 MapPaint.object_erase
     (placeObject "e" (Some (SpriteDef.mk "barrel" "prop" 16 16 2)) 2
                  200 200 placed)).1
  = placed.
Proof.
  refine (proj2 (proj2 (proj2 (proj2 (proj2
            (place_then_erase_hits defs (SpriteDef.mk "barrel" "prop" 16 16 2)
               "e" 2 200 200 MapPaint.object_erase placed _ _ _ _)))) _)).
  - reflexivity.
  - vm_compute. discriminate.
  - vm_compute. discriminate.
  - reflexivity.
  - repeat constructor; intros H; vm_compute in H; discriminate.
Defined.

End EditorObjectInstances.

(** ** Labels and portals *)

Section ZoneFacts.

Import Zones.

Lemma findIndex_Some {A} (p : A -> bool) (l : list A) (i : nat) :
  findIndex p l = Some i ->
  exists a, l !! i = Some a /\ p a = true
    /\ l = take i l ++ a :: drop (S i) l
    /\ Forall (fun b => p b = false) (take i l).
Proof.
  revert i. induction l as [|a l IH]; intros i H; cbn in H; [discriminate|].
  destruct (p a) eqn:E.
  - injection H as <-. exists a. cbn. rewrite drop_0. auto.
  - destruct (findIndex p l) as [k|] eqn:Ek; cbn in H; [|discriminate].
    injection H as <-. destruct (IH k eq_refl) as (b & Hb & Hp & Hl & Hall).
    exists b. cbn. split; [exact Hb|]. split; [exact Hp|].
    split; [f_equal; exact Hl|]. constructor; assumption.
Qed.

Lemma findIndex_None {A} (p : A -> bool) (l : list A) :
  findIndex p l = None <-> Forall (fun b => p b = false) l.
Proof.
  induction l as [|a l IH]; cbn.
  - split; [constructor | reflexivity].
  - destruct (p a) eqn:E.
    + split; [discriminate|]. intros H. inversion H; congruence.
    + destruct (findIndex p l) as [k|]; cbn.
      * split; [discriminate|]. intros H. inversion H; subst.
        apply IH in H3. discriminate.
      * split; [|reflexivity]. intros _. constructor; [exact E|].
        apply IH. reflexivity.
Qed.

Lemma findIndex_snoc {A} (p : A -> bool) (l : list A) (a : A) :
  Forall (fun b => p b = false) l -> p a = true ->
  findIndex p (l ++ [a]) = Some (length l).
Proof.
  intros H Ha. induction H as [|b l Hb _ IH]; cbn.
  - rewrite Ha. reflexivity.
  - rewrite Hb, IH. reflexivity.
Qed.

Lemma floorDiv_mono (a a' b : Q) :
  0 < b -> a <= a' -> (TilePicker.floorDiv a b <= TilePicker.floorDiv a' b)%Z.
Proof.
  intros Hb H. unfold TilePicker.floorDiv. apply Qfloor_resp_le.
  unfold Qdiv. apply Qmult_le_compat_r; [exact H|].
  apply Qlt_le_weak, Qinv_lt_0_compat, Hb.
Qed.

Lemma floorDiv_bounds (a b : Q) :
  inject_Z (TilePicker.floorDiv a b) <= a / b
  /\ a / b < inject_Z (TilePicker.floorDiv a b) + 1.
Proof.
  unfold TilePicker.floorDiv. split; [apply Qfloor_le|].
  pose proof (Qlt_floor (a / b)) as H. rewrite inject_Z_plus in H. exact H.
Qed.

Lemma div_mono (a a' b : Q) : 0 < b -> a <= a' -> a / b <= a' / b.
Proof.
  intros Hb H. unfold Qdiv. apply Qmult_le_compat_r; [exact H|].
  apply Qlt_le_weak, Qinv_lt_0_compat, Hb.
Qed.

(** The two outcomes of the second label click on the label list. *)
Lemma placeLabel_cases (name : string) (new : Label.t) (ls : list Label.t) :
  Label.name new = name ->
  let ls' := match findIndex (fun l => String.eqb (Label.name l) name) ls with
             | Some i => <[i := new]> ls
             | None => ls ++ [new]
             end in
  (exists pre old post, ls = pre ++ old :: post /\ ls' = pre ++ new :: post
      /\ Label.name old = name
      /\ Forall (fun l => Label.name l <> name) pre)
  \/ (ls' = ls ++ [new] /\ Forall (fun l => Label.name l <> name) ls).
Proof.
  intros Hn ls'. subst ls'.
  destruct (findIndex _ ls) as [i|] eqn:E.
  - left. apply findIndex_Some in E. destruct E as (old & Hi & Hp & Hl & Hall).
    exists (take i ls), old, (drop (S i) ls). split; [exact Hl|].
    split.
    + rewrite insert_take_drop by (eapply lookup_lt_Some; exact Hi). reflexivity.
    + split; [apply String.eqb_eq; exact Hp|].
      eapply Forall_impl; [exact Hall|]. cbn. intros l Hl' Heq.
      apply String.eqb_eq in Heq. congruence.
  - right. split; [reflexivity|]. apply findIndex_None in E.
    eapply Forall_impl; [exact E|]. cbn. intros l Hl' Heq.
    apply String.eqb_eq in Heq. congruence.
Qed.

(** X20. Label names stay unique: whatever the click and the draft name, if no
    two labels of the map share a name before [handleLabelClick], none do
    after it. When the click is the second one of a named label on a loaded
    map, the map holds a label of that name whose zone is the bounding
    rectangle of the two clicked tiles, a label that had the name is
    replaced in place, every label of another name is kept in its order, and
    the start corner is cleared. *)
Theorem label_click_keeps_names_unique (tileX tileY : Z) (st : Zones.t)
    (md : option MapData.t) :
  NoDup (labelNames md) ->
  let r := handleLabelClick tileX tileY st md in
  NoDup (labelNames r.2)
  /\ (forall start m,
        truthy (labelDraftName st) = true -> labelStart st = Some start ->
        md = Some m ->
        let new := Label.mk (labelDraftName st)
                            (Z.min start.1 tileX) (Z.min start.2 tileY)
                            (Some (Z.abs (tileX - start.1) + 1)%Z)
                            (Some (Z.abs (tileY - start.2) + 1)%Z) in
        new ∈ labelsOf r.2
        /\ zoneCovers (Label.x new) (Label.y new)
                      (Z.abs (tileX - start.1) + 1)
                      (Z.abs (tileY - start.2) + 1) start
        /\ zoneCovers (Label.x new) (Label.y new)
                      (Z.abs (tileX - start.1) + 1)
                      (Z.abs (tileY - start.2) + 1) (tileX, tileY)
        /\ length (labelsOf r.2)
           = (if bool_decide (labelDraftName st ∈ labelNames md)
              then length (labelsOf md) else S (length (labelsOf md)))
        /\ filter (fun l => Label.name l <> labelDraftName st) (labelsOf r.2)
           = filter (fun l => Label.name l <> labelDraftName st) (labelsOf md)
        /\ labelStart r.1 = None).
Proof.
  intros Hnd r. subst r. unfold handleLabelClick.
  destruct (truthy (labelDraftName st)) eqn:Et; cbn [negb];
    [|split; [exact Hnd | intros; discriminate]].
  destruct (labelStart st) as [start|] eqn:Es;
    [|split; [exact Hnd | intros; discriminate]].
  destruct md as [m|]; [|split; [exact Hnd | intros; discriminate]].
  cbn [fst snd labelNames labelsOf MapData.withLabels MapData.labels default
       from_option id] in *.
  set (new := Label.mk (labelDraftName st) (Z.min start.1 tileX)
                (Z.min start.2 tileY) (Some (Z.abs (tileX - start.1) + 1)%Z)
                (Some (Z.abs (tileY - start.2) + 1)%Z)).
  set (ls := default [] (MapData.labels m)) in *.
  destruct (placeLabel_cases (labelDraftName st) new ls eq_refl)
    as [(pre & old & post & El & El' & Hold & Hpre) | [El' Hall]];
    cbv zeta in El'; rewrite El'; clear El'.
  - (* replaced in place *)
    assert (En : Label.name <$> (pre ++ new :: post) = Label.name <$> ls).
    { rewrite El, !fmap_app, !fmap_cons. cbn. rewrite Hold. reflexivity. }
    split; [rewrite En; exact Hnd|].
    intros start' m' _ [= <-] [= <-]. fold new.
    split; [apply elem_of_app; right; apply list_elem_of_here|].
    split; [unfold zoneCovers; cbn; lia|].
    split; [unfold zoneCovers; cbn; lia|].
    split.
    { rewrite bool_decide_eq_true_2.
      - rewrite El, !length_app. reflexivity.
      - rewrite El, fmap_app, fmap_cons, Hold.
        apply elem_of_app. right. apply list_elem_of_here. }
    split; [|reflexivity].
    rewrite El, !filter_app.
    rewrite !filter_cons_False; [reflexivity | |].
    + intros H. apply H. exact Hold.
    + intros H. apply H. reflexivity.
  - (* appended *)
    assert (Hfresh : labelDraftName st ∉ Label.name <$> ls).
    { intros Hin. apply list_elem_of_fmap_1 in Hin.
      destruct Hin as (l & Hl & Hin). rewrite Forall_forall in Hall.
      apply (Hall l Hin). symmetry. exact Hl. }
    split.
    { rewrite fmap_app. apply NoDup_app. split; [exact Hnd|]. split.
      - intros x Hx Hx'. cbn in Hx'. apply list_elem_of_singleton in Hx'.
        subst x. contradiction.
      - apply NoDup_singleton. }
    intros start' m' _ [= <-] [= <-]. fold new.
    split; [apply elem_of_app; right; apply list_elem_of_here|].
    split; [unfold zoneCovers; cbn; lia|].
    split; [unfold zoneCovers; cbn; lia|].
    split.
    { rewrite bool_decide_eq_false_2 by exact Hfresh.
      rewrite length_app. cbn. lia. }
    split; [|reflexivity].
    rewrite filter_app, filter_cons_False, filter_nil, app_nil_r;
      [reflexivity|].
    intros H. apply H. reflexivity.
Qed.

(** X21. Drawing a label and erasing it again restores the labels of the map:
    if the draft name is new, no start corner is pending, and no label of
    the map holds the tile of the erase click, then two label clicks
    followed by an erase click anywhere inside the bounding box of the two
    clicks (in world coordinates, tile sizes positive) leave the label list
    as it was. *)
Theorem label_place_then_erase (st : Zones.t) (m : MapData.t)
    (x1 y1 x2 y2 ex ey : Q) :
  0 < MapData.tileWidth m -> 0 < MapData.tileHeight m ->
  truthy (labelDraftName st) = true ->
  labelStart st = None ->
  labelDraftName st ∉ labelNames (Some m) ->
  Qmin x1 x2 <= ex <= Qmax x1 x2 -> Qmin y1 y2 <= ey <= Qmax y1 y2 ->
  Forall (fun l => labelContains
                     (TilePicker.floorDiv ex (MapData.tileWidth m))
                     (TilePicker.floorDiv ey (MapData.tileHeight m)) l = false)
         (labelsOf (Some m)) ->
  let first := clickLabel x1 y1 st (Some m) in
  let second := clickLabel x2 y2 first.1 first.2 in
  length (labelsOf second.2) = S (length (labelsOf (Some m)))
  /\ labelsOf (removeLabelAt ex ey second.2) = labelsOf (Some m)
  /\ labelStart second.1 = None.
Proof.
  intros Htw Hth Et Es Hfresh Hx Hy Hfree first second.
  set (tw := MapData.tileWidth m) in *. set (th := MapData.tileHeight m) in *.
  set (t1x := TilePicker.floorDiv x1 tw). set (t1y := TilePicker.floorDiv y1 th).
  set (t2x := TilePicker.floorDiv x2 tw). set (t2y := TilePicker.floorDiv y2 th).
  set (tex := TilePicker.floorDiv ex tw) in *.
  set (tey := TilePicker.floorDiv ey th) in *.
  set (ls := default [] (MapData.labels m)).
  set (new := Label.mk (labelDraftName st) (Z.min t1x t2x) (Z.min t1y t2y)
                (Some (Z.abs (t2x - t1x) + 1)%Z) (Some (Z.abs (t2y - t1y) + 1)%Z)).
  assert (E1 : first = (Zones.mk (portalDraft st) (portalPlacing st)
                          (portalStart st) (labelDraftName st)
                          (Some (t1x, t1y)), Some m)).
  { subst first. unfold clickLabel, handleLabelClick. rewrite Et, Es.
    reflexivity. }
  assert (Hnone : findIndex (fun l => String.eqb (Label.name l)
                                         (labelDraftName st)) ls = None).
  { apply findIndex_None, Forall_forall. intros l Hl.
    apply String.eqb_neq. intros Hn. apply Hfresh. cbn. fold ls.
    rewrite <- Hn. apply list_elem_of_fmap_2. exact Hl. }
  assert (E2 : second = (Zones.mk (portalDraft st) (portalPlacing st)
                           (portalStart st) (labelDraftName st) None,
                         Some (MapData.withLabels (ls ++ [new]) m))).
  { subst second. rewrite E1. cbn [fst snd].
    unfold clickLabel, handleLabelClick.
    cbn [labelDraftName labelStart portalDraft portalPlacing portalStart fst snd].
    rewrite Et. cbn [negb]. fold tw th t2x t2y ls. rewrite Hnone. reflexivity. }
  rewrite E2. cbn [fst snd labelsOf MapData.withLabels MapData.labels default
                   from_option id labelStart]. fold ls.
  split; [rewrite length_app; cbn; lia|]. split; [|reflexivity].
  unfold removeLabelAt.
  cbn [MapData.withLabels MapData.labels MapData.tileWidth MapData.tileHeight].
  fold tw th tex tey.
  assert (Hin : labelContains tex tey new = true).
  { destruct Hx as [Hx1 Hx2], Hy as [Hy1 Hy2].
    assert ((Z.min t1x t2x <= tex <= Z.max t1x t2x)%Z).
    { split.
      - destruct (Q.min_spec x1 x2) as [[_ Em] | [_ Em]]; rewrite Em in Hx1.
        + pose proof (floorDiv_mono _ _ tw Htw Hx1). subst t1x tex. lia.
        + pose proof (floorDiv_mono _ _ tw Htw Hx1). subst t2x tex. lia.
      - destruct (Q.max_spec x1 x2) as [[_ Em] | [_ Em]]; rewrite Em in Hx2.
        + pose proof (floorDiv_mono _ _ tw Htw Hx2). subst t2x tex. lia.
        + pose proof (floorDiv_mono _ _ tw Htw Hx2). subst t1x tex. lia. }
    assert ((Z.min t1y t2y <= tey <= Z.max t1y t2y)%Z).
    { split.
      - destruct (Q.min_spec y1 y2) as [[_ Em] | [_ Em]]; rewrite Em in Hy1.
        + pose proof (floorDiv_mono _ _ th Hth Hy1). subst t1y tey. lia.
        + pose proof (floorDiv_mono _ _ th Hth Hy1). subst t2y tey. lia.
      - destruct (Q.max_spec y1 y2) as [[_ Em] | [_ Em]]; rewrite Em in Hy2.
        + pose proof (floorDiv_mono _ _ th Hth Hy2). subst t2y tey. lia.
        + pose proof (floorDiv_mono _ _ th Hth Hy2). subst t1y tey. lia. }
    unfold labelContains, new.
    cbn [Label.x Label.y Label.width Label.height default from_option id].
    rewrite !andb_true_iff, !Z.leb_le, !Z.ltb_lt. lia. }
  rewrite (findIndex_snoc _ ls new Hfree Hin).
  cbn [labelsOf MapData.withLabels MapData.labels default from_option id].
  replace (ls ++ [new]) with (ls ++ new :: []) by reflexivity.
  rewrite delete_middle. apply app_nil_r.
Qed.

(** X22. Drawing a portal and erasing it again restores the portals of the map:
    with a name and a target map filled in and no start corner pending, two
    portal clicks append one portal whose zone is the bounding rectangle of
    the two clicked tiles, and an erase click anywhere inside the bounding
    box of the two clicks (world coordinates, tile sizes positive) removes
    it again, provided no earlier portal holds the erase position. *)
Theorem portal_place_then_erase (st : Zones.t) (m : MapData.t)
    (x1 y1 x2 y2 ex ey : Q) :
  0 < MapData.tileWidth m -> 0 < MapData.tileHeight m ->
  truthy (PortalDraft.name (portalDraft st)) = true ->
  truthy (PortalDraft.targetMap (portalDraft st)) = true ->
  portalStart st = None ->
  Qmin x1 x2 <= ex <= Qmax x1 x2 -> Qmin y1 y2 <= ey <= Qmax y1 y2 ->
  Forall (fun p => portalContains (ex / MapData.tileWidth m)
                                  (ey / MapData.tileHeight m) p = false)
         (portalsOf (Some m)) ->
  let first := clickPortal x1 y1 st (Some m) in
  let second := clickPortal x2 y2 first.1 first.2 in
  (exists p, portalsOf second.2 = portalsOf (Some m) ++ [p]
     /\ Portal.name p = PortalDraft.name (portalDraft st)
     /\ zoneCovers (Portal.x p) (Portal.y p) (Portal.width p) (Portal.height p)
          (TilePicker.floorDiv x1 (MapData.tileWidth m),
           TilePicker.floorDiv y1 (MapData.tileHeight m))
     /\ zoneCovers (Portal.x p) (Portal.y p) (Portal.width p) (Portal.height p)
          (TilePicker.floorDiv x2 (MapData.tileWidth m),
           TilePicker.floorDiv y2 (MapData.tileHeight m)))
  /\ portalsOf (removePortalAt ex ey second.2) = portalsOf (Some m)
  /\ portalStart second.1 = None /\ portalPlacing second.1 = false.
Proof.
  intros Htw Hth En Em Es Hx Hy Hfree first second.
  set (tw := MapData.tileWidth m) in *. set (th := MapData.tileHeight m) in *.
  set (t1x := TilePicker.floorDiv x1 tw). set (t1y := TilePicker.floorDiv y1 th).
  set (t2x := TilePicker.floorDiv x2 tw). set (t2y := TilePicker.floorDiv y2 th).
  set (d := portalDraft st) in *.
  set (ps := default [] (MapData.portals m)).
  set (new := Portal.mk (PortalDraft.name d) (Z.min t1x t2x) (Z.min t1y t2y)
                (Z.abs (t2x - t1x) + 1) (Z.abs (t2y - t1y) + 1)
                (PortalDraft.targetMap d) (PortalDraft.targetSpawn d)
                (if truthy (PortalDraft.direction d)
                 then Some (PortalDraft.direction d) else None)
                (if truthy (PortalDraft.transition d)
                 then PortalDraft.transition d else "fade"%string)).
  assert (E1 : first = (Zones.mk d true (Some (t1x, t1y)) (labelDraftName st)
                          (labelStart st), Some m)).
  { subst first. unfold clickPortal, handlePortalClick. fold d.
    rewrite En, Em, Es. reflexivity. }
  assert (E2 : second = (Zones.mk d false None (labelDraftName st)
                           (labelStart st),
                         Some (MapData.withPortals (ps ++ [new]) m))).
  { subst second. rewrite E1. cbn [fst snd].
    unfold clickPortal, handlePortalClick.
    cbn [labelDraftName labelStart portalDraft portalPlacing portalStart fst snd].
    rewrite En, Em. reflexivity. }
  rewrite E2. cbn [fst snd portalsOf MapData.withPortals MapData.portals default
                   from_option id portalStart portalPlacing]. fold ps.
  split.
  { exists new. split; [reflexivity|]. split; [reflexivity|].
    unfold zoneCovers. cbn. lia. }
  split; [|split; reflexivity].
  unfold removePortalAt.
  cbn [MapData.withPortals MapData.portals MapData.tileWidth MapData.tileHeight].
  fold tw th.
  assert (Hin : portalContains (ex / tw) (ey / th) new = true).
  { unfold portalContains. cbn [Portal.x Portal.y Portal.width Portal.height new].
    destruct Hx as [Hx1 Hx2], Hy as [Hy1 Hy2].
    pose proof (floorDiv_bounds x1 tw) as [A1 A2].
    pose proof (floorDiv_bounds x2 tw) as [A3 A4].
    pose proof (floorDiv_bounds y1 th) as [B1 B2].
    pose proof (floorDiv_bounds y2 th) as [B3 B4].
    fold t1x in A1, A2. fold t2x in A3, A4.
    fold t1y in B1, B2. fold t2y in B3, B4.
    set (u := ex / tw) in *. set (v := ey / th) in *.
    assert (Lx : inject_Z (Z.min t1x t2x) <= u).
    { destruct (Q.min_spec x1 x2) as [[_ Emin] | [_ Emin]]; rewrite Emin in Hx1;
        pose proof (div_mono _ _ tw Htw Hx1) as D; fold u in D.
      - assert (inject_Z (Z.min t1x t2x) <= inject_Z t1x)
          by (rewrite <- Zle_Qle; lia). lra.
      - assert (inject_Z (Z.min t1x t2x) <= inject_Z t2x)
          by (rewrite <- Zle_Qle; lia). lra. }
    assert (Ux : u < inject_Z (Z.min t1x t2x) + inject_Z (Z.abs (t2x - t1x) + 1)).
    { rewrite <- inject_Z_plus.
      replace (Z.min t1x t2x + (Z.abs (t2x - t1x) + 1))%Z
        with (Z.max t1x t2x + 1)%Z by lia.
      rewrite inject_Z_plus. change (inject_Z 1) with 1.
      destruct (Q.max_spec x1 x2) as [[_ Emax] | [_ Emax]]; rewrite Emax in Hx2;
        pose proof (div_mono _ _ tw Htw Hx2) as D; fold u in D.
      - assert (inject_Z t2x <= inject_Z (Z.max t1x t2x))
          by (rewrite <- Zle_Qle; lia). lra.
      - assert (inject_Z t1x <= inject_Z (Z.max t1x t2x))
          by (rewrite <- Zle_Qle; lia). lra. }
    assert (Ly : inject_Z (Z.min t1y t2y) <= v).
    { destruct (Q.min_spec y1 y2) as [[_ Emin] | [_ Emin]]; rewrite Emin in Hy1;
        pose proof (div_mono _ _ th Hth Hy1) as D; fold v in D.
      - assert (inject_Z (Z.min t1y t2y) <= inject_Z t1y)
          by (rewrite <- Zle_Qle; lia). lra.
      - assert (inject_Z (Z.min t1y t2y) <= inject_Z t2y)
          by (rewrite <- Zle_Qle; lia). lra. }
    assert (Uy : v < inject_Z (Z.min t1y t2y) + inject_Z (Z.abs (t2y - t1y) + 1)).
    { rewrite <- inject_Z_plus.
      replace (Z.min t1y t2y + (Z.abs (t2y - t1y) + 1))%Z
        with (Z.max t1y t2y + 1)%Z by lia.
      rewrite inject_Z_plus. change (inject_Z 1) with 1.
      destruct (Q.max_spec y1 y2) as [[_ Emax] | [_ Emax]]; rewrite Emax in Hy2;
        pose proof (div_mono _ _ th Hth Hy2) as D; fold v in D.
      - assert (inject_Z t2y <= inject_Z (Z.max t1y t2y))
          by (rewrite <- Zle_Qle; lia). lra.
      - assert (inject_Z t1y <= inject_Z (Z.max t1y t2y))
          by (rewrite <- Zle_Qle; lia). lra. }
    rewrite !andb_true_iff. repeat split.
    - apply NumFacts.geb_ge. exact Lx.
    - apply NumFacts.ltb_lt. exact Ux.
    - apply NumFacts.geb_ge. exact Ly.
    - apply NumFacts.ltb_lt. exact Uy. }
  rewrite (findIndex_snoc _ ps new Hfree Hin).
  cbn [portalsOf MapData.withPortals MapData.portals default from_option id].
  replace (ps ++ [new]) with (ps ++ new :: []) by reflexivity.
  rewrite delete_middle. apply app_nil_r.
Qed.

End ZoneFacts.

Section ZoneInstances.

Import Zones ZoneSample.

Lemma level_names_unique : NoDup (labelNames (Some level)).
Proof.
  apply NoDup_ListNoDup. repeat constructor; cbn; intuition discriminate.
Qed.

Lemma label_click_keeps_names_unique_witness :
  NoDup (labelNames (Some level))
  /\ NoDup (labelNames
              (handleLabelClick 9 10
                 (Zones.mk (portalDraft editor) false None "shop" (Some (8, 8)%Z))
                 (Some level)).2).
Proof.
  split; [exact level_names_unique|].
  exact (proj1 (label_click_keeps_names_unique 9 10
                  (Zones.mk (portalDraft editor) false None "shop"
                            (Some (8, 8)%Z))
                  (Some level) level_names_unique)).
Defined.

Lemma label_place_then_erase_witness :
  labelsOf (removeLabelAt 140 150
              (clickLabel 150 170 (clickLabel 130 130 editor (Some level)).1
                          (clickLabel 130 130 editor (Some level)).2).2)
  = labelsOf (Some level).
Proof.
  refine (proj1 (proj2 (label_place_then_erase editor level 130 130 150 170
                          140 150 _ _ _ _ _ _ _ _))).
  - reflexivity.
  - reflexivity.
  - reflexivity.
  - reflexivity.
  - intros H. apply list_elem_of_In in H. cbn in H. intuition discriminate.
  - split; vm_compute; discriminate.
  - split; vm_compute; discriminate.
  - repeat constructor.
Defined.

Lemma portal_place_then_erase_witness :
  portalsOf (removePortalAt 140 150
               (clickPortal 150 170 (clickPortal 130 130 editor (Some level)).1
                            (clickPortal 130 130 editor (Some level)).2).2)
  = portalsOf (Some level).
Proof.
  refine (proj1 (proj2 (portal_place_then_erase editor level 130 130 150 170
                          140 150 _ _ _ _ _ _ _ _))).
  - reflexivity.
  - reflexivity.
  - reflexivity.
  - reflexivity.
  - reflexivity.
  - split; vm_compute; discriminate.
  - split; vm_compute; discriminate.
  - constructor.
Defined.

(** Redrawing the label "shop" moves it without changing its place in the
    list. *)
Example redraw_label_in_place :
  labelsOf (handleLabelClick 9 10
              (Zones.mk (portalDraft editor) false None "shop" (Some (8, 8)%Z))
              (Some level)).2
  = [Label.mk "start1" 2 2 None None;
     Label.mk "shop" 8 8 (Some 2%Z) (Some 3%Z)].
Proof. reflexivity. Qed.

(** A label stored without extents is one tile: a click on the tile removes
    it, a click on the next tile does not. *)
Example erase_unit_label :
  labelNames (removeLabelAt 40 40 (Some level)) = ["shop"]%string
  /\ labelNames (removeLabelAt 50 40 (Some level)) = ["start1"; "shop"]%string.
Proof. vm_compute. split; reflexivity. Qed.

End ZoneInstances.

(** ** Doors *)

Section DoorFacts.

Import Doors.

Lemma lastChange_app (a b : list Effect) :
  lastChange (a ++ b)
  = match lastChange b with
    | Some c => Some c
    | None => lastChange a
    end.
Proof.
  induction a as [|e a IH]; cbn.
  - destruct (lastChange b); reflexivity.
  - destruct e as [tiles blocked | url vol]; [|exact IH].
    rewrite IH. destruct (lastChange b); [reflexivity|].
    destruct (lastChange a); reflexivity.
Qed.

Lemma lastChange_oneShot (audio : bool) (url : option string) :
  lastChange (oneShot audio url) = None.
Proof.
  unfold oneShot. destruct url as [u|]; [|reflexivity].
  destruct (negb (String.eqb u "") && audio); reflexivity.
Qed.

Lemma collisionChange_hooked (r : Doors.t) (tiles : list (Z * Z)) (b : bool) :
  doorCollisionTiles r = Some tiles -> tiles <> [] ->
  collisionChange true r b = [CollisionChange tiles b].
Proof.
  intros Ht Hne. unfold collisionChange, hasTiles. rewrite Ht.
  destruct tiles; [congruence | reflexivity].
Qed.

Lemma step_consistent (audio : bool) (tiles : list (Z * Z)) (e : Event)
    (st : Doors.t * list Effect) :
  tiles <> [] -> consistent tiles st ->
  consistent tiles ((step audio true e st.1).1, st.2 ++ (step audio true e st.1).2).
Proof.
  intros Hne [Ht Hs]. destruct st as [r tr]. cbn [fst snd] in *.
  destruct r as [s on tl opf clf oc pr os cs]. cbn in Ht. subst tl.
  assert (Hcc : forall s' on' oc' pr' b,
             collisionChange true
               (Doors.mk s' on' (Some tiles) opf clf oc' pr' os cs) b
             = [CollisionChange tiles b]).
  { intros. apply collisionChange_hooked; [reflexivity | exact Hne]. }
  destruct e as [target|].
  - (* toggle *)
    cbn [step]. unfold applyDoorTransition. cbn [doorState].
    destruct s; cbn in Hs.
    + (* closed *)
      destruct Hs as (Hl & -> & -> & ->).
      destruct target.
      * unfold withState, withOnComplete, withPromptText, setDoorOpen. cbn.
        destruct (hasFrames opf); cbn; unfold consistent; cbn;
          rewrite ?app_nil_r, !lastChange_app, Hcc; cbn;
          (split; [reflexivity|]); auto.
      * unfold withState, withOnComplete, withPromptText, setDoorClosed. cbn.
        destruct (hasFrames clf); cbn; unfold consistent; cbn;
          rewrite ?app_nil_r, !lastChange_app, ?Hcc, ?lastChange_oneShot; cbn;
          rewrite ?Hl; (split; [reflexivity|]); eauto.
    + (* opening *)
      cbn. unfold consistent. cbn. rewrite app_nil_r.
      split; [reflexivity | exact Hs].
    + (* open *)
      destruct Hs as (Hl & -> & -> & ->).
      destruct target.
      * unfold withState, withOnComplete, withPromptText, setDoorOpen. cbn.
        destruct (hasFrames opf); cbn; unfold consistent; cbn;
          rewrite ?app_nil_r, !lastChange_app, Hcc; cbn;
          (split; [reflexivity|]); auto.
      * unfold withState, withOnComplete, withPromptText, setDoorClosed. cbn.
        destruct (hasFrames clf); cbn; unfold consistent; cbn;
          rewrite ?app_nil_r, !lastChange_app, ?Hcc, ?lastChange_oneShot; cbn;
          rewrite ?Hl; (split; [reflexivity|]); eauto.
    + (* closing *)
      cbn. unfold consistent. cbn. rewrite app_nil_r.
      split; [reflexivity | exact Hs].
  - (* the animation ends *)
    cbn [step]. unfold animationComplete. cbn [onComplete].
    destruct s; cbn in Hs.
    + destruct Hs as (Hl & -> & -> & ->). cbn. unfold consistent. cbn.
      rewrite app_nil_r. auto.
    + destruct Hs as (Hl & -> & ->). cbn. unfold consistent. cbn.
      rewrite app_nil_r. auto.
    + destruct Hs as (Hl & -> & -> & ->). cbn. unfold consistent. cbn.
      rewrite app_nil_r. auto.
    + destruct Hs as (-> & -> & b & Hl).
      unfold withOnComplete, setDoorClosed. cbn. unfold consistent. cbn.
      rewrite lastChange_app, Hcc. cbn. auto.
Qed.

Lemma run_consistent (audio : bool) (tiles : list (Z * Z)) (es : list Event)
    (st : Doors.t * list Effect) :
  tiles <> [] -> consistent tiles st -> consistent tiles (run audio true es st).
Proof.
  intros Hne. revert st. induction es as [|e es IH]; intros st Hc; [exact Hc|].
  cbn [run]. pose proof (step_consistent audio tiles e st Hne Hc) as Hstep.
  destruct (step audio true e st.1) as [r' out]. apply IH. exact Hstep.
Qed.

(** X23. A door's collision follows its state. For a door with at least one
    collision tile on a layer whose collision callback is set, after
    [addPlacedObject] and any sequence of toggles and animation ends: a
    closed door's tiles were last reported blocked and an open or opening
    door's tiles unblocked (every report carries exactly the door's tiles);
    a door in transition always has its completion handler set, so the end
    of the animation settles it, and a resting door has none; [isOn] is true
    when open and false when closed; and the prompt offers the opposite of
    the state the door is in or moving to. *)
Theorem door_collision_follows_state (audio startsOpen : bool) (tiles : list (Z * Z))
    (openingFrames closingFrames : option nat)
    (openSound closeSound : option string) (es : list Event) :
  tiles <> [] ->
  consistent tiles
    (run audio true es
       (addDoor true startsOpen tiles openingFrames closingFrames openSound
                closeSound)).
Proof.
  intros Hne. apply run_consistent; [exact Hne|].
  unfold addDoor, consistent. cbn [fst snd doorCollisionTiles doorState].
  split; [reflexivity|].
  destruct startsOpen; cbn [doorState isOn onComplete prompt];
    rewrite collisionChange_hooked with (tiles := tiles);
    try reflexivity; try exact Hne; cbn; auto.
Qed.

Lemma div_le_mul (x a b : Q) : 0 < b -> x <= a / b -> x * b <= a.
Proof.
  intros Hb H.
  assert (E : a / b * b == a).
  { rewrite Qmult_comm. apply Qmult_div_r. intros E0. rewrite E0 in Hb.
    apply (Qlt_irrefl 0). exact Hb. }
  rewrite <- E. apply Qmult_le_compat_r; [exact H | apply Qlt_le_weak, Hb].
Qed.

Lemma div_lt_mul (y a b : Q) : 0 < b -> a / b < y -> a < y * b.
Proof.
  intros Hb H.
  assert (E : a / b * b == a).
  { rewrite Qmult_comm. apply Qmult_div_r. intros E0. rewrite E0 in Hb.
    apply (Qlt_irrefl 0). exact Hb. }
  rewrite <- E. apply Qmult_lt_compat_r; assumption.
Qed.

Lemma computeDoorCollisionTiles_elem (tw th wx wy fw fh sc : Q) (t : Z * Z) :
  0 < tw -> 0 < th ->
  let b := doorBox wx wy fw fh sc in
  t ∈ computeDoorCollisionTiles tw th wx wy fw fh sc
  <-> (TilePicker.floorDiv (Box.left b) tw <= t.1
       <= TilePicker.floorDiv (Box.right b - 1) tw)%Z
      /\ (TilePicker.floorDiv (Box.top b) th <= t.2
          <= TilePicker.floorDiv (Box.bottom b - 1) th)%Z.
Proof.
  intros Htw Hth b. unfold computeDoorCollisionTiles. fold b.
  assert (E1 : Qle_bool tw 0 = false).
  { destruct (Qle_bool tw 0) eqn:E; [|reflexivity].
    apply Qle_bool_iff in E. lra. }
  assert (E2 : Qle_bool th 0 = false).
  { destruct (Qle_bool th 0) eqn:E; [|reflexivity].
    apply Qle_bool_iff in E. lra. }
  rewrite E1, E2. cbn [orb].
  rewrite list_elem_of_bind. split.
  - intros (ty & H & Hy). apply list_elem_of_bind in H.
    destruct H as (tx & H & Hx). apply list_elem_of_singleton in H. subst t.
    apply elem_of_seqZ in Hx, Hy. cbn [fst snd]. lia.
  - intros [Hx Hy]. exists t.2. split.
    + apply list_elem_of_bind. exists t.1. split.
      * destruct t. apply list_elem_of_singleton. reflexivity.
      * apply elem_of_seqZ. lia.
    + apply elem_of_seqZ. lia.
Qed.

(** X24. The tiles a door blocks are those under its inset sprite box. With a
    non-positive tile size there are none. Otherwise no tile is listed
    twice; every world point of the box (its right and bottom edges pulled
    in by one pixel) lies on a listed tile; and every listed tile overlaps
    that box in both directions. *)
Theorem door_tiles_cover_inset_box (tw th wx wy fw fh sc : Q) :
  let b := doorBox wx wy fw fh sc in
  let tiles := computeDoorCollisionTiles tw th wx wy fw fh sc in
  (tw <= 0 \/ th <= 0 -> tiles = [])
  /\ (0 < tw -> 0 < th ->
      NoDup tiles
      /\ (forall px py,
            Box.left b <= px <= Box.right b - 1 ->
            Box.top b <= py <= Box.bottom b - 1 ->
            (TilePicker.floorDiv px tw, TilePicker.floorDiv py th) ∈ tiles)
      /\ (forall t, t ∈ tiles ->
            inject_Z t.1 * tw <= Box.right b - 1
            /\ Box.left b < (inject_Z t.1 + 1) * tw
            /\ inject_Z t.2 * th <= Box.bottom b - 1
            /\ Box.top b < (inject_Z t.2 + 1) * th)).
Proof.
  intros b tiles. split.
  - intros H. subst tiles. unfold computeDoorCollisionTiles.
    destruct H as [H | H]; apply Qle_bool_iff in H; rewrite H;
      [reflexivity | apply orb_true_r || (rewrite orb_true_r; reflexivity)].
  - intros Htw Hth. split; [|split].
    + subst tiles. unfold computeDoorCollisionTiles.
      destruct (Qle_bool tw 0 || Qle_bool th 0); [constructor|].
      apply NoDup_bind; [| |apply NoDup_seqZ].
      * intros y1 y2 t _ _ H1 H2.
        apply list_elem_of_bind in H1. destruct H1 as (x1 & H1 & _).
        apply list_elem_of_bind in H2. destruct H2 as (x2 & H2 & _).
        apply list_elem_of_singleton in H1. apply list_elem_of_singleton in H2.
        congruence.
      * intros y _. apply NoDup_bind; [| |apply NoDup_seqZ].
        -- intros x1 x2 t _ _ H1 H2.
           apply list_elem_of_singleton in H1.
           apply list_elem_of_singleton in H2. congruence.
        -- intros x _. apply NoDup_singleton.
    + intros px py [Hx1 Hx2] [Hy1 Hy2].
      apply computeDoorCollisionTiles_elem; [assumption | assumption|].
      fold b. cbn [fst snd].
      split; split; apply floorDiv_mono; assumption.
    + intros t Ht.
      apply computeDoorCollisionTiles_elem in Ht; [|assumption|assumption].
      fold b in Ht. destruct Ht as [[X1 X2] [Y1 Y2]].
      pose proof (floorDiv_bounds (Box.left b) tw) as [_ L].
      pose proof (floorDiv_bounds (Box.right b - 1) tw) as [R _].
      pose proof (floorDiv_bounds (Box.top b) th) as [_ T].
      pose proof (floorDiv_bounds (Box.bottom b - 1) th) as [B _].
      rewrite Zle_Qle in X1, X2, Y1, Y2.
      split; [apply div_le_mul; [assumption | lra]|].
      split; [apply div_lt_mul; [assumption | lra]|].
      split; [apply div_le_mul; [assumption | lra]|].
      apply div_lt_mul; [assumption | lra].
Qed.

End DoorFacts.

Section DoorInstances.

Import Doors.

(** A door sprite of 32 by 48 pixels anchored at (40, 64) on 16-pixel tiles
    blocks the three by three tiles under its inset box, row by row. *)
Example door_tiles_sample :
  computeDoorCollisionTiles 16 16 40 64 32 48 1
  = [(1, 1); (2, 1); (3, 1); (1, 2); (2, 2); (3, 2); (1, 3); (2, 3); (3, 3)]%Z
  /\ computeDoorCollisionTiles 0 16 40 64 32 48 1 = [].
Proof. vm_compute. split; reflexivity. Qed.

Lemma door_tiles_cover_inset_box_witness :
  (TilePicker.floorDiv 31 16, TilePicker.floorDiv 30 16)
  ∈ computeDoorCollisionTiles 16 16 40 64 32 48 1.
Proof.
  destruct (door_tiles_cover_inset_box 16 16 40 64 32 48 1) as [_ H].
  destruct H as (_ & H & _); [reflexivity | reflexivity |].
  apply H; split; vm_compute; discriminate.
Defined.

Lemma door_collision_follows_state_witness :
  [(1, 1); (1, 2)]%Z <> []
  /\ consistent [(1, 1); (1, 2)]%Z
       (run true true [Toggle true; Toggle false; AnimationComplete; Toggle false]
            (addDoor true false [(1, 1); (1, 2)]%Z (Some 4%nat) None
                     (Some "creak"%string) None)).
Proof.
  assert (H : [(1, 1); (1, 2)]%Z <> []) by discriminate.
  split; [exact H|].
  exact (door_collision_follows_state true false _ (Some 4%nat) None
           (Some "creak"%string) None
           [Toggle true; Toggle false; AnimationComplete; Toggle false] H).
Defined.

(** Opening a closed door unblocks its tiles at once; a toggle during the
    animation is ignored; closing without a closing animation blocks them
    again in the same call. *)
Example door_cycle :
  (run true true [Toggle true; Toggle false; AnimationComplete; Toggle false]
       (addDoor true false [(1, 1)]%Z (Some 4%nat) None
                (Some "creak"%string) None)).2
  = [CollisionChange [(1, 1)]%Z true; PlayOneShot "creak" (7 # 10);
     CollisionChange [(1, 1)]%Z false; CollisionChange [(1, 1)]%Z true].
Proof. reflexivity. Qed.

End DoorInstances.

(** ** The local player *)

Section PlayerFacts.

Import Player.

Variable sqrt : Q -> Q.
Variable worldToTile : Q -> Q -> Z * Z.
Variable isCollision : Z -> Z -> bool.

#[local] Abbreviation blocked := (isBlocked worldToTile isCollision).

(** The collision-adjusted position of one frame: the full move, or each
    axis on its own, or none. *)
Lemma updatePlayerMovement_position (isDown : string -> bool) (dt : Q) (st : t) :
  let st' := updatePlayerMovement sqrt worldToTile isCollision isDown dt st in
  exists newX newY,
    (playerX st' = newX \/ playerX st' = playerX st)
    /\ (playerY st' = newY \/ playerY st' = playerY st)
    /\ (blocked (playerX st) (playerY st) = false ->
        blocked (playerX st') (playerY st') = false)
    /\ (blocked newX newY = false ->
        playerX st' = newX /\ playerY st' = newY).
Proof.
  intros st'. subst st'. unfold updatePlayerMovement.
  match goal with
  | |- context [let '(a, b) := ?E in _] => destruct E as [dx dy]
  end.
  set (speed := MOVE_SPEED * (if isDown "Shift" then SPRINT_MULTIPLIER else 1)).
  set (newX := playerX st + dx * speed * dt).
  set (newY := playerY st + dy * speed * dt).
  exists newX, newY.
  destruct (blocked newX newY) eqn:Exy; cbn [negb].
  - destruct (blocked newX (playerY st)) eqn:Ex; cbn [negb].
    + destruct (blocked (playerX st) newY) eqn:Ey; cbn [negb];
        cbn [playerX playerY]; repeat split; auto; discriminate.
    + rewrite Exy. cbn [negb playerX playerY]. repeat split; auto.
      discriminate.
  - cbn [playerX playerY]. repeat split; auto.
Qed.

(** X25. The player never walks into a blocked position: if the box around the
    feet is free at the start, it is free after every frame, whatever keys
    are held, however long the frames are and whatever [Math.sqrt] returns;
    and in one frame each coordinate either takes the intended new value or
    stays. *)
Theorem player_never_enters_blocked (fs : list (Q * (string -> bool))) (st : t) :
  blocked (playerX st) (playerY st) = false ->
  let st' := frames sqrt worldToTile isCollision fs st in
  blocked (playerX st') (playerY st') = false.
Proof.
  revert st. induction fs as [|[dt isDown] fs IH]; intros st H; [exact H|].
  cbn [frames]. apply IH.
  destruct (updatePlayerMovement_position isDown dt st) as (nx & ny & _ & _ & Hb & _).
  apply Hb. exact H.
Qed.

Lemma axis_cases (isDown : string -> bool) (a b c d : string) :
  let neg := isDown a || isDown b in
  let pos := isDown c || isDown d in
  axis isDown a b c d
  = (if neg then - 1 else 0) + (if pos then 1 else 0).
Proof. reflexivity. Qed.

(** X26. Keys that cancel leave the player standing: when left and right are
    held alike and up and down are held alike, one frame keeps the facing,
    reports no movement and zero velocity, and leaves the position where it
    was (up to the value of the number), stopping a sprite that was
    walking. *)
Theorem cancelling_keys_stand_still (isDown : string -> bool) (dt : Q) (st : t) :
  (isDown "ArrowLeft" || isDown "a") = (isDown "ArrowRight" || isDown "d") ->
  (isDown "ArrowUp" || isDown "w") = (isDown "ArrowDown" || isDown "s") ->
  let st' := updatePlayerMovement sqrt worldToTile isCollision isDown dt st in
  playerX st' == playerX st /\ playerY st' == playerY st
  /\ playerVX st' == 0 /\ playerVY st' == 0
  /\ isMoving st' = false
  /\ playerDirection st' = playerDirection st
  /\ playerSprite st'
     = (if isMoving st then AnimatedSprite.gotoAndStop <$> playerSprite st
        else playerSprite st).
Proof.
  intros Hx Hy st'. subst st'. unfold updatePlayerMovement.
  rewrite !axis_cases. cbv zeta. rewrite Hx, Hy.
  set (speed := MOVE_SPEED * (if isDown "Shift" then SPRINT_MULTIPLIER else 1)).
  set (dxv := (if isDown "ArrowRight" || isDown "d" then - 1 else 0)
              + (if isDown "ArrowRight" || isDown "d" then 1 else 0)).
  set (dyv := (if isDown "ArrowDown" || isDown "s" then - 1 else 0)
              + (if isDown "ArrowDown" || isDown "s" then 1 else 0)).
  assert (Hdx : Qeq_bool dxv 0 = true /\ Num.ltb dxv 0 = false
                /\ Num.gtb dxv 0 = false /\ dxv == 0).
  { subst dxv. destruct (isDown "ArrowRight" || isDown "d");
      repeat split; reflexivity. }
  assert (Hdy : Qeq_bool dyv 0 = true /\ Num.ltb dyv 0 = false
                /\ Num.gtb dyv 0 = false /\ dyv == 0).
  { subst dyv. destruct (isDown "ArrowDown" || isDown "s");
      repeat split; reflexivity. }
  clearbody dxv dyv.
  destruct Hdx as (X1 & X2 & X3 & X4). destruct Hdy as (Y1 & Y2 & Y3 & Y4).
  unfold nonzero. rewrite X1, X2, X3, Y1, Y2, Y3. cbn [negb orb andb].
  assert (Ex : playerX st + dxv * speed * dt == playerX st)
    by (rewrite X4; ring).
  assert (Ey : playerY st + dyv * speed * dt == playerY st)
    by (rewrite Y4; ring).
  assert (Evx : dxv * speed == 0) by (rewrite X4; ring).
  assert (Evy : dyv * speed == 0) by (rewrite Y4; ring).
  set (newX := playerX st + dxv * speed * dt) in *.
  set (newY := playerY st + dyv * speed * dt) in *.
  assert (Hs : match
                 match playerSprite st with
                 | Some sp =>
                     if isMoving st then Some (AnimatedSprite.gotoAndStop sp)
                     else Some sp
                 | None => None
                 end
               with
               | Some sp => Some sp
               | None => None
               end
               = (if isMoving st
                  then AnimatedSprite.gotoAndStop <$> playerSprite st
                  else playerSprite st)).
  { destruct (playerSprite st), (isMoving st); reflexivity. }
  destruct (blocked newX newY); cbn [negb].
  - destruct (blocked newX (playerY st)); cbn [negb].
    + destruct (blocked (playerX st) newY); cbn [negb];
        cbn [playerX playerY playerVX playerVY isMoving playerDirection
             playerSprite];
        repeat split; try reflexivity; try assumption; exact Hs.
    + destruct (blocked newX newY); cbn [negb];
        cbn [playerX playerY playerVX playerVY isMoving playerDirection
             playerSprite];
        repeat split; try reflexivity; try assumption; exact Hs.
  - cbn [playerX playerY playerVX playerVY isMoving playerDirection
         playerSprite].
    repeat split; try reflexivity; try assumption; exact Hs.
Qed.

End PlayerFacts.

(** ** Saving placed objects *)

Section MapObjectsFacts.

Import MapObjects.

Variable now : Q.
Variable mapName : string.

Lemma has_spec (db : Db.t) (id : nat) :
  has (listByMap mapName db) id = true
  <-> exists r, Db.table db !! id = Some r /\ Row.mapName r = mapName.
Proof.
  unfold has, listByMap. rewrite existsb_exists. split.
  - intros ([k r] & Hin & Hk). cbn in Hk. apply Nat.eqb_eq in Hk. subst k.
    apply filter_In in Hin. destruct Hin as [Hin Hm]. cbn in Hm.
    apply String.eqb_eq in Hm. exists r. split; [|exact Hm].
    apply elem_of_map_to_list. apply list_elem_of_In. exact Hin.
  - intros (r & Hr & Hm). exists (id, r). split.
    + apply filter_In. split.
      * apply list_elem_of_In, elem_of_map_to_list. exact Hr.
      * cbn. apply String.eqb_eq. exact Hm.
    + cbn. apply Nat.eqb_refl.
Qed.

Lemma keptOf_snoc (db : Db.t) (done : list Incoming.t) (o : Incoming.t) :
  keptOf mapName db (done ++ [o])
  = keptOf mapName db done ++ keptOf mapName db [o].
Proof. unfold keptOf. apply omap_app. Qed.

Lemma keptOf_one (db : Db.t) (o : Incoming.t) :
  keptOf mapName db [o]
  = match Incoming.existingId o with
    | Some id => if has (listByMap mapName db) id then [id] else []
    | None => []
    end.
Proof.
  unfold keptOf. cbn. destruct (Incoming.existingId o) as [id|]; [|reflexivity].
  destruct (has (listByMap mapName db) id) eqn:E.
  - apply has_spec in E. destruct E as (r & -> & Hm).
    apply String.eqb_eq in Hm. rewrite Hm. reflexivity.
  - destruct (Db.table db !! id) as [r|] eqn:Er; [|reflexivity].
    destruct (String.eqb (Row.mapName r) mapName) eqn:Em; [|reflexivity].
    apply String.eqb_eq in Em.
    assert (has (listByMap mapName db) id = true)
      by (apply has_spec; eauto).
    congruence.
Qed.

Lemma keptOf_length (db : Db.t) (objects : list Incoming.t) :
  (length (keptOf mapName db objects) <= length objects)%nat.
Proof.
  unfold keptOf. induction objects as [|o objects IH]; cbn; [lia|].
  destruct (match Incoming.existingId o with Some _ => _ | None => _ end);
    cbn; lia.
Qed.

#[local] Abbreviation saved := (MapObjects.saved now mapName).

Lemma insert_saved (db : Db.t) (done : list Incoming.t) (o : Incoming.t)
    (acc : Db.t * gset nat) :
  wellFormed db -> keptOf mapName db [o] = [] ->
  saved db done acc ->
  saved db (done ++ [o]) (insertRow (fresh mapName o now) acc.1, acc.2).
Proof.
  intros Hwf Hk (Hn & Hkept & Hold & Hnew).
  pose proof (keptOf_length db done) as Hlen.
  unfold MapObjects.saved. cbn [fst snd insertRow Db.table Db.nextId].
  rewrite keptOf_snoc, Hk, app_nil_r, length_app. cbn [length].
  split; [lia|]. split; [exact Hkept|]. split.
  - intros id r Hr. destruct (Hold id r Hr) as (r1 & H1 & H2).
    exists r1. split; [|exact H2].
    rewrite lookup_insert_ne; [exact H1|].
    apply Hwf in Hr. lia.
  - intros id r1 H1 Hnone.
    destruct (decide (id = Db.nextId acc.1)) as [->|Hne].
    + rewrite lookup_insert_eq in H1. injection H1 as <-.
      split; [lia|]. split; reflexivity.
    + rewrite lookup_insert_ne in H1 by congruence.
      destruct (Hnew id r1 H1 Hnone) as (Hb & Hm & Hi).
      split; [lia|]. split; assumption.
Qed.

Lemma saveOne_saved (db : Db.t) (done : list Incoming.t) (o : Incoming.t)
    (acc : Db.t * gset nat) :
  wellFormed db -> saved db done acc ->
  saved db (done ++ [o]) (saveOne (listByMap mapName db) mapName now acc o).
Proof.
  intros Hwf Hs. pose proof (keptOf_one db o) as Hone.
  unfold saveOne. destruct (Incoming.existingId o) as [id|];
    [|apply insert_saved; assumption].
  destruct (has (listByMap mapName db) id) eqn:Eh;
    [|apply insert_saved; assumption].
  destruct Hs as (Hn & Hkept & Hold & Hnew).
  pose proof (keptOf_length db done) as Hlen.
  apply has_spec in Eh. destruct Eh as (r0 & Hr0 & Hm0).
  unfold MapObjects.saved. cbn [fst snd patchRow Db.table Db.nextId].
  rewrite keptOf_snoc, Hone, !length_app. cbn [length].
  split; [lia|]. split; [|split].
  - intros k. rewrite elem_of_union, elem_of_singleton, elem_of_app,
      list_elem_of_singleton, Hkept. tauto.
  - intros k r Hr. destruct (Hold k r Hr) as (r1 & H1 & Hon & Hmn & Hsame & Hupd).
    destruct (decide (k = id)) as [->|Hne].
    + exists (patched o now r1). rewrite lookup_alter_eq, H1.
      split; [reflexivity|]. split; [exact Hon|]. split; [exact Hmn|].
      split; [|reflexivity].
      intros Hnot. exfalso. apply Hnot. apply elem_of_union. left.
      apply elem_of_singleton. reflexivity.
    + exists r1. rewrite lookup_alter_ne by congruence.
      split; [exact H1|]. split; [exact Hon|]. split; [exact Hmn|]. split.
      * intros Hnot. apply Hsame. intros Hin. apply Hnot.
        apply elem_of_union. right. exact Hin.
      * intros Hin. apply Hupd. apply elem_of_union in Hin.
        destruct Hin as [Hin | Hin]; [|exact Hin].
        apply elem_of_singleton in Hin. congruence.
  - intros k r1 H1 Hnone.
    assert (k <> id) by (intros ->; congruence).
    rewrite lookup_alter_ne in H1 by congruence.
    apply Hnew; assumption.
Qed.

Lemma foldl_saved (db : Db.t) (objects : list Incoming.t) :
  wellFormed db ->
  saved db objects
        (foldl (saveOne (listByMap mapName db) mapName now) (db, ∅) objects).
Proof.
  intros Hwf. induction objects as [|o objects IH] using rev_ind.
  - unfold MapObjects.saved. cbn. split; [lia|]. split.
    + intros id. rewrite elem_of_empty. split; [contradiction|].
      intros H. apply elem_of_nil in H. contradiction.
    + split.
      * intros id r Hr. exists r. repeat split; auto.
        intros H. apply elem_of_empty in H. contradiction.
      * intros id r1 H1 Hnone. congruence.
  - rewrite foldl_app. cbn [foldl]. apply saveOne_saved; assumption.
Qed.

Lemma deleteMissing_lookup (existing : list (nat * Row.t)) (kept : gset nat)
    (d : Db.t) (k : nat) :
  Db.table (deleteMissing existing kept d) !! k
  = (if has existing k && negb (bool_decide (k ∈ kept)) then None
     else Db.table d !! k)
  /\ Db.nextId (deleteMissing existing kept d) = Db.nextId d.
Proof.
  unfold deleteMissing. revert d.
  induction existing as [|[i r] existing IH]; intros d; cbn [foldl has existsb].
  - split; reflexivity.
  - cbn [fst]. destruct (IH (if decide (i ∈ kept) then d else deleteRow i d))
      as [IH1 IH2]. unfold has in IH1. rewrite IH1, IH2. clear IH1 IH2.
    destruct (decide (i ∈ kept)) as [Hin | Hin].
    + split; [|reflexivity].
      destruct (Nat.eqb i k) eqn:E; cbn [orb]; [|reflexivity].
      apply Nat.eqb_eq in E. subst i.
      rewrite (bool_decide_eq_true_2 _ Hin). cbn [negb].
      rewrite andb_false_r. reflexivity.
    + cbn [deleteRow Db.table Db.nextId]. split; [|reflexivity].
      destruct (Nat.eqb i k) eqn:E; cbn [orb].
      * apply Nat.eqb_eq in E. subst i.
        rewrite (bool_decide_eq_false_2 _ Hin). cbn [negb].
        rewrite andb_true_r.
        destruct (existsb _ existing); [reflexivity|].
        cbn. apply lookup_delete_eq.
      * apply Nat.eqb_neq in E.
        destruct (existsb _ existing && _); [reflexivity|].
        apply lookup_delete_ne. exact E.
Qed.

(** X27. An editor save makes the map's documents those the editor holds and
    nothing else. Without editing rights the mutation throws and nothing is
    written. Otherwise, on a table whose ids are below the next id:
    documents of other maps are untouched; a document of the map survives
    exactly if its id was sent back as [existingId], and then keeps its
    [isOn] (a toggle survives the save) and its map, stamped with the time
    of the save; every other document of the result is new, belongs to the
    map and has no [isOn]; one document is created per object that names no
    document of the map; and one map sync is scheduled. *)
Theorem bulkSave_syncs_map (objects : list Incoming.t) (db : Db.t) :
  wellFormed db ->
  bulkSave false now mapName objects db = None
  /\ exists db',
       bulkSave true now mapName objects db = Some (db', [SyncMap mapName])
       /\ wellFormed db'
       /\ (forall id r, Db.table db !! id = Some r ->
             Row.mapName r <> mapName -> Db.table db' !! id = Some r)
       /\ (forall id r, Db.table db !! id = Some r ->
             Row.mapName r = mapName ->
             if bool_decide (id ∈ keptOf mapName db objects)
             then exists r', Db.table db' !! id = Some r'
                    /\ Row.isOn r' = Row.isOn r
                    /\ Row.mapName r' = mapName
                    /\ Row.updatedAt r' = now
             else Db.table db' !! id = None)
       /\ (forall id r', Db.table db' !! id = Some r' ->
             Db.table db !! id = None ->
             (Db.nextId db <= id < Db.nextId db')%nat
             /\ Row.mapName r' = mapName /\ Row.isOn r' = None)
       /\ Db.nextId db'
          = (Db.nextId db
             + (length objects - length (keptOf mapName db objects)))%nat.
Proof.
  intros Hwf. split; [reflexivity|].
  unfold bulkSave. cbn [negb].
  pose proof (foldl_saved db objects Hwf) as Hs.
  destruct (foldl (saveOne (listByMap mapName db) mapName now) (db, ∅) objects)
    as [db1 kept].
  destruct Hs as (Hn & Hkept & Hold & Hnew). cbn [fst snd] in *.
  eexists. split; [reflexivity|].
  pose proof (deleteMissing_lookup (listByMap mapName db) kept db1) as Hdel.
  assert (Hnext : Db.nextId (deleteMissing (listByMap mapName db) kept db1)
                  = Db.nextId db1) by (apply (Hdel 0%nat)).
  split; [|split; [|split; [|split]]].
  - (* ids stay below the next id *)
    intros id r Hr. rewrite Hnext.
    destruct (Hdel id) as [Hl _]. rewrite Hl in Hr.
    destruct (has _ id && _); [discriminate|].
    destruct (Db.table db !! id) as [r0|] eqn:E0.
    + apply Hwf in E0. lia.
    + destruct (Hnew id r Hr E0) as [? _]. lia.
  - intros id r Hr Hm. destruct (Hdel id) as [Hl _]. rewrite Hl.
    assert (Hh : has (listByMap mapName db) id = false).
    { destruct (has (listByMap mapName db) id) eqn:E; [|reflexivity].
      apply has_spec in E. destruct E as (r' & Hr' & Hm'). congruence. }
    rewrite Hh. cbn [andb].
    destruct (Hold id r Hr) as (r1 & H1 & _ & _ & Hsame & _).
    rewrite H1. f_equal. apply Hsame. intros Hin. apply Hkept in Hin.
    unfold keptOf in Hin. apply list_elem_of_omap in Hin.
    destruct Hin as (o & _ & Ho).
    destruct (Incoming.existingId o) as [i|]; [|discriminate].
    destruct (Db.table db !! i) as [ri|] eqn:Ei; [|discriminate].
    destruct (String.eqb (Row.mapName ri) mapName) eqn:Em; [|discriminate].
    injection Ho as ->. apply String.eqb_eq in Em. congruence.
  - intros id r Hr Hm. destruct (Hdel id) as [Hl _].
    assert (Hh : has (listByMap mapName db) id = true)
      by (apply has_spec; eauto).
    destruct (Hold id r Hr) as (r1 & H1 & Hon & Hmn & _ & Hupd).
    destruct (bool_decide (id ∈ keptOf mapName db objects)) eqn:Ek.
    + apply bool_decide_eq_true_1 in Ek. apply Hkept in Ek.
      exists r1. rewrite Hl, Hh, (bool_decide_eq_true_2 _ Ek). cbn.
      split; [exact H1|]. split; [exact Hon|]. split; [congruence|].
      apply Hupd. exact Ek.
    + apply bool_decide_eq_false_1 in Ek.
      assert (id ∉ kept) by (intros Hin; apply Ek, Hkept, Hin).
      rewrite Hl, Hh, (bool_decide_eq_false_2 _ H). reflexivity.
  - intros id r' Hr Hnone. rewrite Hnext.
    destruct (Hdel id) as [Hl _]. rewrite Hl in Hr.
    destruct (has _ id && _); [discriminate|].
    apply Hnew; assumption.
  - rewrite Hnext. exact Hn.
Qed.

(** X28. A toggle survives an editor save: after [toggle] has flipped a
    document of the map, a save that sends the document's id back as an
    [existingId] keeps the document with the toggled state, whatever else
    the save changes; the toggle itself reports success and the new state,
    an absent [isOn] counting as off. *)
Theorem toggle_survives_save (toggledAt : Q) (id : nat) (r : Row.t)
    (objects : list Incoming.t) (db : Db.t) :
  wellFormed db ->
  Db.table db !! id = Some r -> Row.mapName r = mapName ->
  (exists o, o ∈ objects /\ Incoming.existingId o = Some id) ->
  let newState := negb (default false (Row.isOn r)) in
  (toggle toggledAt id db).2 = (true, Some newState)
  /\ exists db' r',
       bulkSave true now mapName objects (toggle toggledAt id db).1
       = Some (db', [SyncMap mapName])
       /\ Db.table db' !! id = Some r'
       /\ Row.isOn r' = Some newState.
Proof.
  intros Hwf Hr Hm (o & Ho & Hid) newState.
  unfold toggle. rewrite Hr. cbn [fst snd]. split; [reflexivity|].
  set (flip := fun r0 : Row.t =>
                 Row.mk (Row.mapName r0) (Row.spriteDefName r0)
                        (Row.instanceName r0) (Row.x r0) (Row.y r0)
                        (Row.layer r0) (Row.scaleOverride r0) (Row.flipX r0)
                        (Some (negb (default false (Row.isOn r)))) toggledAt).
  set (db1 := patchRow id flip db).
  assert (Hr1 : Db.table db1 !! id = Some (flip r)).
  { subst db1. cbn. rewrite lookup_alter_eq, Hr. reflexivity. }
  assert (Hwf1 : wellFormed db1).
  { intros k rk Hk. subst db1. cbn in Hk |- *.
    destruct (decide (k = id)) as [->|Hne].
    - apply (Hwf id r Hr).
    - rewrite lookup_alter_ne in Hk by congruence. apply (Hwf k rk Hk). }
  assert (Hk : id ∈ keptOf mapName db1 objects).
  { unfold keptOf. apply list_elem_of_omap. exists o. split; [exact Ho|].
    rewrite Hid, Hr1. cbn [flip Row.mapName].
    rewrite Hm, String.eqb_refl. reflexivity. }
  unfold bulkSave. cbn [negb].
  pose proof (foldl_saved db1 objects Hwf1) as Hs.
  destruct (foldl (saveOne (listByMap mapName db1) mapName now) (db1, ∅) objects)
    as [db2 kept].
  destruct Hs as (_ & Hkept & Hold & _). cbn [fst snd] in *.
  destruct (Hold id (flip r) Hr1) as (r2 & H2 & Hon & _).
  eexists. exists r2. split; [reflexivity|].
  destruct (deleteMissing_lookup (listByMap mapName db1) kept db2 id) as [Hl _].
  rewrite Hl. apply Hkept in Hk. rewrite (bool_decide_eq_true_2 _ Hk).
  cbn [negb]. rewrite andb_false_r. split; [exact H2 | exact Hon].
Qed.

End MapObjectsFacts.

Section MapObjectsInstances.

Import MapObjects MapObjectsSample.

Lemma sample_wellFormed : wellFormed db.
Proof.
  intros id r H. unfold db in H. cbn in H |- *.
  destruct (decide (id = 0%nat)) as [->|H0]; [lia|].
  rewrite lookup_insert_ne in H by congruence.
  destruct (decide (id = 1%nat)) as [->|H1]; [lia|].
  rewrite lookup_insert_ne in H by congruence.
  destruct (decide (id = 2%nat)) as [->|H2]; [lia|].
  rewrite lookup_insert_ne in H by congruence.
  rewrite lookup_empty in H. discriminate.
Qed.

Lemma bulkSave_syncs_map_witness :
  wellFormed db
  /\ exists db', bulkSave true 9 "town" edited db = Some (db', [SyncMap "town"])
       /\ Db.nextId db' = 4%nat.
Proof.
  split; [exact sample_wellFormed|].
  destruct (bulkSave_syncs_map 9 "town" edited db sample_wellFormed)
    as (_ & db' & Hs & _ & _ & _ & _ & Hn).
  exists db'. split; [exact Hs|]. rewrite Hn. reflexivity.
Defined.

Lemma toggle_survives_save_witness :
  exists db' r',
    bulkSave true 9 "town" edited (toggle 7 0 db).1
    = Some (db', [SyncMap "town"])
    /\ Db.table db' !! 0%nat = Some r'
    /\ Row.isOn r' = Some false.
Proof.
  refine (proj2 (toggle_survives_save 9 "town" 7 0
                   (Row.mk "town" "lamp" None 10 10 2 None None (Some true) 5)
                   edited db sample_wellFormed _ _ _)).
  - reflexivity.
  - reflexivity.
  - eexists. split; [apply list_elem_of_here | reflexivity].
Defined.

(** The save of the edited town: the lamp is moved and still on, the
    barrel is deleted, the crate is created, the cave is untouched. *)
Example save_edited_town :
  match bulkSave true 9 "town" edited db with
  | Some (db', _) =>
      (Db.table db' !! 0%nat
       = Some (Row.mk "town" "lamp" None 12 10 2 None None (Some true) 9))
      /\ Db.table db' !! 1%nat = None
      /\ Db.table db' !! 2%nat = Db.table db !! 2%nat
      /\ (Db.table db' !! 3%nat
          = Some (Row.mk "town" "crate" None 40 40 2 None None None 9))
  | None => False
  end.
Proof. vm_compute. repeat split; reflexivity. Qed.

End MapObjectsInstances.

Section PlayerInstances.

Import Player PlayerSample.

Lemma start_free :
  isBlocked worldToTile isCollision (playerX start) (playerY start) = false.
Proof. vm_compute. reflexivity. Qed.

Lemma player_never_enters_blocked_witness :
  isBlocked worldToTile isCollision (playerX start) (playerY start) = false
  /\ isBlocked worldToTile isCollision
       (playerX (frames sqrt worldToTile isCollision
                   [(1 # 10, keys ["ArrowRight"; "s"]);
                    (1 # 10, keys ["ArrowRight"; "Shift"])] start))
       (playerY (frames sqrt worldToTile isCollision
                   [(1 # 10, keys ["ArrowRight"; "s"]);
                    (1 # 10, keys ["ArrowRight"; "Shift"])] start))
     = false.
Proof.
  split; [exact start_free|].
  exact (player_never_enters_blocked sqrt worldToTile isCollision
           [(1 # 10, keys ["ArrowRight"; "s"]);
            (1 # 10, keys ["ArrowRight"; "Shift"])] start start_free).
Defined.

Lemma cancelling_keys_stand_still_witness :
  isMoving (updatePlayerMovement sqrt worldToTile isCollision
              (keys ["ArrowLeft"; "d"]) (1 # 10) start) = false.
Proof.
  destruct (cancelling_keys_stand_still sqrt worldToTile isCollision
              (keys ["ArrowLeft"; "d"]) (1 # 10) start eq_refl eq_refl)
    as (_ & _ & _ & _ & H & _).
  exact H.
Defined.

(** Walking right towards the wall of column 5: the first frame moves six
    pixels, the second is stopped by the wall, and the reported velocity is
    the intended one all the same. *)
Example walk_into_wall :
  let one := updatePlayerMovement sqrt worldToTile isCollision
               (keys ["ArrowRight"]) (1 # 20) start in
  let two := updatePlayerMovement sqrt worldToTile isCollision
               (keys ["ArrowRight"]) (1 # 20) one in
  playerX one == 70 /\ playerX two == 70
  /\ playerVX two == 120 /\ playerDirection two = "right"%string.
Proof. vm_compute. repeat split; reflexivity. Qed.

End PlayerInstances.
